(** * Editor pipeline of the GREGOR image-enhancement tools

    A shallow embedding of [src/data/Editor.py]: the [Editor] contract
    ([convert] around the abstract [call]), the NaN and normalisation
    units, [ExpandDimsEditor], [DistributeEditor], the two GREGOR
    loaders and the padding / unpadding units, followed by the
    properties checked against the specification and by further
    properties of the code.

    Conventions of the embedding.
    - A Python exception is a value of [exn]; code that may raise lives
      in the [result] monad.
    - A pixel is a [sample], a binary64 float as numpy's [float64]
      holds it; the arithmetic on pixels is IEEE 754 arithmetic.
    - A number of a FITS header is held as the rational it denotes; a
      header card holds no NaN and no infinity.
    - A sunpy map is built by [sunpy_Map], which refuses a header that
      does not give an angular unit for each of the two axes.
    - A numpy array of rank two or three is an [ndarray] that carries its
      [shape] next to its rows, as the pixel arrays of the pipeline do.
    - A [**kwargs] dictionary is an object on a heap of dictionaries:
      a call [f(x, **d)] builds a new dictionary for the callee. *)

From Stdlib Require Import ZArith QArith Qround Lia Sorted Permutation Ascii String.
From Stdlib Require Import Floats.
From stdpp Require Import base option list gmap strings.

Set Warnings "-register-all".

Close Scope Q_scope.
Open Scope Z_scope.
Open Scope nat_scope.

(** ** Python exceptions and the [result] monad *)

Inductive exn : Type :=
| AssertionError (msg : string)
| Exception (msg : string)
| IndexError
| KeyError (key : string)
| TypeError
| ValueError
| FileNotFoundError (file : string)
| MapMetaValidationError.

Inductive result (A : Type) : Type :=
| Ok (a : A)
| Raise (e : exn).
Arguments Ok {A} a.
Arguments Raise {A} e.

#[global] Instance result_ret : MRet result := fun A a => Ok a.
#[global] Instance result_bind : MBind result := fun A B f m =>
  match m with
  | Ok a => f a
  | Raise e => Raise e
  end.
#[global] Instance result_fmap : FMap result := fun A B f m =>
  match m with
  | Ok a => Ok (f a)
  | Raise e => Raise e
  end.

Definition is_Ok {A} (r : result A) : Prop := ∃ a, r = Ok a.

(** A list comprehension whose body may raise: elements are evaluated
    left to right and the first exception ends the comprehension. *)
Fixpoint comprehension {A B} (f : A → result B) (l : list A) : result (list B) :=
  match l with
  | [] => Ok []
  | x :: l' => y ← f x; ys ← comprehension f l'; Ok (y :: ys)
  end.

(** ** Python sequences: indexing and slicing *)

(** [l[i]] for a list or tuple: a negative index counts from the end. *)
Definition getitem {A} (l : list A) (i : Z) : result A :=
  let n := Z.of_nat (length l) in
  let j := if (i <? 0)%Z then (n + i)%Z else i in
  if (j <? 0)%Z then Raise IndexError
  else match l !! Z.to_nat j with
       | Some x => Ok x
       | None => Raise IndexError
       end.

(** One bound of a slice, clamped into [0, n] as [slice.indices] does
    for a positive step; [None] takes the given default. *)
Definition slice_bound (n : nat) (default : nat) (b : option Z) : nat :=
  match b with
  | None => default
  | Some z =>
      if (z <? 0)%Z then Z.to_nat (Z.max 0 (Z.of_nat n + z))
      else Nat.min (Z.to_nat z) n
  end.

(** [l[start:stop]] *)
Definition slice {A} (start stop : option Z) (l : list A) : list A :=
  let n := length l in
  let lo := slice_bound n 0 start in
  let hi := slice_bound n n stop in
  take (hi - lo) (drop lo l).

(** Every second element of [l], the first one included: [l[::2]]. *)
Fixpoint every_second {A} (l : list A) : list A :=
  match l with
  | [] => []
  | [x] => [x]
  | x :: _ :: l' => x :: every_second l'
  end.

(** [l[index::2]] for a non-negative [index] *)
Definition slice_from_step2 {A} (index : nat) (l : list A) : list A :=
  every_second (drop index l).

(** ** Pixels and arrays *)

Abbreviation sample := float.

(** [lo <= x <= hi] as a comparison of floats: false on NaN. *)
Definition sample_between (lo hi : sample) (x : sample) : Prop :=
  (lo <=? x)%float = true ∧ (x <=? hi)%float = true.

(** The largest finite binary64 value, [np.finfo(np.float64).max]. *)
Definition float_max : sample := 0x1.fffffffffffffp+1023%float.

Abbreviation plane := (list (list sample)).

(** Arrays of rank two [(h, w)] and three [(n, h, w)]. *)
Inductive ndarray : Type :=
| Array2 (h w : nat) (rows : plane)
| Array3 (n h w : nat) (frames : list plane).

Definition shape (a : ndarray) : list nat :=
  match a with
  | Array2 h w _ => [h; w]
  | Array3 n h w _ => [n; h; w]
  end.

Definition plane_wf (h w : nat) (rows : plane) : Prop :=
  length rows = h ∧ Forall (λ r, length r = w) rows.

(** The rows of a well-formed array agree with its shape. *)
Definition ndarray_wf (a : ndarray) : Prop :=
  match a with
  | Array2 h w rows => plane_wf h w rows
  | Array3 n h w frames => length frames = n ∧ Forall (plane_wf h w) frames
  end.

Definition plane_get (rows : plane) (i j : nat) : option sample :=
  row ← rows !! i; row !! j.

(** [a[idx]] for a full index of non-negative entries. *)
Definition item (a : ndarray) (idx : list nat) : option sample :=
  match a, idx with
  | Array2 _ _ rows, [i; j] => plane_get rows i j
  | Array3 _ _ _ frames, [k; i; j] => rows ← frames !! k; plane_get rows i j
  | _, _ => None
  end.

(** Row-major contents, the order of the array's buffer. *)
Definition flat (a : ndarray) : list sample :=
  match a with
  | Array2 _ _ rows => concat rows
  | Array3 _ _ _ frames => concat (concat frames)
  end.

(** An elementwise operation keeps the shape. *)
Definition plane_map (f : sample → sample) (rows : plane) : plane :=
  (λ row : list sample, f <$> row) <$> rows.

Definition ndarray_map (f : sample → sample) (a : ndarray) : ndarray :=
  match a with
  | Array2 h w rows => Array2 h w (plane_map f rows)
  | Array3 n h w frames => Array3 n h w (plane_map f <$> frames)
  end.

Definition ndarray_Forall (P : sample → Prop) (a : ndarray) : Prop :=
  Forall P (flat a).

(** ** numpy functions used by the editors *)

(** [np.nan_to_num(x, nan=nan)] on one element: NaN becomes [nan]; with
    [posinf] and [neginf] left at their defaults the infinities become
    the largest and the smallest finite float. *)
Definition nan_to_num1 (nan : sample) (x : sample) : sample :=
  if is_nan x then nan
  else if (x =? infinity)%float then float_max
  else if (x =? neg_infinity)%float then (- float_max)%float
  else x.

Definition np_nan_to_num (nan : sample) (data : ndarray) : ndarray :=
  ndarray_map (nan_to_num1 nan) data.

Definition pad_row (lo hi : nat) (fill : sample) (row : list sample) : list sample :=
  replicate lo fill ++ row ++ replicate hi fill.

Definition pad_plane (w : nat) (x y : nat * nat) (fill : sample) (rows : plane) : plane :=
  let w' := y.1 + w + y.2 in
  replicate x.1 (replicate w' fill)
    ++ (pad_row y.1 y.2 fill <$> rows)
    ++ replicate x.2 (replicate w' fill).

Definition pad_width_ok (pw : Z * Z) : bool :=
  (0 <=? pw.1)%Z && (0 <=? pw.2)%Z.

Definition to_nat2 (pw : Z * Z) : nat * nat := (Z.to_nat pw.1, Z.to_nat pw.2).

(** [np.pad(data, pad_width, 'constant', constant_values=fill)] with one
    (before, after) pair per axis: a negative width or a number of pairs
    other than the rank is a [ValueError]. *)
Definition np_pad (data : ndarray) (pad_width : list (Z * Z)) (fill : sample)
  : result ndarray :=
  if negb (forallb pad_width_ok pad_width) then Raise ValueError
  else match data, to_nat2 <$> pad_width with
       | Array2 h w rows, [x; y] =>
           Ok (Array2 (x.1 + h + x.2) (y.1 + w + y.2) (pad_plane w x y fill rows))
       | Array3 n h w frames, [z; x; y] =>
           let h' := x.1 + h + x.2 in
           let w' := y.1 + w + y.2 in
           let blank := replicate h' (replicate w' fill) in
           Ok (Array3 (z.1 + n + z.2) h' w'
                 (replicate z.1 blank
                    ++ (pad_plane w x y fill <$> frames)
                    ++ replicate z.2 blank))
       | _, _ => Raise ValueError
       end.

(** Two operands of [np.concatenate(..., 0)]: the ranks and all axes but
    the first must agree. *)
Definition concatenate2 (a b : ndarray) : result ndarray :=
  match a, b with
  | Array2 h1 w1 r1, Array2 h2 w2 r2 =>
      if decide (w1 = w2) then Ok (Array2 (h1 + h2) w1 (r1 ++ r2))
      else Raise ValueError
  | Array3 n1 h1 w1 f1, Array3 n2 h2 w2 f2 =>
      if decide (h1 = h2 ∧ w1 = w2) then Ok (Array3 (n1 + n2) h1 w1 (f1 ++ f2))
      else Raise ValueError
  | _, _ => Raise ValueError
  end.

Fixpoint concatenate_from (acc : ndarray) (rest : list ndarray) : result ndarray :=
  match rest with
  | [] => Ok acc
  | b :: rest' => acc' ← concatenate2 acc b; concatenate_from acc' rest'
  end.

(** [np.concatenate(arrays, 0)]: an empty sequence is a [ValueError]. *)
Definition np_concatenate (arrays : list ndarray) : result ndarray :=
  match arrays with
  | [] => Raise ValueError
  | a :: rest => concatenate_from a rest
  end.

(** ** Headers, metadata values and the contract of a unit *)

(** A header card holds a number or a string. *)
Inductive hval : Type :=
| HNum (q : Q)
| HStr (s : string).

(** [a == b] on card values: a string never equals a number. *)
Definition hval_eqb (a b : hval) : bool :=
  match a, b with
  | HNum p, HNum q => Qeq_bool p q
  | HStr s, HStr t => bool_decide (s = t)
  | _, _ => false
  end.

(** [a < b] as [sorted] asks it of two keys: numbers by value, strings
    by code point, a number against a string is a [TypeError]. *)
Definition hval_lt (a b : hval) : result bool :=
  match a, b with
  | HNum p, HNum q => Ok (negb (Qle_bool q p))
  | HStr s, HStr t => Ok (String.ltb s t)
  | _, _ => Raise TypeError
  end.

Definition upper_ascii (c : ascii) : ascii :=
  let n := nat_of_ascii c in
  if (97 <=? n) && (n <=? 122) then ascii_of_nat (n - 32) else c.

Fixpoint upper (s : string) : string :=
  match s with
  | EmptyString => EmptyString
  | String c s' => String (upper_ascii c) (upper s')
  end.

(** A FITS header, keyed by keyword in upper case: astropy looks a
    keyword up and stores it without regard to case. *)
Abbreviation header := (gmap string hval).

Definition header_contains (key : string) (h : header) : bool :=
  bool_decide (is_Some (h !! upper key)).

Definition header_getitem (h : header) (key : string) : result hval :=
  match h !! upper key with
  | Some v => Ok v
  | None => Raise (KeyError key)
  end.

Definition header_setitem (key : string) (v : hval) (h : header) : header :=
  <[upper key := v]> h.

(** One record of a FITS container. *)
Record HDU : Type := mkHDU { hdu_header : header; hdu_data : ndarray }.

(** A sunpy map: the pixels and the header they are described by. *)
Record Map : Type := mkMap { map_data : ndarray; map_meta : header }.

(** The names of the angular units a header of this development gives
    for an axis, as astropy spells them. *)
Definition angular_units : list string :=
  ["arcsec"; "arcmin"; "deg"; "rad"; "mas"].

Definition is_angular (v : hval) : bool :=
  match v with
  | HStr s => bool_decide (s ∈ angular_units)
  | HNum _ => false
  end.

(** The check sunpy makes of a header when a map is built: both CUNIT1
    and CUNIT2 must be there, and name units of angle. A card that is
    not one of [angular_units] is taken as not angular; the statements
    below rest on the check for a header without the card and for a
    header that holds one of these names only. *)
Definition validate_meta (meta : header) : bool :=
  match meta !! upper "cunit1", meta !! upper "cunit2" with
  | Some u1, Some u2 => is_angular u1 && is_angular u2
  | _, _ => false
  end.

(** [Map(data, header)]: the map, or [MapMetaValidationError] for a
    header that fails the check. *)
Definition sunpy_Map (data : ndarray) (meta : header) : result Map :=
  if validate_meta meta then Ok (mkMap data meta)
  else Raise MapMetaValidationError.

(** Values a unit may leave in the metadata. *)
Inductive pyval : Type :=
| VNum (q : Q)
| VStr (s : string)
| VHeader (h : header).

Abbreviation dict := (gmap string pyval).

(** What [call] returns: the data alone, or the tuple [(data, add_kwargs)]
    that [convert] recognises with [isinstance(result, tuple)]. *)
Inductive returned (B : Type) : Type :=
| Data (data : B)
| DataAnd (data : B) (add_kwargs : dict).
Arguments Data {B} data.
Arguments DataAnd {B} data add_kwargs.

(** A unit: the name of the positional parameter of its [call] and the
    function [call] computes from the data and the contents of its
    [**kwargs]. *)
Record Editor (A B : Type) : Type := mkEditor {
  param : string;
  call : A → dict → result (returned B)
}.
Arguments mkEditor {A B} param call.
Arguments param {A B} e.
Arguments call {A B} e data kwargs.

(** ** The units of the source *)

(** [MapToDataEditor.call] *)
Definition MapToDataEditor_call (s_map : Map) (kwargs : dict)
  : result (returned ndarray) :=
  Ok (DataAnd (map_data s_map) {["header" := VHeader (map_meta s_map)]}).

Definition MapToDataEditor : Editor Map ndarray :=
  mkEditor "s_map" MapToDataEditor_call.

(** [NanEditor.__init__] takes [nan=0]. *)
Definition NanEditor_default_nan : sample := 0%float.

(** [NanEditor.call] *)
Definition NanEditor_call (nan : sample) (data : ndarray) (kwargs : dict)
  : result (returned ndarray) :=
  let data := np_nan_to_num nan data in
  Ok (Data data).

Definition NanEditor (nan : sample) : Editor ndarray ndarray :=
  mkEditor "data" (NanEditor_call nan).

(** [NormalizeEditor.call]; [norm data] stands for [self.norm(data).data],
    the values of the array the normalisation returns. *)
Definition NormalizeEditor_call (norm : ndarray → ndarray) (data : ndarray)
    (kwargs : dict) : result (returned ndarray) :=
  let data := ndarray_map (λ x, x * 2 - 1)%float (norm data) in
  Ok (Data data).

Definition NormalizeEditor (norm : ndarray → ndarray) : Editor ndarray ndarray :=
  mkEditor "data" (NormalizeEditor_call norm).

(** The two halves of [x], as [int(np.floor(x))] and [int(np.ceil(x))]
    give them for [x = d / 2]. *)
Definition half (d : Z) : Q := (inject_Z d / 2)%Q.

(** The widths [PaddingEditor.call] hands to [np.pad]. *)
Definition PaddingEditor_pad (target_shape : Z * Z) (s : list nat)
  : result (list (Z * Z)) :=
  let p := target_shape in
  s2 ← getitem s (-2);
  s1 ← getitem s (-1);
  let x_pad := half (p.1 - Z.of_nat s2) in
  let y_pad := half (p.2 - Z.of_nat s1) in
  let pad := [(Qfloor x_pad, Qceiling x_pad); (Qfloor y_pad, Qceiling y_pad)] in
  Ok (if decide (length s = 3) then (0, 0)%Z :: pad else pad).

(** [PaddingEditor.call] *)
Definition PaddingEditor_call (target_shape : Z * Z) (data : ndarray)
    (kwargs : dict) : result (returned ndarray) :=
  let s := shape data in
  pad ← PaddingEditor_pad target_shape s;
  out ← np_pad data pad nan;
  Ok (Data out).

Definition PaddingEditor (target_shape : Z * Z) : Editor ndarray ndarray :=
  mkEditor "data" (PaddingEditor_call target_shape).

(** The objects the list [unpad] of [UnpaddingEditor.call] holds. *)
Inductive pyobj : Type :=
| PyNone
| PyInt (z : Z)
| PyTuple (items : list pyobj).

(** [o[i]]: only a tuple can be subscripted. *)
Definition subscript (o : pyobj) (i : Z) : result pyobj :=
  match o with
  | PyTuple items => getitem items i
  | _ => Raise TypeError
  end.

(** [None if z == 0 else z] *)
Definition none_if_zero (z : Z) : pyobj :=
  if decide (z = 0%Z) then PyNone else PyInt z.

(** A bound of a slice must be [None] or an integer. *)
Definition as_bound (o : pyobj) : result (option Z) :=
  match o with
  | PyNone => Ok None
  | PyInt z => Ok (Some z)
  | PyTuple _ => Raise TypeError
  end.

(** [data[:, a:b, c:d]]: three indices need an array of rank three. *)
Definition getitem_slices (data : ndarray) (a b c d : option Z) : result ndarray :=
  match data with
  | Array2 _ _ _ => Raise IndexError
  | Array3 n h w frames =>
      let frames' := (λ rows : plane, slice c d <$> slice a b rows) <$> frames in
      let h' := length (slice a b (replicate h ())) in
      let w' := length (slice c d (replicate w ())) in
      Ok (Array3 n h' w' frames')
  end.

(** [UnpaddingEditor.call] *)
Definition UnpaddingEditor_call (target_shape : Z * Z) (data : ndarray)
    (kwargs : dict) : result (returned ndarray) :=
  let s := shape data in
  let p := target_shape in
  s2 ← getitem s (-2);
  s1 ← getitem s (-1);
  let x_unpad := half (Z.of_nat s2 - p.1) in
  let y_unpad := half (Z.of_nat s1 - p.2) in
  let unpad := [none_if_zero (Qfloor y_unpad);
                none_if_zero (Qceiling y_unpad);
                PyTuple [none_if_zero (Qfloor x_unpad);
                         none_if_zero (Qceiling x_unpad)]] in
  u0 ← getitem unpad 0;
  a ← subscript u0 0;
  u0 ← getitem unpad 0;
  b ← subscript u0 1;
  u1 ← getitem unpad 1;
  c ← subscript u1 0;
  u1 ← getitem unpad 1;
  d ← subscript u1 1;
  a ← as_bound a; b ← as_bound b; c ← as_bound c; d ← as_bound d;
  data ← getitem_slices data a b c d;
  Ok (Data data).

Definition UnpaddingEditor (target_shape : Z * Z) : Editor ndarray ndarray :=
  mkEditor "data" (UnpaddingEditor_call target_shape).

(** ** [ExpandDimsEditor] *)

(** An array of any rank, as its shape and its buffer in row-major
    order: [np.expand_dims] takes an array of rank three to one of rank
    four, which [ndarray] has no place for. *)
Record tensor : Type := mkTensor {
  tensor_shape : list nat;
  tensor_buffer : list sample
}.

Definition as_tensor (a : ndarray) : tensor := mkTensor (shape a) (flat a).

(** The number of elements of an array of shape [s]. *)
Definition shape_size (s : list nat) : nat := foldr Nat.mul 1 s.

(** [normalize_axis_index(axis, ndim)]: a negative axis counts from the
    end; outside [-ndim, ndim) numpy raises [AxisError], which is a
    [ValueError]. *)
Definition normalize_axis_index (axis : Z) (ndim : nat) : result nat :=
  let n := Z.of_nat ndim in
  if ((axis <? - n) || (n <=? axis))%Z then Raise ValueError
  else Ok (Z.to_nat (if (axis <? 0)%Z then axis + n else axis)%Z).

(** [np.expand_dims(a, axis)] for one axis: the axis is normalised
    against the rank of the result, the shape gets a 1 at this position
    and the buffer stays as it is. *)
Definition np_expand_dims (a : tensor) (axis : Z) : result tensor :=
  let s := tensor_shape a in
  let out_ndim := S (length s) in
  ax ← normalize_axis_index axis out_ndim;
  Ok (mkTensor (take ax s ++ 1 :: drop ax s) (tensor_buffer a)).

(** One value cast to [np.float32]: rounded to nearest, ties to even,
    into the 24 bits of precision and the exponents of binary32, to
    an infinity when it is too large. The result is held as the float
    of the same value. *)
Definition float32 (x : sample) : sample :=
  SF2Prim (match Prim2SF x with
           | S754_finite s m e => binary_round 24 128 s m e
           | f => f
           end).

(** [a.astype(np.float32)] *)
Definition astype_float32 (a : tensor) : tensor :=
  mkTensor (tensor_shape a) (float32 <$> tensor_buffer a).

(** [ExpandDimsEditor.__init__] takes [axis=0]. *)
Definition ExpandDimsEditor_default_axis : Z := 0.

(** [ExpandDimsEditor.call] *)
Definition ExpandDimsEditor_call (axis : Z) (data : ndarray) (kwargs : dict)
  : result (returned tensor) :=
  out ← np_expand_dims (as_tensor data) axis;
  Ok (Data (astype_float32 out)).

Definition ExpandDimsEditor (axis : Z) : Editor ndarray tensor :=
  mkEditor "data" (ExpandDimsEditor_call axis).

(** ** The GREGOR loaders *)

(** The files [fits.open] can read, each an ordered list of records. *)
Abbreviation filesystem := (gmap string (list HDU)).

Definition fits_open (fs : filesystem) (file : string) : result (list HDU) :=
  match fs !! file with
  | Some hdul => Ok hdul
  | None => Raise (FileNotFoundError file)
  end.

(** ['Invalid GREGOR file %s' % file] *)
Definition invalid_gregor_file (file : string) : string :=
  String.append "Invalid GREGOR file " file.

(** Insertion of one keyed record into a list sorted by key: the record
    goes in front of the first one that is not smaller, so it stays in
    front of the records with an equal key that followed it. *)
Fixpoint insert_keyed {A} (x : hval * A) (l : list (hval * A))
  : result (list (hval * A)) :=
  match l with
  | [] => Ok [x]
  | y :: l' =>
      lt ← hval_lt y.1 x.1;
      if lt : bool then l'' ← insert_keyed x l'; Ok (y :: l'')
      else Ok (x :: y :: l')
  end.

Fixpoint sort_keyed {A} (l : list (hval * A)) : result (list (hval * A)) :=
  match l with
  | [] => Ok []
  | x :: l' => s ← sort_keyed l'; insert_keyed x s
  end.

(** [sorted(l, key=key)]: the keys are computed first, one per element
    and in order; the sort is stable and compares keys with [<] only. *)
Definition sorted {A} (key : A → result hval) (l : list A) : result (list A) :=
  keyed ← comprehension (λ x, k ← key x; Ok (k, x)) l;
  s ← sort_keyed keyed;
  Ok (s.*2).

Definition arcsec : hval := HStr "arcsec".
Definition cdelt1 : hval := HNum ((253 # 10000) / 2560)%Q.
Definition cdelt2 : hval := HNum ((253 # 10000) / 2160)%Q.
Definition gband_wavelength : hval := HNum (4307 # 10).
Definition continuum_wavelength : hval := HNum (45055 # 100).

(** The channel of the target wavelength: the first record's, else the
    second record's. *)
Definition channel_index (file : string) (target : hval) (hdul : list HDU)
  : result nat :=
  hdu0 ← getitem hdul 0;
  if negb (header_contains "WAVELNTH" (hdu_header hdu0))
  then Raise (AssertionError (invalid_gregor_file file))
  else
    w0 ← header_getitem (hdu_header hdu0) "WAVELNTH";
    if hval_eqb w0 target then Ok 0
    else
      hdu1 ← getitem hdul 1;
      w1 ← header_getitem (hdu_header hdu1) "WAVELNTH";
      if hval_eqb w1 target then Ok 1
      else Raise (Exception (invalid_gregor_file file)).

(** The assignments [LoadGregorGBandEditor.call] makes to the primary
    header. *)
Definition gband_patch (primary_header : header) : header :=
  header_setitem "cdelt2" cdelt2
    (header_setitem "cdelt1" cdelt1
       (header_setitem "cunit2" arcsec
          (header_setitem "cunit1" arcsec primary_header))).

(** The assignments [LoadGregorContinuumEditor.call] makes. *)
Definition continuum_patch (primary_header : header) : header :=
  header_setitem "cdelt2" cdelt2
    (header_setitem "cdelt1" cdelt1
       (header_setitem "cunit2" arcsec
          (header_setitem "cunit" arcsec primary_header))).

(** The two loaders have one body: they differ in the wavelength they
    look for and in the assignments to the primary header. *)
Inductive loader : Type := GBand | Continuum.

Definition wavelength (v : loader) : hval :=
  match v with
  | GBand => gband_wavelength
  | Continuum => continuum_wavelength
  end.

Definition patch (v : loader) : header → header :=
  match v with
  | GBand => gband_patch
  | Continuum => continuum_patch
  end.

(** The per-record key of the sort, [hdu.header['TIMEOFFS']]. *)
Definition time_offset (hdu : HDU) : result hval :=
  header_getitem (hdu_header hdu) "TIMEOFFS".

(** The shared body. The header is patched in place, so the record
    [hdul[0]] shows the patch when the channel is sliced out of
    [hdul]; a map is built for each record of the sorted channel, each
    from the patched header. *)
Definition load_gregor (v : loader) (fs : filesystem) (file : string)
  : result (returned (list Map)) :=
  hdul ← fits_open fs file;
  index ← channel_index file (wavelength v) hdul;
  hdu0 ← getitem hdul 0;
  let primary_header := patch v (hdu_header hdu0) in
  let hdul := <[0 := mkHDU primary_header (hdu_data hdu0)]> hdul in
  let channel := slice_from_step2 index hdul in
  channel ← sorted time_offset channel;
  gregor_maps ←
    comprehension (λ hdu, sunpy_Map (hdu_data hdu) primary_header)
      (channel : list HDU);
  Ok (DataAnd gregor_maps {["path" := VStr file]}).

(** [LoadGregorGBandEditor.call] *)
Definition LoadGregorGBandEditor_call (fs : filesystem) (file : string)
    (kwargs : dict) : result (returned (list Map)) :=
  load_gregor GBand fs file.

Definition LoadGregorGBandEditor (fs : filesystem) : Editor string (list Map) :=
  mkEditor "file" (LoadGregorGBandEditor_call fs).

(** [LoadGregorContinuumEditor.call] *)
Definition LoadGregorContinuumEditor_call (fs : filesystem) (file : string)
    (kwargs : dict) : result (returned (list Map)) :=
  load_gregor Continuum fs file.

Definition LoadGregorContinuumEditor (fs : filesystem) : Editor string (list Map) :=
  mkEditor "file" (LoadGregorContinuumEditor_call fs).

(** ** Dictionaries as objects: the heap and the calls of a run *)

(** One invocation of a unit's [call]: where the dictionary it was
    given lives, what it held, and the updates the unit returned (none
    when it returned the data alone or raised). *)
Record event : Type := mkEvent {
  ev_loc : nat;
  ev_seen : dict;
  ev_wrote : dict
}.

(** The dictionaries alive in a run, addressed by position, and the
    calls made so far. The log of calls is bookkeeping of the model: no
    code reads it. *)
Record world : Type := mkWorld {
  heap : list dict;
  calls : list event
}.

(** A computation that reads and writes the heap and may raise. *)
Definition M (X : Type) : Type := world → world * result X.

#[global] Instance M_ret : MRet M := fun X x w => (w, Ok x).
#[global] Instance M_bind : MBind M := fun X Y f m w =>
  match m w with
  | (w', Ok x) => f x w'
  | (w', Raise e) => (w', Raise e)
  end.

Definition lift {X} (r : result X) : M X := fun w => (w, r).

(** A new dictionary object holding [d]. *)
Definition alloc (d : dict) : M nat :=
  fun w => (mkWorld (heap w ++ [d]) (calls w), Ok (length (heap w))).

(** The contents of the dictionary at [l]. *)
Definition deref (l : nat) : M dict :=
  fun w => (w, Ok (default ∅ (heap w !! l))).

(** [kwargs.update(add_kwargs)] on the dictionary at [l]: a key of
    [add_kwargs] overrides the same key of [kwargs]. *)
Definition dict_update (l : nat) (add_kwargs : dict) : M () :=
  fun w => (mkWorld (alter (λ d, add_kwargs ∪ d) l (heap w)) (calls w), Ok ()).

Definition log_call (e : event) : M () :=
  fun w => (mkWorld (heap w) (calls w ++ [e]), Ok ()).

(** Whether a key of [d] names one of the parameters [params]. *)
Definition clashes (params : list string) (d : dict) : bool :=
  existsb (λ k, bool_decide (is_Some (d !! k))) params.

(** The argument [**kwargs] of a call [f(x, **kwargs)]: the callee gets
    a new dictionary with the same items; a key that names a parameter
    of [f] is a [TypeError] (multiple values for the argument). *)
Definition pass_kwargs (params : list string) (kwargs : nat) : M nat :=
  d ← deref kwargs;
  if clashes params d then lift (Raise TypeError) else alloc d.

(** [Editor.convert]; [kwargs] is the dictionary bound to [**kwargs]. *)
Definition convert {A B} (self : Editor A B) (data : A) (kwargs : nat)
  : M (B * nat) :=
  kw ← pass_kwargs ["self"; param self] kwargs;
  seen ← deref kw;
  match call self data seen with
  | Raise e => log_call (mkEvent kw seen ∅);; lift (Raise e)
  | Ok (DataAnd data add_kwargs) =>
      log_call (mkEvent kw seen add_kwargs);;
      dict_update kwargs add_kwargs;;
      mret (data, kwargs)
  | Ok (Data data) =>
      log_call (mkEvent kw seen ∅);;
      mret (data, kwargs)
  end.

(** The ordered units of a pipeline, each consuming what the one before
    it produced. *)
Inductive Pipeline : Type → Type → Type :=
| Done {A} : Pipeline A A
| Then {A B C} (editor : Editor A B) (rest : Pipeline B C) : Pipeline A C.

Fixpoint n_units {A C} (editors : Pipeline A C) : nat :=
  match editors with
  | Done => 0
  | Then _ rest => S (n_units rest)
  end.

(** [DistributeEditor.convertData]: the loop over [self.editors];
    [kwargs] is rebound to the dictionary [convert] returns. *)
Fixpoint convertData {A C} (editors : Pipeline A C) : A → nat → M C :=
  match editors with
  | Done => λ data _, mret data
  | Then editor rest => λ data kwargs,
      kw ← pass_kwargs ["self"; "data"] kwargs;
      r ← convert editor data kw;
      convertData rest r.1 r.2
  end.

(** The comprehension of [DistributeEditor.call], one run after the
    other. *)
Fixpoint distribute {A C} (editors : Pipeline A C) (data : list A) (kwargs : nat)
  : M (list C) :=
  match data with
  | [] => mret []
  | d :: data' =>
      kw ← pass_kwargs ["self"; "data"] kwargs;
      y ← convertData editors d kw;
      ys ← distribute editors data' kwargs;
      mret (y :: ys)
  end.

(** [DistributeEditor.call] *)
Definition DistributeEditor_call {A} (editors : Pipeline A ndarray)
    (data : list A) (kwargs : nat) : M ndarray :=
  results ← distribute editors data kwargs;
  lift (np_concatenate results).

(** ** What a run amounts to, without the heap *)

(** The calls a pipeline makes on [data] when it starts from the
    metadata [m], as pairs (seen, wrote), and its outcome. *)
Fixpoint run {A C} (editors : Pipeline A C) : A → dict → list (dict * dict) * result C :=
  match editors with
  | Done => λ data _, ([], Ok data)
  | Then editor rest => λ data m,
      if clashes ["self"; "data"] m || clashes ["self"; param editor] m
      then ([], Raise TypeError)
      else match call editor data m with
           | Raise e => ([(m, ∅)], Raise e)
           | Ok (Data data') =>
               let r := run rest data' m in ((m, ∅) :: r.1, r.2)
           | Ok (DataAnd data' add_kwargs) =>
               let r := run rest data' (add_kwargs ∪ m) in
               ((m, add_kwargs) :: r.1, r.2)
           end
  end.

(** The runs of a comprehension over [data], each from the same
    metadata [m], up to the first one that raises. *)
Fixpoint runs {A C} (editors : Pipeline A C) (data : list A) (m : dict)
  : list (dict * dict) * result (list C) :=
  match data with
  | [] => ([], Ok [])
  | d :: data' =>
      if clashes ["self"; "data"] m then ([], Raise TypeError)
      else match run editors d m with
           | (t, Raise e) => (t, Raise e)
           | (t, Ok y) =>
               let r := runs editors data' m in
               (t ++ r.1, ys ← r.2; Ok (y :: ys))
           end
  end.

(** The metadata after the updates [ws], applied in order to [m]. *)
Definition updated (m : dict) (ws : list dict) : dict :=
  foldl (λ acc w, w ∪ acc) m ws.

(** Whether [lo <= i < lo + n]. *)
Definition within (lo n i : nat) : bool := (lo <=? i) && (i <? lo + n).

(** [loader_call v] is the [call] of the loader [v]. *)
Definition loader_call (v : loader)
  : filesystem → string → dict → result (returned (list Map)) :=
  match v with
  | GBand => LoadGregorGBandEditor_call
  | Continuum => LoadGregorContinuumEditor_call
  end.

(** ** Vocabulary of the statements *)

(** The key of a keyed record is a number. *)
Definition numeric {A} (x : hval * A) : Prop := ∃ q, x.1 = HNum q.

(** [x]'s key is a number not above the number that is [y]'s key. *)
Definition key_le {A} (x y : hval * A) : Prop :=
  match x.1, y.1 with
  | HNum p, HNum q => (p <= q)%Q
  | _, _ => False
  end.

(** The key is a number equal to [q]. *)
Definition key_is {A} (q : Q) (x : hval * A) : bool :=
  match x.1 with
  | HNum p => Qeq_bool p q
  | HStr _ => false
  end.

(** A function applied to the payloads of a keyed list. *)
Definition on_payload {A B} (f : A → B) (l : list (hval * A)) : list (hval * B) :=
  (λ y, (y.1, f y.2)) <$> l.

(** The same three notions for records whose key [key] computes. *)
Definition by_key_le {A} (key : A → result hval) (a b : A) : Prop :=
  ∃ p q, key a = Ok (HNum p) ∧ key b = Ok (HNum q) ∧ (p <= q)%Q.

Definition by_key_is {A} (key : A → result hval) (q : Q) (a : A) : bool :=
  match key a with
  | Ok (HNum p) => Qeq_bool p q
  | _ => false
  end.

(** The first step of [sorted]: each record with its key. *)
Definition keyed {A} (key : A → result hval) (l : list A)
  : result (list (hval * A)) :=
  comprehension (λ x, k ← key x; Ok (k, x)) l.

(** Two records that agree on time offset and pixels. *)
Definition same_frame (a b : HDU) : Prop :=
  time_offset a = time_offset b ∧ hdu_data a = hdu_data b.

(** What the calls [evs] saw and wrote, without the locations. *)
Definition views (evs : list event) : list (dict * dict) :=
  (λ e, (ev_seen e, ev_wrote e)) <$> evs.

(** Each call of [evs] got a dictionary of its own, allocated at or
    after [lo] and before [hi]. *)
Definition own_dicts (lo hi : nat) (evs : list event) : Prop :=
  Forall (λ e, lo ≤ ev_loc e < hi) evs ∧ NoDup (ev_loc <$> evs).


Definition leading (a : ndarray) : nat :=
  match a with
  | Array2 h _ _ => h
  | Array3 n _ _ _ => n
  end.

Definition trailing (a : ndarray) : list nat :=
  match a with
  | Array2 _ w _ => [w]
  | Array3 _ h w _ => [h; w]
  end.

(** The blocks of an array along its leading axis, each flattened: the
    rows of a rank-two array, the frames of a rank-three array. *)
Definition blocks (a : ndarray) : list (list sample) :=
  match a with
  | Array2 _ _ rows => rows
  | Array3 _ _ _ frames => (λ rows : plane, concat rows) <$> frames
  end.

(** The binary64 numbers 1 and 2 as sign, mantissa and exponent. *)
Definition SF_one : spec_float := S754_finite false 4503599627370496 (-52).
Definition SF_two : spec_float := S754_finite false 4503599627370496 (-51).

(** A spec float of sign [sx] whose magnitude is at most [2 ^ K]. *)
Definition SF_at_most (K : Z) (sx : bool) (f : spec_float) : Prop :=
  match f with
  | S754_zero s => s = sx
  | S754_finite s m e => s = sx ∧ (e <= K)%Z ∧ (Zpos m <= 2 ^ (K - e))%Z
  | _ => False
  end.

(** ** Containers used in the examples *)

Definition image (x : sample) : ndarray := Array2 1 1 [[x]].

Definition record (wavelnth timeoffs : Q) (pixel : sample) : HDU :=
  mkHDU {[ "WAVELNTH" := HNum wavelnth; "TIMEOFFS" := HNum timeoffs ]}
        (image pixel).

(** Wavelength tags 430.7, 999, 430.7, 999 and time offsets 3, 1, 2, 1. *)
Definition synthetic : list HDU :=
  [record (4307 # 10) 3 10; record 999 1 11;
   record (4307 # 10) 2 12; record 999 1 13].

(** A container whose first record has no wavelength tag. *)
Definition untagged_first : list HDU :=
  [mkHDU {[ "TIMEOFFS" := HNum 0 ]} (image 10); record (4307 # 10) 1 11].

(** A continuum container whose raw header gives the unit of the first
    axis in degrees. *)
Definition raw_continuum : list HDU :=
  [mkHDU {[ "WAVELNTH" := HNum (45055 # 100); "TIMEOFFS" := HNum 0;
            "CUNIT1" := HStr "deg"; "CDELT1" := HNum 1 ]} (image 10)].

(** The one record of [raw_continuum]. *)
Definition raw_continuum_record : HDU :=
  mkHDU {[ "WAVELNTH" := HNum (45055 # 100); "TIMEOFFS" := HNum 0;
           "CUNIT1" := HStr "deg"; "CDELT1" := HNum 1 ]} (image 10).

Definition files : filesystem :=
  {[ "gband.fits" := synthetic;
     "untagged.fits" := untagged_first;
     "single.fits" := [record 999 0 10];
     "other.fits" := [record 999 0 10; record 998 1 11];
     "continuum.fits" := raw_continuum ]}.

(** ** Units and inputs used in the examples *)

(** A unit that writes ["k"] = 1 and one that returns what it reads
    under ["k"]. *)
Definition writes_k : Editor (option pyval) (option pyval) :=
  mkEditor "data" (λ data kwargs, Ok (DataAnd data {["k" := VNum 1]})).

Definition reads_k : Editor (option pyval) (option pyval) :=
  mkEditor "data" (λ data kwargs, Ok (Data (kwargs !! "k"))).

(** A heap that holds one empty dictionary, the initial metadata. *)
Definition empty_world : world := mkWorld [∅] [].

(** Three inputs whose results have the leading sizes 1, 2 and 1. *)
Definition three_inputs : list ndarray :=
  [Array3 1 1 2 [[[1; nan]]]%float;
   Array3 2 1 2 [[[2; 3]]; [[nan; 4]]]%float;
   Array3 1 1 2 [[[5; 6]]]%float].

(** A unit that marks the metadata, on arrays. *)
Definition marks : Editor ndarray ndarray :=
  mkEditor "data" (λ data kwargs, Ok (DataAnd data {["mark" := VNum 1]})).

(** A unit that returns an update under the key "data". *)
Definition writes_data : Editor ndarray ndarray :=
  mkEditor "data" (λ data kwargs, Ok (DataAnd data {["data" := VNum 1]})).

(** A g-band container whose third record has no time offset. *)
Definition no_offset : filesystem :=
  {[ "a.fits" := [record (4307 # 10) 0 10; record 999 0 11;
                  mkHDU {[ "WAVELNTH" := HNum (4307 # 10) ]} (image 12)] ]}.

(** A container whose second record carries the g-band wavelength. *)
Definition second_channel : filesystem :=
  {[ "b.fits" := [record 999 0 10; record (4307 # 10) 1 11] ]}.

(** A continuum container whose header gives no unit for the first
    axis. *)
Definition no_unit : filesystem :=
  {[ "d.fits" := [record (45055 # 100) 0 10; record 999 1 11;
                  record (45055 # 100) 2 12] ]}.

(** A container of a g-band and a continuum channel; its first record
    gives the unit of the first axis. *)
Definition first_of_two : HDU :=
  mkHDU {[ "WAVELNTH" := HNum (4307 # 10); "TIMEOFFS" := HNum 1;
           "CUNIT1" := HStr "arcsec" ]} (image 10).

Definition two_channels : filesystem :=
  {[ "c.fits" := [first_of_two; record (45055 # 100) 0 11;
                  record (4307 # 10) 0 12] ]}.

(** * Properties *)

(** ** Halves: floor and ceiling *)

Lemma floor_half (d : Z) : Qfloor (half d) = (d / 2)%Z.
Proof.
  unfold half, Qdiv, Qmult, Qinv, inject_Z. simpl.
  rewrite Z.mul_1_r. reflexivity.
Qed.

Lemma ceiling_half (d : Z) : Qceiling (half d) = (- (- d / 2))%Z.
Proof.
  unfold half, Qceiling, Qdiv, Qmult, Qinv, Qopp, inject_Z. simpl.
  rewrite Z.mul_1_r. reflexivity.
Qed.

(** The two halves add up to the whole, and the floor is the smaller. *)
Lemma halves_sum (d : Z) :
  (Qfloor (half d) + Qceiling (half d) = d)%Z
  ∧ (Qfloor (half d) <= Qceiling (half d) <= Qfloor (half d) + 1)%Z.
Proof.
  rewrite floor_half, ceiling_half.
  pose proof (Z.div_mod d 2 ltac:(lia)).
  pose proof (Z.mod_pos_bound d 2 ltac:(lia)).
  pose proof (Z.div_mod (- d) 2 ltac:(lia)).
  pose proof (Z.mod_pos_bound (- d) 2 ltac:(lia)).
  lia.
Qed.

Lemma halves_nonneg (d : Z) :
  (0 <= d)%Z → (0 <= Qfloor (half d))%Z ∧ (0 <= Qceiling (half d))%Z.
Proof.
  intros Hd. pose proof (halves_sum d) as [Hs Hb].
  rewrite floor_half in *.
  pose proof (Z.div_pos d 2 Hd ltac:(lia)). lia.
Qed.

(** A negative difference has a negative floor: [np.pad] refuses it. *)
Lemma floor_half_neg (d : Z) : (d < 0)%Z → (Qfloor (half d) < 0)%Z.
Proof.
  intros Hd. rewrite floor_half.
  pose proof (Z.div_mod d 2 ltac:(lia)).
  pose proof (Z.mod_pos_bound d 2 ltac:(lia)).
  lia.
Qed.

(** ** Padding a plane *)

Lemma pad_row_length lo hi fill (row : list sample) :
  length (pad_row lo hi fill row) = lo + length row + hi.
Proof. unfold pad_row. rewrite !length_app, !length_replicate. lia. Qed.

Lemma pad_row_lookup lo hi fill (row : list sample) j :
  j < lo + length row + hi →
  pad_row lo hi fill row !! j =
    if within lo (length row) j then row !! (j - lo) else Some fill.
Proof.
  intros Hj. unfold pad_row, within.
  destruct (Nat.leb_spec lo j) as [Hlo|Hlo]; simpl.
  - rewrite lookup_app_r by (rewrite length_replicate; lia).
    rewrite length_replicate.
    destruct (Nat.ltb_spec j (lo + length row)) as [Hin|Hout].
    + rewrite lookup_app_l by lia. reflexivity.
    + rewrite lookup_app_r by lia.
      apply lookup_replicate_2. lia.
  - rewrite lookup_app_l by (rewrite length_replicate; lia).
    apply lookup_replicate_2. lia.
Qed.

Lemma pad_plane_wf h w x y fill (rows : plane) :
  plane_wf h w rows →
  plane_wf (x.1 + h + x.2) (y.1 + w + y.2) (pad_plane w x y fill rows).
Proof.
  intros [Hlen Hrows]. unfold pad_plane. split.
  - rewrite !length_app, !length_replicate, length_fmap. lia.
  - rewrite !Forall_app. repeat split.
    + apply Forall_replicate. apply length_replicate.
    + apply Forall_fmap. eapply Forall_impl; [exact Hrows|].
      intros r Hr. simpl in *. rewrite pad_row_length. lia.
    + apply Forall_replicate. apply length_replicate.
Qed.

Lemma pad_plane_get h w x y fill (rows : plane) i j :
  plane_wf h w rows →
  i < x.1 + h + x.2 →
  j < y.1 + w + y.2 →
  plane_get (pad_plane w x y fill rows) i j =
    if within x.1 h i && within y.1 w j
    then plane_get rows (i - x.1) (j - y.1)
    else Some fill.
Proof.
  intros [Hlen Hrows] Hi Hj. unfold plane_get, pad_plane.
  unfold within at 1.
  destruct (Nat.leb_spec x.1 i) as [Hlo|Hlo]; simpl.
  - rewrite lookup_app_r by (rewrite length_replicate; lia).
    rewrite length_replicate.
    destruct (Nat.ltb_spec i (x.1 + h)) as [Hin|Hout]; simpl.
    + rewrite lookup_app_l by (rewrite length_fmap; lia).
      rewrite list_lookup_fmap.
      destruct (lookup_lt_is_Some_2 rows (i - x.1) ltac:(lia)) as [row Hrow].
      rewrite Hrow. simpl.
      assert (length row = w) as Hw.
      { eapply Forall_lookup_1 in Hrows; eauto. }
      rewrite pad_row_lookup by lia. rewrite Hw.
      destruct (within y.1 w j); reflexivity.
    + rewrite lookup_app_r by (rewrite length_fmap; lia).
      rewrite length_fmap.
      rewrite lookup_replicate_2 by lia. simpl.
      apply lookup_replicate_2. lia.
  - rewrite lookup_app_l by (rewrite length_replicate; lia).
    rewrite lookup_replicate_2 by lia. simpl.
    apply lookup_replicate_2. lia.
Qed.

(** ** [PaddingEditor] *)

Lemma np_pad_Array2 h w rows (x y : Z * Z) fill :
  pad_width_ok x = true → pad_width_ok y = true →
  np_pad (Array2 h w rows) [x; y] fill =
    Ok (Array2 (Z.to_nat x.1 + h + Z.to_nat x.2) (Z.to_nat y.1 + w + Z.to_nat y.2)
          (pad_plane w (to_nat2 x) (to_nat2 y) fill rows)).
Proof.
  intros Hx Hy. unfold np_pad. simpl. rewrite Hx, Hy. simpl. reflexivity.
Qed.

Lemma np_pad_Array3 n h w frames (z x y : Z * Z) fill :
  pad_width_ok z = true → pad_width_ok x = true → pad_width_ok y = true →
  np_pad (Array3 n h w frames) [z; x; y] fill =
    let h' := Z.to_nat x.1 + h + Z.to_nat x.2 in
    let w' := Z.to_nat y.1 + w + Z.to_nat y.2 in
    Ok (Array3 (Z.to_nat z.1 + n + Z.to_nat z.2) h' w'
          (replicate (Z.to_nat z.1) (replicate h' (replicate w' fill))
             ++ (pad_plane w (to_nat2 x) (to_nat2 y) fill <$> frames)
             ++ replicate (Z.to_nat z.2) (replicate h' (replicate w' fill)))).
Proof.
  intros Hz Hx Hy. unfold np_pad. simpl. rewrite Hz, Hx, Hy. simpl. reflexivity.
Qed.

Lemma PaddingEditor_pad_2 (p : Z * Z) h w :
  PaddingEditor_pad p [h; w] =
    Ok [(Qfloor (half (p.1 - Z.of_nat h)), Qceiling (half (p.1 - Z.of_nat h)));
        (Qfloor (half (p.2 - Z.of_nat w)), Qceiling (half (p.2 - Z.of_nat w)))].
Proof. reflexivity. Qed.

Lemma PaddingEditor_pad_3 (p : Z * Z) n h w :
  PaddingEditor_pad p [n; h; w] =
    Ok [(0, 0)%Z;
        (Qfloor (half (p.1 - Z.of_nat h)), Qceiling (half (p.1 - Z.of_nat h)));
        (Qfloor (half (p.2 - Z.of_nat w)), Qceiling (half (p.2 - Z.of_nat w)))].
Proof. reflexivity. Qed.

Lemma pad_width_ok_halves d :
  (0 <= d)%Z → pad_width_ok (Qfloor (half d), Qceiling (half d)) = true.
Proof.
  intros Hd. destruct (halves_nonneg d Hd) as [Hf Hc].
  unfold pad_width_ok. simpl.
  apply andb_true_intro. split; apply Z.leb_le; assumption.
Qed.


Lemma shape_split2 (h0 w0 h w : nat) lead :
  [h0; w0] = lead ++ [h; w] → lead = [] ∧ h0 = h ∧ w0 = w.
Proof.
  destruct lead as [|a [|b [|c l]]]; simpl; intros Heq; simplify_eq; auto.
Qed.

Lemma shape_split3 (n h0 w0 h w : nat) lead :
  [n; h0; w0] = lead ++ [h; w] → lead = [n] ∧ h0 = h ∧ w0 = w.
Proof.
  destruct lead as [|a [|b [|c [|d l]]]]; simpl; intros Heq; simplify_eq; auto.
Qed.

(** C2. On an array of rank two or three whose two trailing sizes
    [h], [w] do not exceed the target [(H, W)], [PaddingEditor.call]
    returns [np.pad] of the data with the widths (floor, ceiling) of
    half the difference on the two trailing axes and (0, 0) on a
    leading axis. The result has the leading sizes of the data and the
    trailing sizes [(H, W)]; the cell [(i, j)] of a plane holds the
    original cell [(i - floor, j - floor)] when that lies in the data
    and NaN otherwise. *)
Theorem PaddingEditor_call_pads (H W : Z) (data : ndarray) (kwargs : dict)
    (lead : list nat) (h w : nat) :
  ndarray_wf data →
  shape data = lead ++ [h; w] →
  (Z.of_nat h <= H)%Z →
  (Z.of_nat w <= W)%Z →
  let x_pad := half (H - Z.of_nat h) in
  let y_pad := half (W - Z.of_nat w) in
  let lx := Z.to_nat (Qfloor x_pad) in
  let ly := Z.to_nat (Qfloor y_pad) in
  ∃ out,
    PaddingEditor_call (H, W) data kwargs = Ok (Data out)
    ∧ np_pad data
        (((λ _, (0, 0)%Z) <$> lead)
           ++ [(Qfloor x_pad, Qceiling x_pad); (Qfloor y_pad, Qceiling y_pad)])
        nan = Ok out
    ∧ ndarray_wf out
    ∧ shape out = lead ++ [Z.to_nat H; Z.to_nat W]
    ∧ ∀ ks i j,
        Forall2 lt ks lead → i < Z.to_nat H → j < Z.to_nat W →
        item out (ks ++ [i; j]) =
          if within lx h i && within ly w j
          then item data (ks ++ [i - lx; j - ly])
          else Some nan.
Proof.
  intros Hwf Hshape Hh Hw x_pad y_pad lx ly.
  pose proof (halves_sum (H - Z.of_nat h)) as [Hsx _].
  pose proof (halves_sum (W - Z.of_nat w)) as [Hsy _].
  destruct (halves_nonneg (H - Z.of_nat h) ltac:(lia)) as [Hfx Hcx].
  destruct (halves_nonneg (W - Z.of_nat w) ltac:(lia)) as [Hfy Hcy].
  pose proof (pad_width_ok_halves (H - Z.of_nat h) ltac:(lia)) as Hokx.
  pose proof (pad_width_ok_halves (W - Z.of_nat w) ltac:(lia)) as Hoky.
  fold x_pad in Hsx, Hfx, Hcx, Hokx. fold y_pad in Hsy, Hfy, Hcy, Hoky.
  assert (lx + h + Z.to_nat (Qceiling x_pad) = Z.to_nat H) as HH by lia.
  assert (ly + w + Z.to_nat (Qceiling y_pad) = Z.to_nat W) as HW by lia.
  destruct data as [h0 w0 rows|n h0 w0 frames]; simpl in Hshape.
  - apply shape_split2 in Hshape as (-> & -> & ->). simpl in Hwf.
    eexists. split; [|split; [|split; [|split]]].
    + unfold PaddingEditor_call. simpl shape. rewrite PaddingEditor_pad_2.
      cbn [mbind result_bind fst snd]. fold x_pad y_pad.
      rewrite np_pad_Array2 by assumption. reflexivity.
    + simpl. rewrite np_pad_Array2 by assumption. reflexivity.
    + simpl. apply pad_plane_wf. exact Hwf.
    + cbn [shape app fst snd]. rewrite <- HH, <- HW. reflexivity.
    + intros ks i j Hks Hi Hj. apply Forall2_nil_inv_r in Hks as ->.
      simpl. fold lx ly.
      apply (pad_plane_get h w (lx, _) (ly, _)); simpl; [exact Hwf|lia|lia].
  - apply shape_split3 in Hshape as (-> & -> & ->). simpl in Hwf.
    destruct Hwf as [Hn Hframes].
    eexists. split; [|split; [|split; [|split]]].
    + unfold PaddingEditor_call. simpl shape. rewrite PaddingEditor_pad_3.
      cbn [mbind result_bind fst snd]. fold x_pad y_pad.
      rewrite np_pad_Array3 by (assumption || reflexivity). reflexivity.
    + simpl. rewrite np_pad_Array3 by (assumption || reflexivity). reflexivity.
    + cbn [ndarray_wf fst snd]. change (Z.to_nat 0) with 0.
      cbn [replicate app]. rewrite app_nil_r. split.
      * rewrite length_fmap. lia.
      * apply Forall_fmap.
        eapply Forall_impl; [exact Hframes|].
        intros rows Hrows. apply (pad_plane_wf h w (_, _) (_, _)). exact Hrows.
    + cbn [shape app fst snd]. rewrite <- HH, <- HW.
      f_equal. simpl. lia.
    + intros ks i j Hks Hi Hj.
      apply Forall2_cons_inv_r in Hks as (k & ks' & Hk & Hks & ->).
      apply Forall2_nil_inv_r in Hks as ->.
      cbn [item fst snd]. change (Z.to_nat 0) with 0.
      cbn [replicate app]. rewrite app_nil_r.
      rewrite list_lookup_fmap.
      destruct (lookup_lt_is_Some_2 frames k ltac:(lia)) as [rows Hrows].
      rewrite Hrows. simpl. fold lx ly.
      apply (pad_plane_get h w (lx, _) (ly, _)); simpl; [|lia|lia].
      eapply Forall_lookup_1 in Hframes; eauto.
Qed.

Lemma PaddingEditor_call_pads_witness :
  ∃ out,
    PaddingEditor_call (2, 5)%Z (Array2 1 2 [[1; 2]]%float) ∅ = Ok (Data out)
    ∧ shape out = [2; 5]
    ∧ item out [0; 1] = Some 1%float
    ∧ item out [1; 1] = Some nan.
Proof.
  destruct (PaddingEditor_call_pads 2 5 (Array2 1 2 [[1; 2]]%float) ∅ [] 1 2)
    as (out & Hcall & _ & _ & Hshape & Hitem).
  - split; [reflexivity|]. repeat constructor.
  - reflexivity.
  - lia.
  - lia.
  - exists out. split; [exact Hcall|]. split; [exact Hshape|]. split.
    + apply (Hitem [] 0 1); [constructor|simpl; lia|simpl; lia].
    + apply (Hitem [] 1 1); [constructor|simpl; lia|simpl; lia].
Defined.

(** The same input, evaluated: one NaN column on the left, two on the
    right, one NaN row below. *)
Example PaddingEditor_call_example :
  PaddingEditor_call (2, 5)%Z (Array2 1 2 [[1; 2]]%float) ∅ =
    Ok (Data (Array2 2 5 [[nan; 1; 2; nan; nan];
                           [nan; nan; nan; nan; nan]]%float)).
Proof. reflexivity. Qed.

(** A target smaller than the data on the first trailing axis makes
    [np.pad] raise. *)
Lemma PaddingEditor_call_too_small (H W : Z) (data : ndarray) (kwargs : dict)
    (lead : list nat) (h w : nat) :
  shape data = lead ++ [h; w] →
  (H < Z.of_nat h)%Z →
  PaddingEditor_call (H, W) data kwargs = Raise ValueError.
Proof.
  intros Hshape Hlt.
  pose proof (floor_half_neg (H - Z.of_nat h) ltac:(lia)) as Hneg.
  apply Z.ltb_lt in Hneg.
  assert (pad_width_ok (Qfloor (half (H - Z.of_nat h)),
                        Qceiling (half (H - Z.of_nat h))) = false) as Hbad.
  { unfold pad_width_ok. cbn [fst snd].
    rewrite (Z.leb_antisym _ 0), Hneg. reflexivity. }
  destruct data as [h0 w0 rows|n h0 w0 frames]; simpl in Hshape.
  - apply shape_split2 in Hshape as (-> & -> & ->).
    unfold PaddingEditor_call. simpl shape. rewrite PaddingEditor_pad_2.
    cbn [mbind result_bind fst snd]. unfold np_pad.
    cbn [forallb]. rewrite Hbad. reflexivity.
  - apply shape_split3 in Hshape as (-> & -> & ->).
    unfold PaddingEditor_call. simpl shape. rewrite PaddingEditor_pad_3.
    cbn [mbind result_bind fst snd]. unfold np_pad.
    cbn [forallb]. rewrite Hbad. rewrite andb_false_r. reflexivity.
Qed.

(** ** [UnpaddingEditor] *)

(** The first two entries of [unpad] are [None] or an integer, never a
    tuple: subscripting them raises. *)
Lemma subscript_none_if_zero (z i : Z) :
  subscript (none_if_zero z) i = Raise TypeError.
Proof. unfold none_if_zero. destruct (decide (z = 0%Z)); reflexivity. Qed.

(** C1 (as the code has it). [UnpaddingEditor.call] raises [TypeError]
    on every array and every target shape: [unpad[0]] is [None] or an
    integer and the index expression subscripts it. *)
Theorem UnpaddingEditor_call_raises (target_shape : Z * Z) (data : ndarray)
    (kwargs : dict) :
  UnpaddingEditor_call target_shape data kwargs = Raise TypeError.
Proof.
  unfold UnpaddingEditor_call.
  destruct data as [h w rows|n h w frames]; cbn [shape].
  - change (getitem [h; w] (-2)) with (Ok h).
    change (getitem [h; w] (-1)) with (Ok w).
    cbn [mbind result_bind].
    match goal with
    | |- context [getitem (?a :: ?l) 0] =>
        change (getitem (a :: l) 0) with (Ok a)
    end.
    cbn [mbind result_bind].
    rewrite !subscript_none_if_zero. reflexivity.
  - change (getitem [n; h; w] (-2)) with (Ok h).
    change (getitem [n; h; w] (-1)) with (Ok w).
    cbn [mbind result_bind].
    match goal with
    | |- context [getitem (?a :: ?l) 0] =>
        change (getitem (a :: l) 0) with (Ok a)
    end.
    cbn [mbind result_bind].
    rewrite !subscript_none_if_zero. reflexivity.
Qed.

(** Padding a 1 x 1 frame to 3 x 3 and unpadding it to 1 x 1 does not
    give the frame back: the second step raises. *)
Example Unpad_of_Pad_raises :
  let X := Array3 1 1 1 [[[7%float]]] in
  ∃ padded,
    PaddingEditor_call (3, 3)%Z X ∅ = Ok (Data padded)
    ∧ shape padded = [1; 3; 3]
    ∧ UnpaddingEditor_call (1, 1)%Z padded ∅ = Raise TypeError.
Proof.
  eexists. split; [reflexivity|]. split; [reflexivity|].
  vm_compute. reflexivity.
Qed.

(** ** Elementwise units *)

Lemma plane_get_map f (rows : plane) i j :
  plane_get (plane_map f rows) i j = f <$> plane_get rows i j.
Proof.
  unfold plane_get, plane_map. rewrite list_lookup_fmap.
  destruct (rows !! i) as [row|]; simpl; [|reflexivity].
  apply list_lookup_fmap.
Qed.

Lemma item_ndarray_map f (a : ndarray) idx :
  item (ndarray_map f a) idx = f <$> item a idx.
Proof.
  destruct a as [h w rows|n h w frames]; simpl.
  - destruct idx as [|i [|j [|? ?]]]; try reflexivity.
    apply plane_get_map.
  - destruct idx as [|k [|i [|j [|? ?]]]]; try reflexivity.
    rewrite list_lookup_fmap.
    destruct (frames !! k) as [rows|]; simpl; [|reflexivity].
    apply plane_get_map.
Qed.

Lemma shape_ndarray_map f (a : ndarray) : shape (ndarray_map f a) = shape a.
Proof. destruct a; reflexivity. Qed.

Lemma plane_map_wf f h w (rows : plane) :
  plane_wf h w rows → plane_wf h w (plane_map f rows).
Proof.
  intros [Hlen Hrows]. unfold plane_map. split.
  - rewrite length_fmap. exact Hlen.
  - apply Forall_fmap. eapply Forall_impl; [exact Hrows|].
    intros row Hrow. simpl in *. rewrite length_fmap. exact Hrow.
Qed.

Lemma ndarray_map_wf f (a : ndarray) : ndarray_wf a → ndarray_wf (ndarray_map f a).
Proof.
  destruct a as [h w rows|n h w frames]; simpl.
  - apply plane_map_wf.
  - intros [Hn Hframes]. split.
    + rewrite length_fmap. exact Hn.
    + apply Forall_fmap. eapply Forall_impl; [exact Hframes|].
      intros rows Hrows. apply plane_map_wf. exact Hrows.
Qed.

Lemma concat_plane_map f (rows : plane) :
  concat (plane_map f rows) = f <$> concat rows.
Proof.
  unfold plane_map. induction rows as [|row rows IH]; csimpl; [reflexivity|].
  rewrite fmap_app, IH. reflexivity.
Qed.

Lemma flat_ndarray_map f (a : ndarray) : flat (ndarray_map f a) = f <$> flat a.
Proof.
  destruct a as [h w rows|n h w frames]; simpl.
  - apply concat_plane_map.
  - induction frames as [|rows frames IH]; csimpl; [reflexivity|].
    rewrite !concat_app, fmap_app, IH, concat_plane_map. reflexivity.
Qed.

Lemma elem_of_concat {A} (x : A) (ls : list (list A)) :
  x ∈ concat ls ↔ ∃ l, x ∈ l ∧ l ∈ ls.
Proof.
  rewrite list_elem_of_In, in_concat. split.
  - intros (l & Hl & Hx). exists l. rewrite !list_elem_of_In. auto.
  - intros (l & Hx & Hl). exists l. rewrite <- !list_elem_of_In. auto.
Qed.

Lemma plane_get_elem_of (rows : plane) i j x :
  plane_get rows i j = Some x → x ∈ concat rows.
Proof.
  unfold plane_get. intros Hget.
  destruct (rows !! i) as [row|] eqn:Hrow; simpl in Hget; [|discriminate].
  apply elem_of_concat. exists row. split.
  - eapply list_elem_of_lookup_2. exact Hget.
  - eapply list_elem_of_lookup_2. exact Hrow.
Qed.

(** Every indexed cell is one of the flat contents. *)
Lemma item_elem_of_flat (a : ndarray) idx x : item a idx = Some x → x ∈ flat a.
Proof.
  destruct a as [h w rows|n h w frames]; simpl.
  - destruct idx as [|i [|j [|? ?]]]; try discriminate.
    apply plane_get_elem_of.
  - destruct idx as [|k [|i [|j [|? ?]]]]; try discriminate.
    intros Hget.
    destruct (frames !! k) as [rows|] eqn:Hrows; simpl in Hget; [|discriminate].
    apply plane_get_elem_of in Hget.
    apply elem_of_concat in Hget as (row & Hx & Hrow).
    apply elem_of_concat. exists row. split; [exact Hx|].
    apply elem_of_concat. exists rows. split; [exact Hrow|].
    eapply list_elem_of_lookup_2. exact Hrows.
Qed.

(** *** Rounding in binary64 *)

(** The product and the difference of [NormalizeEditor.call] are
    rounded to nearest, ties to even. The lemmas below follow the
    rounding of the standard library's [SpecFloat] far enough to bound
    the rounded value of [x * 2 - 1] for [x] in the unit interval. *)

Section binary64.
Local Open Scope Z_scope.

(** A positive number lies between the powers of two that its number
    of digits gives. *)
Lemma digits2_pos_bounds (m : positive) :
  2 ^ (Zpos (digits2_pos m) - 1) <= Zpos m < 2 ^ Zpos (digits2_pos m).
Proof.
  induction m as [m IH|m IH|]; cbn [digits2_pos].
  - rewrite Pos2Z.inj_succ, (Pos2Z.inj_xI m).
    replace (Z.succ (Zpos (digits2_pos m)) - 1) with (Z.succ (Zpos (digits2_pos m) - 1)) by lia.
    rewrite !Z.pow_succ_r by lia.
    generalize dependent (2 ^ (Zpos (digits2_pos m) - 1)).
    generalize dependent (2 ^ Zpos (digits2_pos m)). intros; lia.
  - rewrite Pos2Z.inj_succ, (Pos2Z.inj_xO m).
    replace (Z.succ (Zpos (digits2_pos m)) - 1) with (Z.succ (Zpos (digits2_pos m) - 1)) by lia.
    rewrite !Z.pow_succ_r by lia.
    generalize dependent (2 ^ (Zpos (digits2_pos m) - 1)).
    generalize dependent (2 ^ Zpos (digits2_pos m)). intros; lia.
  - simpl. lia.
Qed.

(** One step of the right shift halves the mantissa. *)
Lemma shr_1_m (mrs : shr_record) :
  0 <= shr_m mrs → shr_m (shr_1 mrs) = shr_m mrs / 2.
Proof.
  destruct mrs as [m r s]. cbn [shr_m]. intros Hm.
  destruct m as [|[p|p|]|p]; cbn [shr_1 shr_m]; try lia.
  - reflexivity.
  - rewrite (Pos2Z.inj_xI p). apply Z.div_unique with 1; lia.
  - rewrite (Pos2Z.inj_xO p). apply Z.div_unique with 0; lia.
  - reflexivity.
Qed.

Lemma shr_1_nonneg (mrs : shr_record) : 0 <= shr_m mrs → 0 <= shr_m (shr_1 mrs).
Proof.
  intros Hm. rewrite shr_1_m by exact Hm. apply Z.div_pos; lia.
Qed.

(** Powers of two at the two shapes of a binary positive. *)
Lemma pow2_xI (p : positive) : 2 ^ Zpos p~1 = 2 * (2 ^ Zpos p * 2 ^ Zpos p).
Proof.
  rewrite (Pos2Z.inj_xI p).
  replace (2 * Zpos p + 1) with (1 + (Zpos p + Zpos p)) by lia.
  rewrite !Z.pow_add_r by lia. reflexivity.
Qed.

Lemma pow2_xO (p : positive) : 2 ^ Zpos p~0 = 2 ^ Zpos p * 2 ^ Zpos p.
Proof.
  rewrite (Pos2Z.inj_xO p).
  replace (2 * Zpos p) with (Zpos p + Zpos p) by lia.
  rewrite !Z.pow_add_r by lia. reflexivity.
Qed.

Lemma pow2_pos (e : Z) : 0 <= e → 0 < 2 ^ e.
Proof. intros He. apply Z.pow_pos_nonneg; lia. Qed.

(** Shifting a mantissa right by [p] bits divides it by [2 ^ p]. *)
Lemma iter_shr_1_m (p : positive) :
  ∀ mrs, 0 <= shr_m mrs →
         shr_m (SpecFloat.iter_pos shr_1 p mrs) = shr_m mrs / 2 ^ Zpos p.
Proof.
  induction p as [p IH|p IH|]; intros mrs Hm; cbn [SpecFloat.iter_pos].
  - assert (0 <= shr_m (shr_1 mrs)) as H1 by (apply shr_1_nonneg; exact Hm).
    assert (0 <= shr_m (SpecFloat.iter_pos shr_1 p (shr_1 mrs))) as H2.
    { rewrite IH by exact H1. apply Z.div_pos; [lia|apply pow2_pos; lia]. }
    pose proof (pow2_pos (Zpos p) ltac:(lia)) as Hp.
    rewrite IH by exact H2. rewrite IH by exact H1. rewrite shr_1_m by exact Hm.
    rewrite pow2_xI, !Z.div_div by lia. reflexivity.
  - assert (0 <= shr_m (SpecFloat.iter_pos shr_1 p mrs)) as H1.
    { rewrite IH by exact Hm. apply Z.div_pos; [lia|apply pow2_pos; lia]. }
    pose proof (pow2_pos (Zpos p) ltac:(lia)) as Hp.
    rewrite IH by exact H1. rewrite IH by exact Hm.
    rewrite pow2_xO, Z.div_div by lia. reflexivity.
  - rewrite shr_1_m by exact Hm. reflexivity.
Qed.

(** Shifting a mantissa left by [d] bits multiplies it by [2 ^ d]. *)
Lemma iter_xO (d : positive) (m : positive) :
  Zpos (Pos.iter xO m d) = Zpos m * 2 ^ Zpos d.
Proof.
  induction d as [|d IH] using Pos.peano_ind.
  - simpl. rewrite (Pos2Z.inj_xO m). lia.
  - rewrite Pos.iter_succ, (Pos2Z.inj_xO (Pos.iter xO m d)), IH, Pos2Z.inj_succ.
    rewrite Z.pow_succ_r by lia. lia.
Qed.

(** The exponent binary64 gives a number of [z] digits. *)
Lemma fexp_unfold (z : Z) : fexp prec emax z = Z.max (z - 53) (-1074).
Proof. reflexivity. Qed.

(** Rounding to nearest moves a mantissa up by at most one. *)
Lemma round_nearest_even_bounds (m : Z) (l : location) :
  m <= round_nearest_even m l <= m + 1.
Proof.
  destruct l as [|[| |]]; cbn [round_nearest_even]; try lia.
  destruct (Z.even m); lia.
Qed.

Lemma shr_m_of_loc (m : Z) (l : location) : shr_m (shr_record_of_loc m l) = m.
Proof. destruct l as [|[| |]]; reflexivity. Qed.

(** The digits of a mantissa below [2 ^ k]. *)
Lemma Zdigits2_le (m k : Z) : 0 <= m → 0 <= k → m < 2 ^ k → Zdigits2 m <= k.
Proof.
  intros Hm Hk Hlt. destruct m as [|p|p]; cbn [Zdigits2]; [lia| |lia].
  destruct (digits2_pos_bounds p) as [Hlo _].
  destruct (Z.le_gt_cases (Zpos (digits2_pos p)) k) as [Hle|Hgt]; [exact Hle|].
  exfalso. assert (2 ^ k <= 2 ^ (Zpos (digits2_pos p) - 1)) as Hpow.
  { apply Z.pow_le_mono_r; lia. }
  lia.
Qed.

(** [shr_fexp] keeps a mantissa that is below [2 ^ (K - e) + slack]
    below that bound at the new exponent, which stays at most [K]. *)
Lemma shr_fexp_below (K slack : Z) (m e : Z) (l : location) :
  -1074 <= K → 0 <= slack <= 1 →
  0 <= m → e <= K → m < 2 ^ (K - e) + slack →
  let r := shr_fexp prec emax m e l in
  0 <= shr_m r.1 ∧ r.2 <= K ∧ shr_m r.1 < 2 ^ (K - r.2) + slack.
Proof.
  intros HK Hslack Hm He Hlt. unfold shr_fexp, shr. rewrite fexp_unfold.
  destruct (Z.max (Zdigits2 m + e - 53) (-1074) - e) as [|p|p] eqn:Hn;
    cbn [fst snd]; rewrite ?shr_m_of_loc; try (split; [lia|split; [lia|lia]]).
  assert (Zdigits2 m <= K - e + 1) as Hd.
  { apply Zdigits2_le; [lia|lia|].
    rewrite Z.pow_add_r by lia. change (2 ^ 1) with 2.
    pose proof (pow2_pos (K - e) ltac:(lia)). lia. }
  assert (e + Zpos p <= K) as He' by lia.
  pose proof (pow2_pos (Zpos p) ltac:(lia)) as Hp.
  pose proof (pow2_pos (K - (e + Zpos p)) ltac:(lia)) as Hq.
  assert (2 ^ (K - e) = 2 ^ Zpos p * 2 ^ (K - (e + Zpos p))) as Hsplit.
  { rewrite <- Z.pow_add_r by lia. f_equal. lia. }
  rewrite iter_shr_1_m by (rewrite shr_m_of_loc; exact Hm).
  rewrite shr_m_of_loc.
  split; [apply Z.div_pos; lia|]. split; [exact He'|].
  destruct (Z.eq_dec slack 0) as [->|Hs].
  - rewrite Z.add_0_r in *. apply Z.div_lt_upper_bound; [lia|]. lia.
  - assert (m / 2 ^ Zpos p <= 2 ^ (K - (e + Zpos p))); [|lia].
    apply Z.div_le_upper_bound; [lia|]. lia.
Qed.

(** Rounding a value below [2 ^ K] gives at most [2 ^ K]. *)
Lemma binary_round_aux_at_most (K : Z) (sx : bool) (mx ex : Z) (lx : location) :
  -1074 <= K <= 971 →
  0 <= mx → ex <= K → mx < 2 ^ (K - ex) →
  SF_at_most K sx (binary_round_aux prec emax sx mx ex lx).
Proof.
  intros HK Hm He Hlt. unfold binary_round_aux.
  pose proof (shr_fexp_below K 0 mx ex lx ltac:(lia) ltac:(lia) Hm He
                ltac:(lia)) as H1.
  destruct (shr_fexp prec emax mx ex lx) as [mrs' e'].
  cbn [fst snd] in H1. destruct H1 as (Hm1 & He1 & Hlt1).
  pose proof (round_nearest_even_bounds (shr_m mrs') (loc_of_shr_record mrs'))
    as Hround.
  pose proof (shr_fexp_below K 1
                (round_nearest_even (shr_m mrs') (loc_of_shr_record mrs'))
                e' loc_Exact ltac:(lia) ltac:(lia) ltac:(lia) He1
                ltac:(lia)) as H2.
  destruct (shr_fexp prec emax _ e' loc_Exact) as [mrs'' e''].
  cbn [fst snd] in H2. destruct H2 as (Hm2 & He2 & Hlt2).
  destruct (shr_m mrs'') as [|m|m]; cbn [SF_at_most]; [reflexivity| |lia].
  replace (e'' <=? emax - prec) with true
    by (symmetry; apply Z.leb_le; change (emax - prec) with 971; lia).
  cbn [SF_at_most]. split; [reflexivity|]. split; lia.
Qed.

(** The same for [binary_round], which first shifts the mantissa left. *)
Lemma binary_round_at_most (K : Z) (sx : bool) (mx : positive) (ex : Z) :
  -1074 <= K <= 971 →
  ex <= K → Zpos mx < 2 ^ (K - ex) →
  SF_at_most K sx (binary_round prec emax sx mx ex).
Proof.
  intros HK He Hlt. unfold binary_round, shl_align.
  destruct (fexp prec emax (Zpos (digits2_pos mx) + ex) - ex) as [|d|d] eqn:Hd.
  - apply binary_round_aux_at_most; [exact HK|lia|exact He|exact Hlt].
  - apply binary_round_aux_at_most; [exact HK|lia|exact He|exact Hlt].
  - apply binary_round_aux_at_most; [exact HK|lia|lia|].
    rewrite iter_xO.
    pose proof (pow2_pos (Zpos d) ltac:(lia)) as Hp.
    replace (K - fexp prec emax (Zpos (digits2_pos mx) + ex))
      with ((K - ex) + Zpos d) by lia.
    rewrite Z.pow_add_r by lia. nia.
Qed.

(** What [valid_binary] says of a finite float. *)
Lemma valid_finite (s : bool) (m : positive) (e : Z) :
  valid_binary (S754_finite s m e) = true →
  Z.max (Zpos (digits2_pos m) + e - 53) (-1074) = e ∧ e <= 971.
Proof.
  cbn [SpecFloat.valid_binary]. unfold bounded, canonical_mantissa.
  rewrite fexp_unfold. intros [Hc He]%andb_prop.
  apply Z.eqb_eq in Hc. apply Z.leb_le in He.
  change (emax - prec) with 971 in He. auto.
Qed.

Lemma pow2_52 : 2 ^ 52 = 4503599627370496.
Proof. vm_compute. reflexivity. Qed.

Lemma pow2_51 : 2 ^ 51 = 2251799813685248.
Proof. vm_compute. reflexivity. Qed.

(** A valid mantissa at an exponent above the least one has 53 digits,
    so it is at least [2 ^ 52]. *)
Lemma valid_normal (s : bool) (m : positive) (e : Z) :
  valid_binary (S754_finite s m e) = true →
  -1074 < e →
  Zpos (digits2_pos m) = 53 ∧ 4503599627370496 <= Zpos m.
Proof.
  intros [Hcanon _]%valid_finite He.
  destruct (digits2_pos_bounds m) as [Hlo _].
  assert (Zpos (digits2_pos m) = 53) as Hd by lia.
  split; [exact Hd|]. rewrite Hd in Hlo.
  replace (53 - 1) with 52 in Hlo by lia. rewrite pow2_52 in Hlo. exact Hlo.
Qed.

(** A valid float of magnitude at most 1 has an exponent below -52, or
    is 1 or -1. *)
Lemma at_most_one_cases (s : bool) (m : positive) (e : Z) :
  valid_binary (S754_finite s m e) = true →
  e <= 0 → Zpos m <= 2 ^ (0 - e) →
  e < -52 ∨ (e = -52 ∧ m = 4503599627370496%positive).
Proof.
  intros Hvalid He Hm.
  destruct (Z.lt_ge_cases e (-52)) as [Hlt|Hge]; [left; exact Hlt|right].
  destruct (valid_normal s m e Hvalid ltac:(lia)) as [_ Hlo].
  destruct (Z.eq_dec e (-52)) as [->|Hne].
  - split; [reflexivity|]. replace (0 - -52) with 52 in Hm by lia.
    rewrite pow2_52 in Hm. apply Pos2Z.inj. lia.
  - exfalso.
    assert (2 ^ (0 - e) <= 2 ^ 51) as Hpow by (apply Z.pow_le_mono_r; lia).
    rewrite pow2_51 in Hpow. lia.
Qed.

(** A valid float of magnitude at most 1 compares as such. *)
Lemma SF_at_most_one (sx : bool) (f : spec_float) :
  valid_binary f = true →
  SF_at_most 0 sx f →
  SFleb (SFopp SF_one) f = true ∧ SFleb f SF_one = true.
Proof.
  destruct f as [s|s| |s m e]; cbn [SF_at_most]; try contradiction.
  - intros _ _. destruct s; split; reflexivity.
  - intros Hvalid (_ & He & Hm).
    destruct (at_most_one_cases s m e Hvalid He Hm) as [Hlt|[-> ->]].
    + unfold SFleb, SF_one. cbn [SFopp SFcompare negb]. destruct s.
      * split; [|reflexivity].
        apply Z.compare_gt_iff in Hlt. rewrite Hlt. reflexivity.
      * split; [reflexivity|].
        apply Z.compare_lt_iff in Hlt. rewrite Hlt. reflexivity.
    + destruct s; split; vm_compute; reflexivity.
Qed.

(** The mantissa aligned to a smaller exponent. *)
Lemma shl_align_fst (mx : positive) (ex ez : Z) :
  ez <= ex → Zpos (shl_align mx ex ez).1 = Zpos mx * 2 ^ (ex - ez).
Proof.
  intros Hle. unfold shl_align.
  destruct (ez - ex) as [|d|d] eqn:Hd; cbn [fst].
  - replace (ex - ez) with 0 by lia. simpl. lia.
  - lia.
  - rewrite iter_xO. replace (ex - ez) with (Zpos d) by lia. reflexivity.
Qed.

(** A valid float of magnitude at most 2 is below 2 or is 2. *)
Lemma at_most_two_cases (s : bool) (m : positive) (e : Z) :
  valid_binary (S754_finite s m e) = true →
  e <= 1 → Zpos m <= 2 ^ (1 - e) →
  Zpos m < 2 ^ (1 - e) ∨ (e = -51 ∧ m = 4503599627370496%positive).
Proof.
  intros Hvalid He Hm.
  destruct (Z.eq_dec (Zpos m) (2 ^ (1 - e))) as [Heq|Hne]; [right|left; lia].
  destruct (valid_finite s m e Hvalid) as [Hcanon _].
  destruct (digits2_pos_bounds m) as [Hlo Hhi]. rewrite Heq in Hlo, Hhi.
  apply Z.pow_le_mono_r_iff in Hlo; [|lia|lia].
  apply Z.pow_lt_mono_r_iff in Hhi; [|lia|lia].
  assert (e = -51) as -> by lia. split; [reflexivity|].
  replace (1 - -51) with 52 in Heq by lia. rewrite pow2_52 in Heq.
  apply Pos2Z.inj. exact Heq.
Qed.

(** The floats of the unit interval: a zero, 1, or a positive float
    below 1. *)
Lemma unit_interval_cases (f : spec_float) :
  valid_binary f = true →
  SFleb (S754_zero false) f = true →
  SFleb f SF_one = true →
  (∃ s, f = S754_zero s)
  ∨ f = SF_one
  ∨ ∃ m e, f = S754_finite false m e ∧ e <= -52 ∧ Zpos m < 2 ^ (0 - e).
Proof.
  intros Hvalid H0 H1. destruct f as [s|s| |s m e].
  - left. exists s. reflexivity.
  - destruct s; discriminate.
  - discriminate.
  - destruct s; [discriminate|]. right.
    unfold SFleb, SF_one in H1. cbn [SFcompare] in H1.
    destruct (valid_finite _ _ _ Hvalid) as [Hcanon _].
    destruct (digits2_pos_bounds m) as [_ Hhi].
    destruct (Z.compare_spec e (-52)) as [->|Hlt|Hgt]; [| |discriminate].
    + change (Pos.compare_cont Eq) with Pos.compare in H1.
      destruct (Pos.compare_spec m 4503599627370496%positive) as [->|Hm|Hm];
        [left; reflexivity| |discriminate].
      apply Pos2Z.pos_lt_pos in Hm.
      right. exists m, (-52). split; [reflexivity|]. split; [reflexivity|].
      change (0 - -52) with 52. rewrite pow2_52. exact Hm.
    + right. exists m, e. split; [reflexivity|]. split; [lia|].
      assert (2 ^ Zpos (digits2_pos m) <= 2 ^ (0 - e)) as Hpow
        by (apply Z.pow_le_mono_r; lia).
      lia.
Qed.

(** On spec floats: [fx * 2 - 1] for [fx] in the unit interval. *)
Lemma SF_rescale_range (fx fy fz : spec_float) :
  valid_binary fx = true → valid_binary fy = true → valid_binary fz = true →
  fy = SF64mul fx SF_two →
  fz = SF64sub fy SF_one →
  SFleb (S754_zero false) fx = true →
  SFleb fx SF_one = true →
  SFleb (SFopp SF_one) fz = true ∧ SFleb fz SF_one = true.
Proof.
  intros Hvx Hvy Hvz Hy Hz H0 H1.
  destruct (unit_interval_cases fx Hvx H0 H1)
    as [[s ->]|[->|(m & e & -> & He & Hm)]].
  - subst fy fz. destruct s; split; vm_compute; reflexivity.
  - subst fy fz. split; vm_compute; reflexivity.
  - assert (SF_at_most 1 false fy) as Hy1.
    { subst fy. unfold SF64mul, SF_two. cbn [SFmul xorb].
      apply binary_round_aux_at_most; [lia|lia|lia|].
      rewrite Pos2Z.inj_mul.
      replace (1 - (e + -51)) with (52 + (0 - e)) by lia.
      rewrite Z.pow_add_r, pow2_52 by lia. lia. }
    destruct fy as [s|s| |s my ey]; cbn [SF_at_most] in Hy1; try contradiction.
    { subst s fz. split; vm_compute; reflexivity. }
    destruct Hy1 as (-> & Hey & Hmy).
    destruct (at_most_two_cases _ _ _ Hvy Hey Hmy) as [Hlt|[-> ->]].
    2:{ subst fz. split; vm_compute; reflexivity. }
    apply (SF_at_most_one (match fz with
                           | S754_zero s | S754_finite s _ _ => s
                           | _ => false
                           end)); [exact Hvz|].
    subst fz. unfold SF64sub, SF_one. cbn [SFsub cond_Zopp].
    set (ez := Z.min ey (-52)).
    rewrite !shl_align_fst by lia.
    pose proof (pow2_pos (ey - ez) ltac:(lia)) as Hp1.
    pose proof (pow2_pos (0 - ez) ltac:(lia)) as Hp2.
    assert (4503599627370496 * 2 ^ (-52 - ez) = 2 ^ (0 - ez)) as HB.
    { rewrite <- pow2_52, <- Z.pow_add_r by lia. f_equal. lia. }
    assert (Zpos my * 2 ^ (ey - ez) < 2 * 2 ^ (0 - ez)) as HA.
    { replace (2 * 2 ^ (0 - ez)) with (2 ^ (1 - ey) * 2 ^ (ey - ez)).
      - apply Z.mul_lt_mono_pos_r; lia.
      - rewrite <- Z.pow_add_r by lia. replace (1 - ey + (ey - ez)) with (1 + (0 - ez)) by lia.
        rewrite Z.pow_add_r by lia. reflexivity. }
    rewrite HB.
    assert (0 < Zpos my * 2 ^ (ey - ez)) as HA0 by lia.
    destruct (Zpos my * 2 ^ (ey - ez) - 2 ^ (0 - ez)) as [|p|p] eqn:HD;
      cbn [binary_normalize].
    + reflexivity.
    + pose proof (binary_round_at_most 0 false p ez ltac:(lia) ltac:(lia)
                    ltac:(lia)) as Hr.
      destruct (binary_round prec emax false p ez); cbn [SF_at_most] in *;
        try contradiction; intuition.
    + pose proof (binary_round_at_most 0 true p ez ltac:(lia) ltac:(lia)
                    ltac:(lia)) as Hr.
      destruct (binary_round prec emax true p ez); cbn [SF_at_most] in *;
        try contradiction; intuition.
Qed.

(** The constants of the rescaling as spec floats. *)
Lemma Prim2SF_one : Prim2SF 1 = SF_one.
Proof. vm_compute. reflexivity. Qed.

Lemma Prim2SF_two : Prim2SF 2 = SF_two.
Proof. vm_compute. reflexivity. Qed.

Lemma Prim2SF_minus_one : Prim2SF (-1) = SFopp SF_one.
Proof. vm_compute. reflexivity. Qed.

Lemma Prim2SF_zero : Prim2SF 0 = S754_zero false.
Proof. vm_compute. reflexivity. Qed.

(** [x * 2 - 1] in binary64 for [x] in the unit interval. *)
Lemma rescale_range (x : float) :
  (0 <=? x)%float = true → (x <=? 1)%float = true →
  (-1 <=? x * 2 - 1)%float = true ∧ (x * 2 - 1 <=? 1)%float = true.
Proof.
  rewrite !FloatAxioms.leb_spec, Prim2SF_zero, Prim2SF_one, Prim2SF_minus_one.
  intros H0 H1.
  apply (SF_rescale_range (Prim2SF x) (Prim2SF (x * 2)) (Prim2SF (x * 2 - 1)));
    try apply Prim2SF_valid; try assumption.
  - rewrite mul_spec, Prim2SF_two. reflexivity.
  - rewrite sub_spec, Prim2SF_one. reflexivity.
Qed.

(** Equality with a zero or with 1, on spec floats. *)
Lemma SFeqb_zero (f : spec_float) :
  SFeqb f (S754_zero false) = true → ∃ s, f = S754_zero s.
Proof.
  destruct f as [s|s| |s m e]; try discriminate.
  - eauto.
  - destruct s; discriminate.
  - destruct s; discriminate.
Qed.

Lemma SFeqb_one (f : spec_float) : SFeqb f SF_one = true → f = SF_one.
Proof.
  intros H. destruct f as [s|s| |s m e].
  - destruct s; discriminate H.
  - destruct s; discriminate H.
  - discriminate H.
  - destruct s; [discriminate H|].
    unfold SFeqb, SF_one in H. cbn [SFcompare] in H.
    destruct (Z.compare_spec e (-52)) as [He|Hlt|Hgt];
      [|discriminate H|discriminate H].
    subst e.
    change (Pos.compare_cont Eq) with Pos.compare in H.
    destruct (Pos.compare_spec m 4503599627370496%positive) as [Hm|Hm|Hm];
      [|discriminate H|discriminate H].
    rewrite Hm. reflexivity.
Qed.

(** The two ends of the unit interval are mapped exactly. *)
Lemma rescale_zero (x : float) :
  (x =? 0)%float = true → (x * 2 - 1)%float = (-1)%float.
Proof.
  rewrite FloatAxioms.eqb_spec, Prim2SF_zero. intros [s Hx]%SFeqb_zero.
  apply Prim2SF_inj. rewrite sub_spec, mul_spec, Hx.
  destruct s; vm_compute; reflexivity.
Qed.

Lemma rescale_one (x : float) :
  (x =? 1)%float = true → (x * 2 - 1)%float = 1%float.
Proof.
  rewrite FloatAxioms.eqb_spec, Prim2SF_one. intros Hx%SFeqb_one.
  apply Prim2SF_inj. rewrite sub_spec, mul_spec, Hx. vm_compute. reflexivity.
Qed.

(** A finite float is neither infinity. *)
Lemma is_finite_not_infinity (x : float) :
  is_finite x = true →
  is_nan x = false ∧ (x =? infinity)%float = false
  ∧ (x =? neg_infinity)%float = false.
Proof.
  unfold is_finite, is_infinity. intros Hfin.
  apply negb_true_iff, orb_false_iff in Hfin as [Hnan Hinf].
  split; [exact Hnan|].
  rewrite FloatAxioms.eqb_spec, abs_spec in Hinf.
  rewrite !FloatAxioms.eqb_spec.
  change (Prim2SF infinity) with (S754_infinity false) in *.
  change (Prim2SF neg_infinity) with (S754_infinity true).
  destruct (Prim2SF x) as [s|s| |s m e]; try destruct s; try discriminate Hinf;
    split; reflexivity.
Qed.

End binary64.

(** *** [NormalizeEditor] *)

(** C9. When every value of the normalised array lies in [0, 1],
    [NormalizeEditor.call] returns an array of the same shape whose
    values all lie in [-1, 1]; a cell where the normalised value is
    [s] holds the binary64 value of [s * 2 - 1], which is -1 where [s]
    is 0 and 1 where [s] is 1. *)
Theorem NormalizeEditor_call_range (norm : ndarray → ndarray) (data : ndarray)
    (kwargs : dict) :
  ndarray_Forall (sample_between 0 1) (norm data) →
  ∃ out,
    NormalizeEditor_call norm data kwargs = Ok (Data out)
    ∧ shape out = shape (norm data)
    ∧ ndarray_Forall (sample_between (-1) 1) out
    ∧ ∀ idx s,
        item (norm data) idx = Some s →
        item out idx = Some (s * 2 - 1)%float
        ∧ ((s =? 0)%float = true → item out idx = Some (-1)%float)
        ∧ ((s =? 1)%float = true → item out idx = Some 1%float).
Proof.
  intros Hrange. eexists. split; [reflexivity|]. split; [|split].
  - apply shape_ndarray_map.
  - unfold ndarray_Forall in *. rewrite flat_ndarray_map.
    apply Forall_fmap. eapply Forall_impl; [exact Hrange|].
    intros x [H0 H1]. apply rescale_range; assumption.
  - intros idx s Hitem.
    assert (item (ndarray_map (λ x, x * 2 - 1)%float (norm data)) idx
            = Some (s * 2 - 1)%float) as Hout.
    { rewrite item_ndarray_map, Hitem. reflexivity. }
    split; [exact Hout|]. split; intros Hs; rewrite Hout; f_equal.
    + apply rescale_zero. exact Hs.
    + apply rescale_one. exact Hs.
Qed.

Lemma NormalizeEditor_call_range_witness :
  ∃ out,
    NormalizeEditor_call id (Array2 1 3 [[0; 0.5; 1]]%float) ∅ = Ok (Data out)
    ∧ ndarray_Forall (sample_between (-1) 1) out
    ∧ item out [0; 0] = Some (-1)%float
    ∧ item out [0; 2] = Some 1%float.
Proof.
  destruct (NormalizeEditor_call_range id (Array2 1 3 [[0; 0.5; 1]]%float) ∅)
    as (out & Hcall & _ & Hrange & Hitem).
  - unfold ndarray_Forall. simpl.
    repeat (apply List.Forall_cons; [split; reflexivity|]). apply List.Forall_nil.
  - exists out. split; [exact Hcall|]. split; [exact Hrange|]. split.
    + apply (Hitem [0; 0] 0%float); reflexivity.
    + apply (Hitem [0; 2] 1%float); reflexivity.
Defined.

Example NormalizeEditor_call_example :
  NormalizeEditor_call id (Array2 1 3 [[0; 0.5; 1]]%float) ∅ =
    Ok (Data (Array2 1 3 [[-1; 0; 1]]%float)).
Proof. reflexivity. Qed.

(** *** [NanEditor] *)

(** C10 (amended). [NanEditor.call] never raises and returns the data
    alone, so it writes no metadata; the result has the shape of the
    input; a NaN cell holds the replacement value, a finite cell is
    unchanged, and an infinite cell holds the largest or the smallest
    finite float. *)
Theorem NanEditor_call_replaces (nan : sample) (data : ndarray) (kwargs : dict) :
  ∃ out,
    NanEditor_call nan data kwargs = Ok (Data out)
    ∧ shape out = shape data
    ∧ (ndarray_wf data → ndarray_wf out)
    ∧ ∀ idx,
        match item data idx with
        | None => item out idx = None
        | Some x =>
            (is_nan x = true → item out idx = Some nan)
            ∧ (is_finite x = true → item out idx = Some x)
            ∧ (x = infinity → item out idx = Some float_max)
            ∧ (x = neg_infinity → item out idx = Some (- float_max)%float)
        end.
Proof.
  eexists. split; [reflexivity|]. split; [|split].
  - apply shape_ndarray_map.
  - apply ndarray_map_wf.
  - intros idx. unfold np_nan_to_num. rewrite item_ndarray_map.
    destruct (item data idx) as [x|]; [|reflexivity].
    cbn [fmap option_fmap option_map]. unfold nan_to_num1.
    split; [|split; [|split]].
    + intros ->. reflexivity.
    + intros (-> & -> & ->)%is_finite_not_infinity. reflexivity.
    + intros ->. reflexivity.
    + intros ->. reflexivity.
Qed.

(** With the default replacement a NaN becomes the sample 0. *)
Example NanEditor_call_example :
  NanEditor_call NanEditor_default_nan
    (Array2 2 2 [[PrimFloat.nan; 1.5]; [0; PrimFloat.nan]]%float) ∅ =
    Ok (Data (Array2 2 2 [[0; 1.5]; [0; 0]]%float)).
Proof. reflexivity. Qed.

(** C10 as stated fails: a positive infinity is not NaN, and it is not
    left unchanged. *)
Lemma NanEditor_call_changes_infinity :
  ¬ (∀ (data out : ndarray) (idx : list nat) (x : sample),
       NanEditor_call NanEditor_default_nan data ∅ = Ok (Data out) →
       item data idx = Some x →
       is_nan x = false →
       item out idx = Some x).
Proof.
  intros Hclaim.
  specialize (Hclaim (Array2 1 1 [[infinity]]) _ [0; 0] infinity
                eq_refl eq_refl eq_refl).
  apply (f_equal (λ o, match o with
                        | Some x => (x =? infinity)%float
                        | None => false
                        end)) in Hclaim.
  vm_compute in Hclaim. discriminate Hclaim.
Qed.

(** ** Python sequences *)

Lemma getitem_nat {A} (l : list A) (i : nat) :
  getitem l (Z.of_nat i) =
    match l !! i with Some x => Ok x | None => Raise IndexError end.
Proof.
  unfold getitem. cbv zeta.
  assert ((Z.of_nat i <? 0)%Z = false) as Hnonneg by (apply Z.ltb_ge; lia).
  rewrite Hnonneg, Hnonneg, Nat2Z.id. reflexivity.
Qed.

Lemma getitem_lookup_0 {A} (l : list A) :
  getitem l 0 = match l !! 0 with Some x => Ok x | None => Raise IndexError end.
Proof. exact (getitem_nat l 0). Qed.

Lemma getitem_lookup_1 {A} (l : list A) :
  getitem l 1 = match l !! 1 with Some x => Ok x | None => Raise IndexError end.
Proof. exact (getitem_nat l 1). Qed.

Lemma every_second_lookup {A} (l : list A) (k : nat) :
  every_second l !! k = l !! (2 * k).
Proof.
  revert l. induction k as [|k IH]; intros [|x [|y l]]; try reflexivity.
  simpl every_second. rewrite lookup_cons_ne_0 by lia. simpl Nat.pred.
  rewrite IH. replace (2 * S k) with (S (S (2 * k))) by lia. reflexivity.
Qed.

(** [l[index::2]] holds the elements at [index], [index + 2], ... *)
Lemma slice_from_step2_lookup {A} (index : nat) (l : list A) (k : nat) :
  slice_from_step2 index l !! k = l !! (index + 2 * k).
Proof. unfold slice_from_step2. rewrite every_second_lookup. apply lookup_drop. Qed.

(** ** The stable sort behind [sorted] *)

Section sort.
Context {A : Type}.
Implicit Types (x y : hval * A) (l : list (hval * A)).

Lemma hval_lt_false x y :
  numeric x → numeric y → hval_lt y.1 x.1 = Ok false → key_le x y.
Proof.
  intros [p Hp] [q Hq]. unfold key_le. rewrite Hp, Hq. simpl.
  intros [= Hle]. apply negb_false_iff, Qle_bool_iff in Hle. exact Hle.
Qed.

Lemma hval_lt_true x y :
  numeric x → numeric y → hval_lt y.1 x.1 = Ok true → key_le y x.
Proof.
  intros [p Hp] [q Hq]. unfold key_le. rewrite Hp, Hq. simpl.
  intros [= Hlt]. apply negb_true_iff in Hlt.
  destruct (Qlt_le_dec q p) as [Hqp|Hpq].
  - apply Qlt_le_weak. exact Hqp.
  - apply Qle_bool_iff in Hpq. congruence.
Qed.

Lemma hval_lt_numeric x y :
  numeric x → numeric y → ∃ b, hval_lt y.1 x.1 = Ok b.
Proof. intros [p ->] [q ->]. simpl. eauto. Qed.

Lemma key_le_trans x y z : key_le x y → key_le y z → key_le x z.
Proof.
  unfold key_le.
  destruct x.1 as [p|], y.1 as [q|], z.1 as [r|]; try contradiction.
  apply Qle_trans.
Qed.

(** Two keys equal to the same number are not strictly ordered. *)
Lemma key_is_not_lt q x y :
  key_is q x = true → key_is q y = true → hval_lt y.1 x.1 ≠ Ok true.
Proof.
  unfold key_is. destruct x.1 as [p|], y.1 as [r|]; try discriminate.
  intros Hp%Qeq_bool_iff Hr%Qeq_bool_iff. simpl. intros [= Hlt].
  apply negb_true_iff in Hlt.
  assert (Qle_bool p r = true) as Hle.
  { apply Qle_bool_iff. rewrite Hp, Hr. apply Qle_refl. }
  congruence.
Qed.

Lemma insert_keyed_numeric x l :
  numeric x → Forall numeric l → ∃ l', insert_keyed x l = Ok l'.
Proof.
  intros Hx Hl. induction Hl as [|y l Hy Hl IH]; simpl; [eauto|].
  destruct (hval_lt_numeric x y Hx Hy) as [[|] ->]; simpl; [|eauto].
  destruct IH as [l' ->]. simpl. eauto.
Qed.

Lemma insert_keyed_perm x l l' : insert_keyed x l = Ok l' → l' ≡ₚ x :: l.
Proof.
  revert l'. induction l as [|y l IH]; simpl; intros l' Hins.
  - injection Hins as <-. reflexivity.
  - destruct (hval_lt y.1 x.1) as [[|]|e]; simpl in Hins; try discriminate.
    + destruct (insert_keyed x l) as [l''|e]; simpl in Hins; [|discriminate].
      injection Hins as <-. rewrite (IH l'' eq_refl). apply Permutation_swap.
    + injection Hins as <-. reflexivity.
Qed.

Lemma insert_keyed_sorted x l l' :
  numeric x → Forall numeric l →
  StronglySorted key_le l → insert_keyed x l = Ok l' →
  StronglySorted key_le l'.
Proof.
  intros Hx Hl Hs. revert l'.
  induction Hs as [|y l Hs IH Hy]; simpl; intros l' Hins.
  - injection Hins as <-. repeat constructor.
  - apply Forall_cons in Hl as [Hny Hl].
    destruct (hval_lt y.1 x.1) as [[|]|e] eqn:Hlt; simpl in Hins;
      try discriminate.
    + destruct (insert_keyed x l) as [l''|e] eqn:Hl''; simpl in Hins;
        [|discriminate].
      injection Hins as <-. constructor; [apply IH; auto|].
      apply insert_keyed_perm in Hl''. rewrite Hl''.
      constructor; [|exact Hy].
      apply hval_lt_true; assumption.
    + injection Hins as <-.
      assert (key_le x y) as Hxy by (apply hval_lt_false; assumption).
      constructor; [constructor; assumption|].
      constructor; [exact Hxy|].
      eapply Forall_impl; [exact Hy|].
      intros z Hyz. eapply key_le_trans; eassumption.
Qed.

(** Insertion keeps the order of the records whose key is [q]: the
    new record stays in front of them. *)
Lemma insert_keyed_stable q x l l' :
  insert_keyed x l = Ok l' →
  filter (λ y, key_is q y = true) l' = filter (λ y, key_is q y = true) (x :: l).
Proof.
  revert l'. induction l as [|y l IH]; simpl; intros l' Hins.
  - injection Hins as <-. reflexivity.
  - destruct (hval_lt y.1 x.1) as [[|]|e] eqn:Hlt; simpl in Hins;
      try discriminate.
    + destruct (insert_keyed x l) as [l''|e]; simpl in Hins; [|discriminate].
      injection Hins as <-. specialize (IH l'' eq_refl).
      rewrite (filter_cons _ y), IH, !(filter_cons _ x), !(filter_cons _ y).
      destruct (decide (key_is q x = true)) as [Hqx|Hqx];
        destruct (decide (key_is q y = true)) as [Hqy|Hqy];
        try reflexivity.
      exfalso. exact (key_is_not_lt q x y Hqx Hqy Hlt).
    + injection Hins as <-. reflexivity.
Qed.

(** On numeric keys the sort returns; its result is a permutation of
    its argument, ascending by key, with equal keys in the order they
    had. *)
Lemma sort_keyed_spec l :
  Forall numeric l →
  ∃ l', sort_keyed l = Ok l'
        ∧ l' ≡ₚ l
        ∧ StronglySorted key_le l'
        ∧ ∀ q, filter (λ y, key_is q y = true) l'
               = filter (λ y, key_is q y = true) l.
Proof.
  induction 1 as [|x l Hx Hl IH]; simpl.
  - exists []. repeat split; constructor.
  - destruct IH as (s & -> & Hperm & Hsorted & Hstable). simpl.
    assert (Forall numeric s) as Hs by (rewrite Hperm; exact Hl).
    destruct (insert_keyed_numeric x s Hx Hs) as [l' Hl'].
    exists l'. split; [exact Hl'|]. split; [|split].
    + rewrite (insert_keyed_perm _ _ _ Hl'), Hperm. reflexivity.
    + eapply insert_keyed_sorted; eassumption.
    + intros q. rewrite (insert_keyed_stable q _ _ _ Hl').
      rewrite !(filter_cons _ x), Hstable. reflexivity.
Qed.

(** The payloads do not take part in the sort. *)
Lemma insert_keyed_payload {B} (f : A → B) x l :
  insert_keyed (x.1, f x.2) (on_payload f l)
    = on_payload f <$> insert_keyed x l.
Proof.
  induction l as [|y l IH]; simpl; [reflexivity|].
  destruct (hval_lt y.1 x.1) as [[|]|e]; simpl; try reflexivity.
  fold (on_payload f l). rewrite IH.
  destruct (insert_keyed x l); reflexivity.
Qed.

Lemma sort_keyed_payload {B} (f : A → B) l :
  sort_keyed (on_payload f l) = on_payload f <$> sort_keyed l.
Proof.
  induction l as [|x l IH]; simpl; [reflexivity|].
  fold (on_payload f l). rewrite IH.
  destruct (sort_keyed l) as [s|e]; simpl; [|reflexivity].
  apply insert_keyed_payload.
Qed.
End sort.

(** ** [sorted] with numeric keys *)

Section sorted.
Context {A : Type} (key : A → result hval).

(** Each pair of a keyed list holds a record and its key. *)
Lemma keyed_Ok l kl :
  keyed key l = Ok kl → kl.*2 = l ∧ Forall (λ p, key p.2 = Ok p.1) kl.
Proof.
  unfold keyed. revert kl. induction l as [|x l IH]; simpl; intros kl Hkl.
  - injection Hkl as <-. split; constructor.
  - destruct (key x) as [k|e] eqn:Hk; simpl in Hkl; [|discriminate].
    destruct (comprehension _ l) as [kl'|e]; simpl in Hkl; [|discriminate].
    injection Hkl as <-. destruct (IH kl' eq_refl) as [Hsnd Hkeys].
    split; [csimpl; rewrite Hsnd; reflexivity|]. constructor; assumption.
Qed.

Lemma keyed_numeric l :
  Forall (λ x, ∃ q, key x = Ok (HNum q)) l →
  ∃ kl, keyed key l = Ok kl ∧ Forall numeric kl.
Proof.
  unfold keyed. induction 1 as [|x l [q Hq] _ (kl & IH & Hnum)]; simpl.
  - exists []. split; constructor.
  - rewrite Hq, IH. simpl. eexists. split; [reflexivity|].
    constructor; [exists q; reflexivity|exact Hnum].
Qed.

(** On numeric keys [sorted] returns a permutation of its argument,
    ascending by key, in which records with equal keys keep the order
    they had. *)
Lemma sorted_spec l :
  Forall (λ x, ∃ q, key x = Ok (HNum q)) l →
  ∃ l', sorted key l = Ok l'
        ∧ l' ≡ₚ l
        ∧ StronglySorted (by_key_le key) l'
        ∧ ∀ q, filter (λ a, by_key_is key q a = true) l'
               = filter (λ a, by_key_is key q a = true) l.
Proof.
  intros Hnum. unfold sorted. fold (keyed key l).
  destruct (keyed_numeric l Hnum) as (kl & Hkl & Hknum). rewrite Hkl. simpl.
  destruct (keyed_Ok l kl Hkl) as [Hsnd Hkeys].
  destruct (sort_keyed_spec kl Hknum) as (s & -> & Hperm & Hsorted & Hstable).
  simpl. exists (s.*2).
  assert (Forall (λ p, key p.2 = Ok p.1) s) as Hs by (rewrite Hperm; exact Hkeys).
  split; [reflexivity|]. split; [|split].
  - rewrite Hperm, Hsnd. reflexivity.
  - clear Hperm Hstable. induction Hsorted as [|p s Hsorted IH Hp]; simpl;
      [constructor|].
    apply Forall_cons in Hs as [Hpk Hs].
    constructor; [apply IH; exact Hs|].
    apply Forall_fmap. rewrite Forall_forall in Hp, Hs. apply Forall_forall.
    intros r Hr. specialize (Hp r Hr). specialize (Hs r Hr).
    unfold key_le in Hp. simpl.
    destruct p.1 as [a|] eqn:Hp1; [|contradiction].
    destruct r.1 as [b|] eqn:Hr1; [|contradiction].
    exists a, b. rewrite Hpk, Hs. auto.
  - intros q. specialize (Hstable q). rewrite <- Hsnd.
    assert (∀ t : list (hval * A),
              Forall (λ p, key p.2 = Ok p.1) t →
              filter (λ a, by_key_is key q a = true) (t.*2)
              = (filter (λ y, key_is q y = true) t).*2) as Hfilter.
    { induction 1 as [|p t Hp _ IH]; [reflexivity|].
      csimpl. rewrite !filter_cons, IH.
      assert (by_key_is key q p.2 = key_is q p) as Heq.
      { unfold by_key_is, key_is. rewrite Hp. reflexivity. }
      rewrite Heq. destruct (decide (key_is q p = true)); reflexivity. }
    rewrite !Hfilter by assumption. rewrite Hstable. reflexivity.
Qed.
End sorted.

(** ** The loaders *)

(** *** The patch of the primary header *)

Lemma header_getitem_setitem key v (h : header) :
  header_getitem (header_setitem key v h) key = Ok v.
Proof. unfold header_getitem, header_setitem. rewrite lookup_insert_eq. reflexivity. Qed.

Lemma header_getitem_setitem_ne key key' v (h : header) :
  upper key ≠ upper key' →
  header_getitem (header_setitem key v h) key' = header_getitem h key'.
Proof.
  intros Hne. unfold header_getitem, header_setitem.
  rewrite lookup_insert_ne by exact Hne. reflexivity.
Qed.

(** The g-band loader sets the four fields, whatever the raw header
    held. *)
Lemma gband_patch_sets (h : header) :
  header_getitem (gband_patch h) "cunit1" = Ok arcsec
  ∧ header_getitem (gband_patch h) "cunit2" = Ok arcsec
  ∧ header_getitem (gband_patch h) "cdelt1" = Ok cdelt1
  ∧ header_getitem (gband_patch h) "cdelt2" = Ok cdelt2.
Proof.
  unfold gband_patch. repeat split.
  - rewrite !header_getitem_setitem_ne by (simpl; discriminate).
    apply header_getitem_setitem.
  - rewrite !header_getitem_setitem_ne by (simpl; discriminate).
    apply header_getitem_setitem.
  - rewrite header_getitem_setitem_ne by (simpl; discriminate).
    apply header_getitem_setitem.
  - apply header_getitem_setitem.
Qed.

(** The continuum loader sets [cunit2] and the two plate scales, and
    writes the unit of the first axis under the keyword [cunit]: the
    field [cunit1] keeps what the raw header held. *)
Lemma continuum_patch_sets (h : header) :
  header_getitem (continuum_patch h) "cunit" = Ok arcsec
  ∧ header_getitem (continuum_patch h) "cunit2" = Ok arcsec
  ∧ header_getitem (continuum_patch h) "cdelt1" = Ok cdelt1
  ∧ header_getitem (continuum_patch h) "cdelt2" = Ok cdelt2
  ∧ header_getitem (continuum_patch h) "cunit1" = header_getitem h "cunit1".
Proof.
  unfold continuum_patch. repeat split.
  - rewrite !header_getitem_setitem_ne by (simpl; discriminate).
    apply header_getitem_setitem.
  - rewrite !header_getitem_setitem_ne by (simpl; discriminate).
    apply header_getitem_setitem.
  - rewrite header_getitem_setitem_ne by (simpl; discriminate).
    apply header_getitem_setitem.
  - apply header_getitem_setitem.
  - rewrite !header_getitem_setitem_ne by (simpl; discriminate).
    reflexivity.
Qed.

(** Neither patch touches the time offset of the primary record. *)
Lemma patch_time_offset (v : loader) (h : header) (d : ndarray) :
  time_offset (mkHDU (patch v h) d) = time_offset (mkHDU h d).
Proof.
  unfold time_offset. simpl.
  destruct v; simpl; unfold gband_patch, continuum_patch;
    rewrite !header_getitem_setitem_ne by (simpl; discriminate); reflexivity.
Qed.

(** *** The channel *)

Lemma header_contains_getitem key (h : header) v :
  header_getitem h key = Ok v → header_contains key h = true.
Proof.
  unfold header_getitem, header_contains.
  destruct (h !! upper key) as [w|] eqn:Hw; [|discriminate].
  intros _. apply bool_decide_eq_true_2. eauto.
Qed.

Lemma channel_index_first file target (hdul : list HDU) hdu0 w0 :
  hdul !! 0 = Some hdu0 →
  header_getitem (hdu_header hdu0) "WAVELNTH" = Ok w0 →
  hval_eqb w0 target = true →
  channel_index file target hdul = Ok 0.
Proof.
  intros H0 Hw0 Heq. unfold channel_index.
  rewrite getitem_lookup_0, H0. cbn [mbind result_bind].
  rewrite (header_contains_getitem _ _ _ Hw0). cbn [negb].
  rewrite Hw0. cbn [mbind result_bind]. rewrite Heq. reflexivity.
Qed.

Lemma channel_index_second file target (hdul : list HDU) hdu0 w0 hdu1 w1 :
  hdul !! 0 = Some hdu0 →
  header_getitem (hdu_header hdu0) "WAVELNTH" = Ok w0 →
  hval_eqb w0 target = false →
  hdul !! 1 = Some hdu1 →
  header_getitem (hdu_header hdu1) "WAVELNTH" = Ok w1 →
  channel_index file target hdul =
    if hval_eqb w1 target then Ok 1
    else Raise (Exception (invalid_gregor_file file)).
Proof.
  intros H0 Hw0 Hne H1 Hw1. unfold channel_index.
  rewrite getitem_lookup_0, H0. cbn [mbind result_bind].
  rewrite (header_contains_getitem _ _ _ Hw0). cbn [negb].
  rewrite Hw0. cbn [mbind result_bind]. rewrite Hne.
  rewrite getitem_lookup_1, H1. cbn [mbind result_bind].
  rewrite Hw1. reflexivity.
Qed.

Lemma channel_index_untagged file target (hdul : list HDU) hdu0 :
  hdul !! 0 = Some hdu0 →
  header_contains "WAVELNTH" (hdu_header hdu0) = false →
  channel_index file target hdul = Raise (AssertionError (invalid_gregor_file file)).
Proof.
  intros H0 Hno. unfold channel_index.
  rewrite getitem_lookup_0, H0. cbn [mbind result_bind].
  rewrite Hno. reflexivity.
Qed.

Lemma keyed_same_frame (l' l : list HDU) :
  Forall2 same_frame l' l →
  on_payload hdu_data <$> keyed time_offset l'
    = on_payload hdu_data <$> keyed time_offset l.
Proof.
  unfold keyed. induction 1 as [|a b l' l [Hk Hd] _ IH]; [reflexivity|].
  simpl. rewrite Hk. destruct (time_offset b) as [k|e]; simpl; [|reflexivity].
  destruct (comprehension _ l') as [kl'|e'], (comprehension _ l) as [kl|e];
    simpl in *; try discriminate.
  - injection IH as IH. unfold on_payload in *. csimpl. rewrite Hd, IH. reflexivity.
  - congruence.
Qed.

Lemma on_payload_snd {A B} (f : A → B) (kl : list (hval * A)) :
  (on_payload f kl).*2 = f <$> kl.*2.
Proof.
  unfold on_payload. rewrite <- !list_fmap_compose. reflexivity.
Qed.

(** The pixels [sorted] puts out depend on the time offsets and the
    pixels of the records only. *)
Lemma sorted_same_frame (l' l s : list HDU) :
  Forall2 same_frame l' l →
  sorted time_offset l = Ok s →
  ∃ s', sorted time_offset l' = Ok s' ∧ hdu_data <$> s' = hdu_data <$> s.
Proof.
  intros Hsame%keyed_same_frame. unfold sorted. fold (keyed time_offset l).
  fold (keyed time_offset l').
  destruct (keyed time_offset l) as [kl|e]; simpl; [|discriminate].
  destruct (keyed time_offset l') as [kl'|e]; simpl in *; [|discriminate].
  injection Hsame as Hsame.
  pose proof (sort_keyed_payload hdu_data kl) as Hkl.
  pose proof (sort_keyed_payload hdu_data kl') as Hkl'.
  rewrite Hsame in Hkl'. rewrite Hkl in Hkl'.
  destruct (sort_keyed kl) as [r|e]; simpl; [|discriminate].
  destruct (sort_keyed kl') as [r'|e]; simpl in *; [|discriminate].
  injection Hkl' as Hr. intros [= <-]. eexists. split; [reflexivity|].
  rewrite <- !on_payload_snd. rewrite Hr. reflexivity.
Qed.

(** The channel sliced out of the patched container agrees, frame by
    frame, with the channel of the container as it was read. *)
Lemma channel_same_frame (v : loader) (hdul : list HDU) hdu0 index :
  hdul !! 0 = Some hdu0 →
  Forall2 same_frame
    (slice_from_step2 index
       (<[0 := mkHDU (patch v (hdu_header hdu0)) (hdu_data hdu0)]> hdul))
    (slice_from_step2 index hdul).
Proof.
  intros H0. apply Forall2_lookup. intros k.
  rewrite !slice_from_step2_lookup.
  destruct (decide (index + 2 * k = 0)) as [->|Hne].
  - rewrite list_lookup_insert_eq by (eapply lookup_lt_Some; exact H0).
    rewrite H0. constructor. split; [|reflexivity].
    destruct hdu0 as [h d]. apply patch_time_offset.
  - rewrite list_lookup_insert_ne by lia.
    destruct (hdul !! (index + 2 * k)); constructor. split; reflexivity.
Qed.

(** *** The maps *)

Lemma header_lookup_setitem key v (h : header) :
  header_setitem key v h !! upper key = Some v.
Proof. unfold header_setitem. apply lookup_insert_eq. Qed.

Lemma header_lookup_setitem_ne key key' v (h : header) :
  upper key ≠ upper key' →
  header_setitem key v h !! upper key' = h !! upper key'.
Proof. intros Hne. unfold header_setitem. apply lookup_insert_ne. exact Hne. Qed.

(** The header the g-band loader builds its maps from passes the
    check of [Map], whatever the raw header held. *)
Lemma validate_gband_patch (h : header) : validate_meta (gband_patch h) = true.
Proof.
  unfold validate_meta, gband_patch.
  rewrite !(header_lookup_setitem_ne _ "cunit1") by (simpl; discriminate).
  rewrite header_lookup_setitem.
  rewrite !(header_lookup_setitem_ne _ "cunit2") by (simpl; discriminate).
  rewrite header_lookup_setitem. reflexivity.
Qed.

(** The header of the continuum loader passes it when the raw header
    names an angular unit under CUNIT1, and only then. *)
Lemma validate_continuum_patch (h : header) :
  validate_meta (continuum_patch h) =
    match h !! upper "cunit1" with
    | Some u => is_angular u
    | None => false
    end.
Proof.
  unfold validate_meta, continuum_patch.
  rewrite !(header_lookup_setitem_ne _ "cunit1") by (simpl; discriminate).
  rewrite !(header_lookup_setitem_ne _ "cunit2") by (simpl; discriminate).
  rewrite header_lookup_setitem.
  destruct (h !! upper "cunit1") as [u|]; [|reflexivity].
  apply andb_true_r.
Qed.

Lemma validate_patch (v : loader) (h : header) (u : string) :
  header_getitem h "CUNIT1" = Ok (HStr u) →
  u ∈ angular_units →
  validate_meta (patch v h) = true.
Proof.
  intros Hu Hangular. destruct v; cbn [patch]; [apply validate_gband_patch|].
  rewrite validate_continuum_patch. unfold header_getitem in Hu.
  change (upper "CUNIT1") with (upper "cunit1") in Hu.
  destruct (h !! upper "cunit1") as [u'|]; [|discriminate].
  injection Hu as ->. apply bool_decide_eq_true_2. exact Hangular.
Qed.

(** A header that passes gives one map for each record. *)
Lemma maps_built (meta : header) (l : list HDU) :
  validate_meta meta = true →
  comprehension (λ hdu, sunpy_Map (hdu_data hdu) meta) l
    = Ok ((λ hdu, mkMap (hdu_data hdu) meta) <$> l).
Proof.
  intros Hmeta. induction l as [|hdu l IH]; [reflexivity|].
  simpl. rewrite IH. unfold sunpy_Map. rewrite Hmeta. reflexivity.
Qed.

(** A header that fails gives no map. *)
Lemma maps_refused (meta : header) (hdu : HDU) (l : list HDU) :
  validate_meta meta = false →
  comprehension (λ hdu, sunpy_Map (hdu_data hdu) meta) (hdu :: l)
    = Raise MapMetaValidationError.
Proof.
  intros Hmeta. simpl. unfold sunpy_Map. rewrite Hmeta. reflexivity.
Qed.

Lemma maps_built_inv (meta : header) (l : list HDU) (maps : list Map) :
  comprehension (λ hdu, sunpy_Map (hdu_data hdu) meta) l = Ok maps →
  maps = (λ hdu, mkMap (hdu_data hdu) meta) <$> l.
Proof.
  destruct (validate_meta meta) eqn:Hmeta.
  - rewrite (maps_built meta l Hmeta). intros [= <-]. reflexivity.
  - destruct l as [|hdu l]; [intros [= <-]; reflexivity|].
    rewrite (maps_refused meta hdu l Hmeta). discriminate.
Qed.

(** The loader once the channel is known and the patched header passes
    the check of [Map]. *)
Lemma load_gregor_channel (v : loader) (fs : filesystem) file
    (hdul : list HDU) hdu0 index ordered :
  fs !! file = Some hdul →
  hdul !! 0 = Some hdu0 →
  channel_index file (wavelength v) hdul = Ok index →
  sorted time_offset (slice_from_step2 index hdul) = Ok ordered →
  validate_meta (patch v (hdu_header hdu0)) = true →
  load_gregor v fs file =
    Ok (DataAnd
          ((λ hdu, mkMap (hdu_data hdu) (patch v (hdu_header hdu0))) <$> ordered)
          {["path" := VStr file]}).
Proof.
  intros Hfile H0 Hindex Hsorted Hmeta. unfold load_gregor, fits_open.
  rewrite Hfile. cbn [mbind result_bind]. rewrite Hindex.
  cbn [mbind result_bind]. rewrite getitem_lookup_0, H0.
  cbn [mbind result_bind].
  destruct (sorted_same_frame _ _ _ (channel_same_frame v hdul hdu0 index H0)
              Hsorted) as (s' & -> & Hdata).
  cbn [mbind result_bind]. rewrite (maps_built _ s' Hmeta).
  cbn [mbind result_bind]. do 2 f_equal.
  change (λ hdu, mkMap (hdu_data hdu) (patch v (hdu_header hdu0)))
    with ((λ d, mkMap d (patch v (hdu_header hdu0))) ∘ hdu_data).
  rewrite !list_fmap_compose. rewrite Hdata. reflexivity.
Qed.

Lemma loader_call_eq v fs file kwargs :
  loader_call v fs file kwargs = load_gregor v fs file.
Proof. destruct v; reflexivity. Qed.

(** Whatever a loader emits carries the patched primary header, the
    same for every frame, and the update [{'path': file}]. *)
Lemma load_gregor_meta (v : loader) (fs : filesystem) file maps add_kwargs :
  load_gregor v fs file = Ok (DataAnd maps add_kwargs) →
  ∃ hdul hdu0,
    fs !! file = Some hdul
    ∧ hdul !! 0 = Some hdu0
    ∧ add_kwargs = {["path" := VStr file]}
    ∧ Forall (λ m, map_meta m = patch v (hdu_header hdu0)) maps.
Proof.
  unfold load_gregor, fits_open.
  destruct (fs !! file) as [hdul|] eqn:Hfile; [|discriminate].
  cbn [mbind result_bind].
  destruct (channel_index _ _ _) as [index|e]; [|discriminate].
  cbn [mbind result_bind]. rewrite getitem_lookup_0.
  destruct (hdul !! 0) as [hdu0|] eqn:H0; [|discriminate].
  cbn [mbind result_bind].
  destruct (sorted _ _) as [s|e]; [|discriminate]. cbn [mbind result_bind].
  destruct (comprehension _ s) as [built|e] eqn:Hbuilt; [|discriminate].
  cbn [mbind result_bind]. apply maps_built_inv in Hbuilt as ->.
  intros [= <- <-]. exists hdul, hdu0.
  split; [reflexivity|]. split; [exact H0|]. split; [reflexivity|].
  apply Forall_fmap, Forall_true. reflexivity.
Qed.

(** C4 (amended). When the first record carries a wavelength tag, the
    first or else the second record's tag equals the target, every
    record of the channel carries a numeric time offset, and -- for the
    continuum loader, which leaves CUNIT1 as it was read -- the header
    of the first record names an angular unit under CUNIT1, the loader
    takes the records at [index], [index + 2], ... ([index] is 0 when
    the first tag matches and 1 otherwise) and emits one frame per
    record, ascending by time offset, records with equal offsets in
    container order. *)
Theorem loader_call_sorted (v : loader) (fs : filesystem) (file : string)
    (kwargs : dict) (hdul : list HDU) (hdu0 : HDU) (w0 : hval) :
  fs !! file = Some hdul →
  hdul !! 0 = Some hdu0 →
  header_getitem (hdu_header hdu0) "WAVELNTH" = Ok w0 →
  (hval_eqb w0 (wavelength v) = false →
   ∃ hdu1 w1,
     hdul !! 1 = Some hdu1
     ∧ header_getitem (hdu_header hdu1) "WAVELNTH" = Ok w1
     ∧ hval_eqb w1 (wavelength v) = true) →
  (v = Continuum →
   ∃ u, header_getitem (hdu_header hdu0) "CUNIT1" = Ok (HStr u)
        ∧ u ∈ angular_units) →
  let index := if hval_eqb w0 (wavelength v) then 0 else 1 in
  let channel := slice_from_step2 index hdul in
  Forall (λ hdu, ∃ q, time_offset hdu = Ok (HNum q)) channel →
  ∃ ordered,
    loader_call v fs file kwargs =
      Ok (DataAnd
            ((λ hdu, mkMap (hdu_data hdu) (patch v (hdu_header hdu0))) <$> ordered)
            {["path" := VStr file]})
    ∧ (∀ k, channel !! k = hdul !! (index + 2 * k))
    ∧ ordered ≡ₚ channel
    ∧ StronglySorted (by_key_le time_offset) ordered
    ∧ ∀ q, filter (λ hdu, by_key_is time_offset q hdu = true) ordered
           = filter (λ hdu, by_key_is time_offset q hdu = true) channel.
Proof.
  intros Hfile H0 Hw0 Hsecond Hunit index channel Hnum.
  destruct (sorted_spec time_offset channel Hnum)
    as (ordered & Hsorted & Hperm & Hasc & Hstable).
  exists ordered. split; [|split; [|split; [|split]]]; try assumption.
  - rewrite loader_call_eq.
    apply (load_gregor_channel v fs file hdul hdu0 index); try assumption.
    + subst index channel.
      destruct (hval_eqb w0 (wavelength v)) eqn:Hfirst.
      * eapply channel_index_first; eassumption.
      * destruct (Hsecond eq_refl) as (hdu1 & w1 & H1 & Hw1 & Heq).
        rewrite (channel_index_second _ _ _ _ _ _ _ H0 Hw0 Hfirst H1 Hw1), Heq.
        reflexivity.
    + destruct v; [apply validate_gband_patch|].
      destruct (Hunit eq_refl) as (u & Hu & Hangular).
      exact (validate_patch Continuum _ u Hu Hangular).
  - intros k. apply slice_from_step2_lookup.
Qed.

(** C5 (amended). A first record without a wavelength tag makes the
    loader raise the [AssertionError]; two tagged records of which
    neither carries the target wavelength make it raise the [Exception]
    "Invalid GREGOR file". In both cases no frame is emitted. *)
Theorem loader_call_rejects (v : loader) (fs : filesystem) (file : string)
    (kwargs : dict) (hdul : list HDU) (hdu0 : HDU) :
  fs !! file = Some hdul →
  hdul !! 0 = Some hdu0 →
  (header_contains "WAVELNTH" (hdu_header hdu0) = false →
   loader_call v fs file kwargs
     = Raise (AssertionError (invalid_gregor_file file)))
  ∧ (∀ w0 hdu1 w1,
       header_getitem (hdu_header hdu0) "WAVELNTH" = Ok w0 →
       hdul !! 1 = Some hdu1 →
       header_getitem (hdu_header hdu1) "WAVELNTH" = Ok w1 →
       hval_eqb w0 (wavelength v) = false →
       hval_eqb w1 (wavelength v) = false →
       loader_call v fs file kwargs
         = Raise (Exception (invalid_gregor_file file))).
Proof.
  intros Hfile H0. rewrite loader_call_eq. unfold load_gregor, fits_open.
  rewrite Hfile. cbn [mbind result_bind]. split.
  - intros Hno. rewrite (channel_index_untagged _ _ _ _ H0 Hno). reflexivity.
  - intros w0 hdu1 w1 Hw0 H1 Hw1 Hne0 Hne1.
    rewrite (channel_index_second _ _ _ _ _ _ _ H0 Hw0 Hne0 H1 Hw1), Hne1.
    reflexivity.
Qed.

(** *** The loaders on the example containers *)

(** The g-band loader takes the records 0 and 2 of the synthetic
    container and emits record 2 (offset 2) before record 0 (offset 3). *)
Example LoadGregorGBandEditor_call_example :
  LoadGregorGBandEditor_call files "gband.fits" ∅ =
    let primary_header := gband_patch (hdu_header (record (4307 # 10) 3 10)) in
    Ok (DataAnd [mkMap (image 12) primary_header; mkMap (image 10) primary_header]
                {["path" := VStr "gband.fits"]}).
Proof. vm_compute. reflexivity. Qed.

Lemma loader_call_sorted_witness :
  (∃ ordered,
     LoadGregorGBandEditor_call files "gband.fits" ∅ =
       Ok (DataAnd
             ((λ hdu, mkMap (hdu_data hdu)
                        (gband_patch (hdu_header (record (4307 # 10) 3 10))))
                <$> ordered)
             {["path" := VStr "gband.fits"]})
     ∧ ordered ≡ₚ [record (4307 # 10) 3 10; record (4307 # 10) 2 12]
     ∧ StronglySorted (by_key_le time_offset) ordered)
  ∧ (∃ ordered,
       LoadGregorContinuumEditor_call files "continuum.fits" ∅ =
         Ok (DataAnd
               ((λ hdu, mkMap (hdu_data hdu)
                          (continuum_patch (hdu_header raw_continuum_record)))
                  <$> ordered)
               {["path" := VStr "continuum.fits"]})
       ∧ ordered ≡ₚ [raw_continuum_record]).
Proof.
  split.
  - destruct (loader_call_sorted GBand files "gband.fits" ∅ synthetic
                (record (4307 # 10) 3 10) (HNum (4307 # 10)))
      as (ordered & Hcall & _ & Hperm & Hsorted & _).
    + reflexivity.
    + reflexivity.
    + reflexivity.
    + intros Hne. discriminate Hne.
    + intros Hv. discriminate Hv.
    + repeat constructor; eexists; reflexivity.
    + exists ordered. split; [exact Hcall|]. split; [exact Hperm|exact Hsorted].
  - destruct (loader_call_sorted Continuum files "continuum.fits" ∅
                raw_continuum raw_continuum_record (HNum (45055 # 100)))
      as (ordered & Hcall & _ & Hperm & _).
    + reflexivity.
    + reflexivity.
    + reflexivity.
    + intros Hne. discriminate Hne.
    + intros _. exists "deg". split; [reflexivity|].
      right. right. left.
    + repeat constructor; eexists; reflexivity.
    + exists ordered. split; [exact Hcall|exact Hperm].
Defined.

(** C4 as stated fails: the second record carries the target
    wavelength, the first carries no tag, and the loader raises. *)
Lemma loader_call_untagged_first :
  ¬ (∀ (v : loader) (fs : filesystem) (file : string) (kwargs : dict)
       (hdul : list HDU),
       fs !! file = Some hdul →
       (∃ i hdu w,
          i < 2 ∧ hdul !! i = Some hdu
          ∧ header_getitem (hdu_header hdu) "WAVELNTH" = Ok w
          ∧ hval_eqb w (wavelength v) = true) →
       is_Ok (loader_call v fs file kwargs)).
Proof.
  intros Hclaim.
  destruct (Hclaim GBand files "untagged.fits" ∅ untagged_first eq_refl)
    as [frames Hframes].
  - exists 1, (record (4307 # 10) 1 11), (HNum (4307 # 10)).
    split; [lia|]. split; [reflexivity|]. split; reflexivity.
  - vm_compute in Hframes. discriminate Hframes.
Qed.

Lemma loader_call_rejects_witness :
  LoadGregorGBandEditor_call files "untagged.fits" ∅
    = Raise (AssertionError (invalid_gregor_file "untagged.fits"))
  ∧ LoadGregorContinuumEditor_call files "other.fits" ∅
    = Raise (Exception (invalid_gregor_file "other.fits")).
Proof.
  split.
  - apply (loader_call_rejects GBand files "untagged.fits" ∅ untagged_first
             (mkHDU {[ "TIMEOFFS" := HNum 0 ]} (image 10)) eq_refl eq_refl).
    reflexivity.
  - destruct (loader_call_rejects Continuum files "other.fits" ∅
                [record 999 0 10; record 998 1 11] (record 999 0 10)
                eq_refl eq_refl) as [_ Hneither].
    apply (Hneither (HNum 999) (record 998 1 11) (HNum 998)); reflexivity.
Defined.

(** C5 as stated fails: a container of one record whose tag is not the
    target raises [IndexError], not the [Exception]. *)
Lemma loader_call_single_record :
  ¬ (∀ (v : loader) (fs : filesystem) (file : string) (kwargs : dict)
       (hdul : list HDU) (hdu0 : HDU) (w0 : hval),
       fs !! file = Some hdul →
       hdul !! 0 = Some hdu0 →
       header_getitem (hdu_header hdu0) "WAVELNTH" = Ok w0 →
       (∀ i hdu w,
          i < 2 → hdul !! i = Some hdu →
          header_getitem (hdu_header hdu) "WAVELNTH" = Ok w →
          hval_eqb w (wavelength v) = false) →
       loader_call v fs file kwargs
         = Raise (Exception (invalid_gregor_file file))).
Proof.
  intros Hclaim.
  specialize (Hclaim GBand files "single.fits" ∅ [record 999 0 10]
                (record 999 0 10) (HNum 999) eq_refl eq_refl eq_refl).
  assert (loader_call GBand files "single.fits" ∅ = Raise IndexError) as Hrun
    by reflexivity.
  rewrite Hrun in Hclaim. 
  assert (Raise IndexError = Raise (Exception (invalid_gregor_file "single.fits"))
          :> result (returned (list Map))) as Habs; [|discriminate Habs].
  apply Hclaim. intros [|[|i]] hdu w Hi Hhdu Hw; [| |lia].
  - injection Hhdu as <-. injection Hw as <-. reflexivity.
  - discriminate Hhdu.
Qed.

(** C3 on the continuum loader: the frame it emits for the raw
    continuum container still gives the unit of the first axis in
    degrees; the arcseconds went to the keyword [CUNIT]. *)
Theorem LoadGregorContinuumEditor_call_keeps_cunit1 :
  ∃ frame,
    LoadGregorContinuumEditor_call files "continuum.fits" ∅
      = Ok (DataAnd [frame] {["path" := VStr "continuum.fits"]})
    ∧ header_getitem (map_meta frame) "cunit1" = Ok (HStr "deg")
    ∧ header_getitem (map_meta frame) "cunit" = Ok arcsec
    ∧ header_getitem (map_meta frame) "cunit2" = Ok arcsec
    ∧ header_getitem (map_meta frame) "cdelt1" = Ok cdelt1
    ∧ header_getitem (map_meta frame) "cdelt2" = Ok cdelt2.
Proof.
  exists (mkMap (image 10)
            (continuum_patch (hdu_header (mkHDU
               {[ "WAVELNTH" := HNum (45055 # 100); "TIMEOFFS" := HNum 0;
                  "CUNIT1" := HStr "deg"; "CDELT1" := HNum 1 ]} (image 10))))).
  split; [vm_compute; reflexivity|].
  destruct (continuum_patch_sets (hdu_header (mkHDU
               {[ "WAVELNTH" := HNum (45055 # 100); "TIMEOFFS" := HNum 0;
                  "CUNIT1" := HStr "deg"; "CDELT1" := HNum 1 ]} (image 10))))
    as (Hcunit & Hcunit2 & Hcdelt1 & Hcdelt2 & Hcunit1).
  cbn [map_meta]. rewrite Hcunit1.
  split; [reflexivity|]. repeat split; assumption.
Qed.

(** The g-band loader, for comparison, overwrites all four fields in
    every frame it emits. *)
Lemma LoadGregorGBandEditor_call_patches (fs : filesystem) (file : string)
    (kwargs : dict) (maps : list Map) (add_kwargs : dict) :
  LoadGregorGBandEditor_call fs file kwargs = Ok (DataAnd maps add_kwargs) →
  Forall (λ frame,
            header_getitem (map_meta frame) "cunit1" = Ok arcsec
            ∧ header_getitem (map_meta frame) "cunit2" = Ok arcsec
            ∧ header_getitem (map_meta frame) "cdelt1" = Ok cdelt1
            ∧ header_getitem (map_meta frame) "cdelt2" = Ok cdelt2) maps.
Proof.
  intros Hcall. apply load_gregor_meta in Hcall as (hdul & hdu0 & _ & _ & _ & Hmeta).
  eapply Forall_impl; [exact Hmeta|].
  intros frame ->. apply gband_patch_sets.
Qed.

(** ** Calls on the heap *)

Lemma M_bind_unfold {X Y} (f : X → M Y) (m : M X) (w : world) :
  (m ≫= f) w =
    match m w with
    | (w', Ok x) => f x w'
    | (w', Raise e) => (w', Raise e)
    end.
Proof. reflexivity. Qed.

Lemma pass_kwargs_unfold params kwargs (w : world) d :
  heap w !! kwargs = Some d →
  pass_kwargs params kwargs w =
    if clashes params d then (w, Raise TypeError)
    else (mkWorld (heap w ++ [d]) (calls w), Ok (length (heap w))).
Proof.
  intros Hd. unfold pass_kwargs. rewrite M_bind_unfold.
  unfold deref. rewrite Hd. simpl. destruct (clashes params d); reflexivity.
Qed.

(** [convert] on a dictionary that holds [d]: the unit is called on a
    new dictionary with the items of [d]; its updates, if any, go into
    the dictionary [convert] was given. *)
Lemma convert_unfold {A B} (self : Editor A B) data kwargs (w : world) d :
  heap w !! kwargs = Some d →
  convert self data kwargs w =
    if clashes ["self"; param self] d then (w, Raise TypeError)
    else
      let kw := length (heap w) in
      match call self data d with
      | Raise e =>
          (mkWorld (heap w ++ [d]) (calls w ++ [mkEvent kw d ∅]), Raise e)
      | Ok (Data data') =>
          (mkWorld (heap w ++ [d]) (calls w ++ [mkEvent kw d ∅]),
           Ok (data', kwargs))
      | Ok (DataAnd data' add_kwargs) =>
          (mkWorld (alter (λ d, add_kwargs ∪ d) kwargs (heap w ++ [d]))
                   (calls w ++ [mkEvent kw d add_kwargs]),
           Ok (data', kwargs))
      end.
Proof.
  intros Hd. unfold convert. rewrite M_bind_unfold.
  rewrite (pass_kwargs_unfold _ _ _ _ Hd).
  destruct (clashes _ d); [reflexivity|].
  rewrite M_bind_unfold. unfold deref. cbn [heap calls].
  rewrite lookup_app_r by lia. rewrite Nat.sub_diag.
  cbn [lookup list_lookup default from_option]. unfold id.
  destruct (call self data d) as [[data'|data' add]|e]; reflexivity.
Qed.

Lemma alter_app_fresh {X} (f : X → X) (h : list X) (x : X) (rest : list X) :
  alter f (length h) (h ++ x :: rest) = h ++ f x :: rest.
Proof.
  induction h as [|y h IH]; simpl; [reflexivity|].
  f_equal. exact IH.
Qed.

Lemma own_dicts_nil lo hi : own_dicts lo hi [].
Proof. split; constructor. Qed.

Lemma own_dicts_weaken lo lo' hi hi' evs :
  lo' ≤ lo → hi ≤ hi' → own_dicts lo hi evs → own_dicts lo' hi' evs.
Proof.
  intros Hlo Hhi [Hin Hnodup]. split; [|exact Hnodup].
  eapply Forall_impl; [exact Hin|]. intros e He. simpl in *. lia.
Qed.

Lemma own_dicts_cons lo hi e evs :
  lo ≤ ev_loc e → own_dicts (S (ev_loc e)) hi evs → ev_loc e < hi →
  own_dicts lo hi (e :: evs).
Proof.
  intros Hlo [Hin Hnodup] Hhi. split.
  - constructor; [lia|]. eapply Forall_impl; [exact Hin|].
    intros e' He'. simpl in *. lia.
  - csimpl. constructor; [|exact Hnodup].
    intros Hmem. apply list_elem_of_fmap in Hmem as (e' & Heq & He').
    rewrite Forall_forall in Hin. specialize (Hin e' He'). simpl in Hin. lia.
Qed.

(** The run of a pipeline on the heap: dictionaries are added and none
    that existed is changed; the outcome and what each unit saw and
    wrote are those of [run]; each unit was given a dictionary of its
    own. *)
Lemma convertData_run {A C} (editors : Pipeline A C) :
  ∀ data kwargs (w : world) d,
    heap w !! kwargs = Some d →
    ∃ new evs,
      convertData editors data kwargs w =
        (mkWorld (heap w ++ new) (calls w ++ evs), (run editors data d).2)
      ∧ own_dicts (length (heap w)) (length (heap w ++ new)) evs
      ∧ views evs = (run editors data d).1.
Proof.
  induction editors as [A|A B C editor rest IH]; intros data kwargs w d Hd.
  - exists [], []. rewrite !app_nil_r. destruct w. split; [reflexivity|].
    split; [apply own_dicts_nil|reflexivity].
  - cbn [convertData run]. rewrite M_bind_unfold.
    rewrite (pass_kwargs_unfold _ _ _ _ Hd).
    destruct (clashes ["self"; "data"] d) eqn:Hself.
    { exists [], []. rewrite !app_nil_r. destruct w. cbn [orb].
      split; [reflexivity|]. split; [apply own_dicts_nil|reflexivity]. }
    cbn [orb]. rewrite M_bind_unfold.
    set (w1 := mkWorld (heap w ++ [d]) (calls w)).
    assert (heap w1 !! length (heap w) = Some d) as Hd1.
    { subst w1. cbn [heap]. rewrite lookup_app_r by lia.
      rewrite Nat.sub_diag. reflexivity. }
    rewrite (convert_unfold editor data _ w1 d Hd1).
    destruct (clashes ["self"; param editor] d) eqn:Hparam.
    { exists [d], []. rewrite app_nil_r. split; [reflexivity|].
      split; [apply own_dicts_nil|reflexivity]. }
    subst w1. cbn [heap calls]. cbv zeta.
    destruct (call editor data d) as [[data'|data' add]|e].
    + (* the unit returned the data alone *)
      cbn [fst snd].
      set (w3 := mkWorld ((heap w ++ [d]) ++ [d]) _).
      destruct (IH data' (length (heap w)) w3 d) as (new & evs & Hrun & Hown & Hviews).
      { subst w3. cbn [heap]. rewrite lookup_app_l by (rewrite length_app; simpl; lia).
        rewrite lookup_app_r by lia. rewrite Nat.sub_diag. reflexivity. }
      rewrite Hrun. subst w3. cbn [heap calls] in *.
      exists ([d; d] ++ new), (mkEvent (length (heap w ++ [d])) d ∅ :: evs).
      split; [|split].
      * rewrite <- !app_assoc. reflexivity.
      * rewrite !length_app in *. cbn [length] in *.
        apply own_dicts_cons; cbn [ev_loc]; [lia| |lia].
        eapply own_dicts_weaken; [| |exact Hown]; lia.
      * unfold views in *. csimpl. rewrite Hviews. reflexivity.
    + (* the unit returned the data and its updates *)
      cbn [fst snd].
      set (w3 := mkWorld _ _).
      destruct (IH data' (length (heap w)) w3 (add ∪ d))
        as (new & evs & Hrun & Hown & Hviews).
      { subst w3. cbn [heap]. rewrite <- app_assoc. cbn [app].
        rewrite alter_app_fresh. rewrite lookup_app_r by lia.
        rewrite Nat.sub_diag. reflexivity. }
      rewrite Hrun. subst w3. cbn [heap calls] in *.
      rewrite <- app_assoc in *. cbn [app] in *. rewrite alter_app_fresh in *.
      exists ([add ∪ d; d] ++ new), (mkEvent (length (heap w ++ [d])) d add :: evs).
      split; [|split].
      * rewrite <- !app_assoc. reflexivity.
      * rewrite !length_app in *. cbn [length] in *.
        apply own_dicts_cons; cbn [ev_loc]; [lia| |lia].
        eapply own_dicts_weaken; [| |exact Hown]; lia.
      * unfold views in *. csimpl. rewrite Hviews. reflexivity.
    + (* the unit raised *)
      exists [d; d], [mkEvent (length (heap w ++ [d])) d ∅].
      split; [|split].
      * rewrite <- !app_assoc. reflexivity.
      * rewrite !length_app. cbn [length].
        apply own_dicts_cons; cbn [ev_loc]; [lia|apply own_dicts_nil|lia].
      * reflexivity.
Qed.

Lemma own_dicts_app lo mid hi evs1 evs2 :
  own_dicts lo mid evs1 → own_dicts mid hi evs2 → lo ≤ mid → mid ≤ hi →
  own_dicts lo hi (evs1 ++ evs2).
Proof.
  intros [Hin1 Hnd1] [Hin2 Hnd2] Hlo Hhi. split.
  - apply Forall_app. split.
    + eapply Forall_impl; [exact Hin1|]. intros e He. simpl in *. lia.
    + eapply Forall_impl; [exact Hin2|]. intros e He. simpl in *. lia.
  - rewrite fmap_app. apply NoDup_app. split; [exact Hnd1|]. split; [|exact Hnd2].
    intros l (e1 & -> & He1)%list_elem_of_fmap (e2 & Heq & He2)%list_elem_of_fmap.
    rewrite Forall_forall in Hin1, Hin2.
    specialize (Hin1 e1 He1). specialize (Hin2 e2 He2). simpl in *. lia.
Qed.

(** The comprehension of [DistributeEditor.call] on the heap: every run
    starts from the items of the caller's dictionary, whatever the runs
    before it wrote. *)
Lemma distribute_runs {A C} (editors : Pipeline A C) (data : list A) :
  ∀ kwargs (w : world) d,
    heap w !! kwargs = Some d →
    ∃ new evs,
      distribute editors data kwargs w =
        (mkWorld (heap w ++ new) (calls w ++ evs), (runs editors data d).2)
      ∧ own_dicts (length (heap w)) (length (heap w ++ new)) evs
      ∧ views evs = (runs editors data d).1.
Proof.
  induction data as [|x data IH]; intros kwargs w d Hd.
  - exists [], []. rewrite !app_nil_r. destruct w. split; [reflexivity|].
    split; [apply own_dicts_nil|reflexivity].
  - cbn [distribute runs]. rewrite M_bind_unfold.
    rewrite (pass_kwargs_unfold _ _ _ _ Hd).
    destruct (clashes ["self"; "data"] d) eqn:Hself.
    { exists [], []. rewrite !app_nil_r. destruct w.
      split; [reflexivity|]. split; [apply own_dicts_nil|reflexivity]. }
    rewrite M_bind_unfold.
    set (w1 := mkWorld (heap w ++ [d]) (calls w)).
    destruct (convertData_run editors x (length (heap w)) w1 d)
      as (new1 & evs1 & Hrun1 & Hown1 & Hviews1).
    { subst w1. cbn [heap]. rewrite lookup_app_r by lia.
      rewrite Nat.sub_diag. reflexivity. }
    rewrite Hrun1. subst w1. cbn [heap calls] in *.
    destruct (run editors x d) as [t [y|e]] eqn:Hx; cbn [fst snd] in *.
    + rewrite M_bind_unfold.
      set (w2 := mkWorld _ _).
      destruct (IH kwargs w2 d) as (new2 & evs2 & Hrun2 & Hown2 & Hviews2).
      { subst w2. cbn [heap]. rewrite <- app_assoc.
        apply lookup_app_l_Some. exact Hd. }
      rewrite Hrun2. subst w2. cbn [heap calls] in *.
      exists (([d] ++ new1) ++ new2), (evs1 ++ evs2). split; [|split].
      * rewrite <- !app_assoc.
        destruct ((runs editors data d).2); reflexivity.
      * rewrite !length_app in *. cbn [length] in *.
        apply (own_dicts_app _ (length (heap w) + 1 + length new1)); [| |lia|lia].
        -- eapply own_dicts_weaken; [| |exact Hown1]; lia.
        -- eapply own_dicts_weaken; [| |exact Hown2]; lia.
      * unfold views in *. rewrite fmap_app, Hviews1, Hviews2. reflexivity.
    + exists ([d] ++ new1), evs1. split; [|split].
      * rewrite <- !app_assoc. reflexivity.
      * rewrite !length_app in *. cbn [length] in *.
        eapply own_dicts_weaken; [| |exact Hown1]; lia.
      * exact Hviews1.
Qed.

(** ** The trace of a run *)

Lemma updated_cons (m : dict) (w : dict) (ws : list dict) :
  updated m (w :: ws) = updated (w ∪ m) ws.
Proof. reflexivity. Qed.


(** What the unit at position [i] saw is the metadata at the start,
    updated by what the units before it wrote. *)
Lemma run_seen {A C} (editors : Pipeline A C) :
  ∀ data (m : dict) i s wr,
    (run editors data m).1 !! i = Some (s, wr) →
    s = updated m ((take i (run editors data m).1).*2).
Proof.
  induction editors as [A|A B C editor rest IH]; intros data m i s wr.
  - discriminate.
  - cbn [run]. destruct (clashes _ m || clashes _ m); [discriminate|].
    destruct (call editor data m) as [[data'|data' add]|e]; cbn [fst snd].
    + destruct i as [|i]; [intros [= <- <-]; reflexivity|].
      cbn [lookup list_lookup take]. intros Hi. csimpl.
      rewrite (left_id_L ∅ (∪)). eapply IH. exact Hi.
    + destruct i as [|i]; [intros [= <- <-]; reflexivity|].
      cbn [lookup list_lookup take]. intros Hi. csimpl.
      eapply IH. exact Hi.
    + destruct i as [|[|i]]; [intros [= <- <-]; reflexivity|discriminate..].
Qed.


(** ** Concatenation along the leading axis *)

Lemma shape_leading_trailing (a : ndarray) : shape a = leading a :: trailing a.
Proof. destruct a; reflexivity. Qed.

Lemma concatenate2_spec (a b out : ndarray) :
  concatenate2 a b = Ok out →
  leading out = leading a + leading b
  ∧ trailing out = trailing a
  ∧ trailing b = trailing a
  ∧ blocks out = blocks a ++ blocks b
  ∧ (ndarray_wf a → ndarray_wf b → ndarray_wf out).
Proof.
  destruct a as [h1 w1 r1|n1 h1 w1 f1], b as [h2 w2 r2|n2 h2 w2 f2];
    simpl; try discriminate.
  - destruct (decide (w1 = w2)) as [<-|]; [|discriminate].
    intros [= <-]. simpl. repeat split; try reflexivity.
    + rewrite length_app. destruct H as [-> _], H0 as [-> _]. reflexivity.
    + apply Forall_app. destruct H as [_ ?], H0 as [_ ?]. split; assumption.
  - destruct (decide (h1 = h2 ∧ w1 = w2)) as [[<- <-]|]; [|discriminate].
    intros [= <-]. simpl. repeat split; try reflexivity.
    + apply fmap_app.
    + rewrite length_app. destruct H as [-> _], H0 as [-> _]. reflexivity.
    + apply Forall_app. destruct H as [_ ?], H0 as [_ ?]. split; assumption.
Qed.

Lemma concatenate2_Ok (a b : ndarray) :
  trailing b = trailing a → is_Ok (concatenate2 a b).
Proof.
  destruct a as [h1 w1 r1|n1 h1 w1 f1], b as [h2 w2 r2|n2 h2 w2 f2];
    simpl; intros Heq; simplify_eq.
  - rewrite decide_True by reflexivity. eexists. reflexivity.
  - rewrite decide_True by (split; reflexivity). eexists. reflexivity.
Qed.

Lemma concatenate_from_spec (rest : list ndarray) :
  ∀ acc out,
    concatenate_from acc rest = Ok out →
    leading out = leading acc + sum_list (leading <$> rest)
    ∧ trailing out = trailing acc
    ∧ Forall (λ b, trailing b = trailing acc) rest
    ∧ blocks out = blocks acc ++ concat (blocks <$> rest)
    ∧ (ndarray_wf acc → Forall ndarray_wf rest → ndarray_wf out).
Proof.
  induction rest as [|b rest IH]; intros acc out; simpl.
  - intros [= <-]. rewrite app_nil_r. repeat split; auto.
  - destruct (concatenate2 acc b) as [acc'|e] eqn:Hab; simpl; [|discriminate].
    intros Hout. apply concatenate2_spec in Hab as (Hl & Ht & Htb & Hb & Hwf).
    destruct (IH _ _ Hout) as (Hl' & Ht' & Hrest & Hb' & Hwf').
    rewrite Hl', Hl, Ht', Ht, Hb', Hb. repeat split.
    + rewrite <- Nat.add_assoc. reflexivity.
    + constructor; [exact Htb|]. eapply Forall_impl; [exact Hrest|].
      intros c Hc. simpl in *. congruence.
    + rewrite <- app_assoc. reflexivity.
    + intros Hacc [Hbwf Hrwf]%Forall_cons. auto.
Qed.

Lemma concatenate_from_Ok (rest : list ndarray) :
  ∀ acc,
    Forall (λ b, trailing b = trailing acc) rest →
    is_Ok (concatenate_from acc rest).
Proof.
  induction rest as [|b rest IH]; intros acc Hrest; simpl.
  - eexists. reflexivity.
  - apply Forall_cons in Hrest as [Hb Hrest].
    destruct (concatenate2_Ok acc b Hb) as [acc' Hacc']. rewrite Hacc'. simpl.
    apply IH. apply concatenate2_spec in Hacc' as (_ & Ht & _).
    eapply Forall_impl; [exact Hrest|]. intros c Hc. simpl in *. congruence.
Qed.

(** [np.concatenate(arrays, 0)] when it returns: the leading sizes add
    up, the other sizes are those of every operand, and the blocks of
    the operands follow one another in the order of the operands. *)
Lemma np_concatenate_spec (arrays : list ndarray) (out : ndarray) :
  np_concatenate arrays = Ok out →
  leading out = sum_list (leading <$> arrays)
  ∧ Forall (λ a, trailing a = trailing out) arrays
  ∧ blocks out = concat (blocks <$> arrays)
  ∧ (Forall ndarray_wf arrays → ndarray_wf out).
Proof.
  destruct arrays as [|a rest]; simpl; [discriminate|].
  intros Hout. apply concatenate_from_spec in Hout as (Hl & Ht & Hrest & Hb & Hwf).
  rewrite Ht. repeat split; try assumption.
  - constructor; [reflexivity|exact Hrest].
  - intros [Ha Hr]%Forall_cons. auto.
Qed.

(** It returns on one operand or more with equal trailing sizes. *)
Lemma np_concatenate_Ok (arrays : list ndarray) :
  arrays ≠ [] →
  (∀ a b, a ∈ arrays → b ∈ arrays → trailing a = trailing b) →
  is_Ok (np_concatenate arrays).
Proof.
  destruct arrays as [|a rest]; [congruence|]. intros _ Hsame. simpl.
  apply concatenate_from_Ok. apply Forall_forall. intros b Hb.
  apply Hsame; [right; exact Hb|left].
Qed.

(** When every run returns, the comprehension returns the results in
    the order of the inputs. *)
Lemma runs_Ok {A C} (editors : Pipeline A C) (data : list A) (m : dict)
    (outs : list C) :
  clashes ["self"; "data"] m = false →
  Forall2 (λ d out, (run editors d m).2 = Ok out) data outs →
  (runs editors data m).2 = Ok outs
  ∧ (runs editors data m).1 = concat ((λ d, (run editors d m).1) <$> data).
Proof.
  intros Hm. induction 1 as [|d out data outs Hd _ [IHr IHt]]; [split; reflexivity|].
  cbn [runs]. rewrite Hm. csimpl.
  destruct (run editors d m) as [t r] eqn:Hrun. simpl in Hd.
  subst r. cbn [fst snd]. rewrite IHr, IHt. split; reflexivity.
Qed.

(** In general the comprehension runs a prefix of the inputs, each
    from the same metadata, and all of them when it returns. *)
Lemma runs_prefix {A C} (editors : Pipeline A C) (data : list A) (m : dict) :
  ∃ n, n ≤ length data
       ∧ (runs editors data m).1
         = concat ((λ d, (run editors d m).1) <$> take n data)
       ∧ (is_Ok (runs editors data m).2 → n = length data).
Proof.
  induction data as [|d data (n & Hn & IH & Hall)].
  { exists 0. split; [reflexivity|]. split; reflexivity. }
  cbn [runs]. destruct (clashes _ m).
  { exists 0. split; [simpl; lia|]. split; [reflexivity|]. intros [? [=]]. }
  destruct (run editors d m) as [t [y|e]] eqn:Hd.
  - exists (S n). split; [simpl; lia|]. cbn [fst snd take]. csimpl.
    rewrite Hd, IH. split; [reflexivity|].
    intros [ys Hys]. f_equal. apply Hall.
    destruct (runs editors data m).2; [eexists; reflexivity|discriminate].
  - exists 1. split; [simpl; lia|]. cbn [fst snd take]. rewrite take_0. csimpl.
    rewrite Hd, app_nil_r. split; [reflexivity|]. intros [? [=]].
Qed.

(** ** The ordering of the metadata *)




(** ** [DistributeEditor] *)

(** [DistributeEditor.call] on the heap, in terms of [runs]. *)
Lemma DistributeEditor_call_runs {A} (editors : Pipeline A ndarray)
    (data : list A) (kwargs : nat) (w : world) (m : dict) :
  heap w !! kwargs = Some m →
  ∃ new evs,
    DistributeEditor_call editors data kwargs w =
      (mkWorld (heap w ++ new) (calls w ++ evs),
       (runs editors data m).2 ≫= np_concatenate)
    ∧ own_dicts (length (heap w)) (length (heap w ++ new)) evs
    ∧ views evs = (runs editors data m).1.
Proof.
  intros Hm.
  destruct (distribute_runs editors data kwargs w m Hm)
    as (new & evs & Hrun & Hown & Hviews).
  exists new, evs. split; [|split; assumption].
  unfold DistributeEditor_call. rewrite M_bind_unfold, Hrun.
  destruct (runs editors data m).2; reflexivity.
Qed.

(** C7. When the run of the sub-pipeline on each input returns an
    array, [DistributeEditor.call] returns [np.concatenate] of these
    arrays in the order of the inputs: a result has the sum of their
    leading sizes as its leading size and their blocks, one array after
    the other, as its blocks; there is a result as soon as there is one
    input and the arrays agree on their trailing sizes. *)
Theorem DistributeEditor_call_concatenates {A} (editors : Pipeline A ndarray)
    (data : list A) (kwargs : nat) (w : world) (m : dict) (outs : list ndarray) :
  heap w !! kwargs = Some m →
  clashes ["self"; "data"] m = false →
  Forall2 (λ d out, (run editors d m).2 = Ok out) data outs →
  ∃ w',
    DistributeEditor_call editors data kwargs w = (w', np_concatenate outs)
    ∧ (∀ out,
         np_concatenate outs = Ok out →
         leading out = sum_list (leading <$> outs)
         ∧ Forall (λ o, trailing o = trailing out) outs
         ∧ blocks out = concat (blocks <$> outs))
    ∧ (outs ≠ [] →
       (∀ a b, a ∈ outs → b ∈ outs → trailing a = trailing b) →
       is_Ok (np_concatenate outs)).
Proof.
  intros Hm Hclash Houts.
  destruct (DistributeEditor_call_runs editors data kwargs w m Hm)
    as (new & evs & Hrun & _ & _).
  destruct (runs_Ok editors data m outs Hclash Houts) as [Hruns _].
  rewrite Hruns in Hrun. eexists. split; [exact Hrun|]. split.
  - intros out Hout.
    apply np_concatenate_spec in Hout as (Hl & Ht & Hb & _). auto.
  - apply np_concatenate_Ok.
Qed.

Lemma DistributeEditor_call_concatenates_witness :
  ∃ w',
    DistributeEditor_call (Then (NanEditor NanEditor_default_nan) Done)
      three_inputs 0 empty_world
    = (w', Ok (Array3 4 1 2 [[[1; 0]]; [[2; 3]]; [[0; 4]]; [[5; 6]]]%float)).
Proof.
  destruct (DistributeEditor_call_concatenates
              (Then (NanEditor NanEditor_default_nan) Done)
              three_inputs 0 empty_world ∅
              (np_nan_to_num NanEditor_default_nan <$> three_inputs))
    as (w' & Hcall & _).
  - reflexivity.
  - reflexivity.
  - repeat constructor.
  - exists w'. exact Hcall.
Defined.

(** C8. [DistributeEditor.call] changes no dictionary that existed
    when it was called, the caller's included; every call of a unit
    gets a dictionary of its own; and the calls made for an input see
    and write what they do when the sub-pipeline runs on this input
    alone from the caller's metadata, whatever the runs on the other
    inputs wrote. The runs cover the inputs up to the first one that
    raises, and all of them when the call returns. *)
Theorem DistributeEditor_call_isolated {A} (editors : Pipeline A ndarray)
    (data : list A) (kwargs : nat) (w : world) (m : dict) :
  heap w !! kwargs = Some m →
  ∃ w' r new evs n,
    DistributeEditor_call editors data kwargs w = (w', r)
    ∧ heap w' = heap w ++ new
    ∧ heap w' !! kwargs = Some m
    ∧ calls w' = calls w ++ evs
    ∧ own_dicts (length (heap w)) (length (heap w')) evs
    ∧ n ≤ length data
    ∧ views evs = concat ((λ d, (run editors d m).1) <$> take n data)
    ∧ (is_Ok r → n = length data).
Proof.
  intros Hm.
  destruct (DistributeEditor_call_runs editors data kwargs w m Hm)
    as (new & evs & Hrun & Hown & Hviews).
  destruct (runs_prefix editors data m) as (n & Hn & Htrace & Hall).
  eexists _, _, new, evs, n. split; [exact Hrun|]. cbn [heap calls].
  split; [reflexivity|]. split; [apply lookup_app_l_Some; exact Hm|].
  split; [reflexivity|]. split; [exact Hown|]. split; [exact Hn|].
  split; [rewrite Hviews; exact Htrace|].
  intros [out Hout]. apply Hall.
  destruct (runs editors data m).2; [eexists; reflexivity|discriminate].
Qed.

Lemma DistributeEditor_call_isolated_witness :
  ∃ w' evs,
    (DistributeEditor_call
       (Then marks (Then (NanEditor NanEditor_default_nan) Done))
       three_inputs 0 empty_world).1 = w'
    ∧ heap w' !! 0 = Some ∅
    ∧ calls w' = evs
    ∧ ev_seen <$> evs
      = [∅; {["mark" := VNum 1]}; ∅; {["mark" := VNum 1]};
         ∅; {["mark" := VNum 1]}].
Proof.
  destruct (DistributeEditor_call_isolated
              (Then marks (Then (NanEditor NanEditor_default_nan) Done))
              three_inputs 0 empty_world ∅ eq_refl)
    as (w' & r & new & evs & n & Hcall & _ & Hcaller & Hcalls & _ & _ & _ & _).
  exists w', evs. rewrite Hcall. split; [reflexivity|].
  split; [exact Hcaller|]. split; [exact Hcalls|].
  assert (calls w' = calls (DistributeEditor_call
             (Then marks (Then (NanEditor NanEditor_default_nan) Done))
             three_inputs 0 empty_world).1) as Heq by (rewrite Hcall; reflexivity).
  rewrite Hcalls in Heq. simpl in Heq. rewrite Heq. vm_compute. reflexivity.
Defined.

(** * Further properties of the source *)

(** ** [Editor.convert] *)

Lemma clashes_false (params : list string) (d : dict) :
  clashes params d = false ↔ Forall (λ k, d !! k = None) params.
Proof.
  unfold clashes. induction params as [|k params IH]; simpl.
  - split; [constructor|reflexivity].
  - rewrite orb_false_iff, IH, Forall_cons, bool_decide_eq_false.
    rewrite <- eq_None_not_Some. reflexivity.
Qed.

Lemma clashes_true (params : list string) (d : dict) (k : string) :
  k ∈ params → is_Some (d !! k) → clashes params d = true.
Proof.
  intros Hk Hd. destruct (clashes params d) eqn:Hc; [reflexivity|].
  apply clashes_false in Hc. rewrite Forall_forall in Hc.
  rewrite (Hc k Hk) in Hd. destruct Hd as [? [=]].
Qed.

(** X1. When the dictionary given to [convert] holds no key that names
    a parameter of [call] and [call] returns a tuple, [convert] returns
    the data of the tuple and the dictionary it was given, which now
    holds the items of [add_kwargs] over its own: a key of [add_kwargs]
    has the value [call] gave it and every other key keeps its value.
    The dictionary [call] was handed is another object, which still
    holds the items as they were; no other dictionary changes. *)
Theorem convert_updates {A B} (self : Editor A B) (data : A) (kwargs : nat)
    (w : world) (d : dict) (data' : B) (add_kwargs : dict) :
  heap w !! kwargs = Some d →
  clashes ["self"; param self] d = false →
  call self data d = Ok (DataAnd data' add_kwargs) →
  ∃ w' d',
    convert self data kwargs w = (w', Ok (data', kwargs))
    ∧ heap w' !! kwargs = Some d'
    ∧ (∀ k v, add_kwargs !! k = Some v → d' !! k = Some v)
    ∧ (∀ k, add_kwargs !! k = None → d' !! k = d !! k)
    ∧ length (heap w') = S (length (heap w))
    ∧ heap w' !! length (heap w) = Some d
    ∧ ∀ l, l ≠ kwargs → l < length (heap w) → heap w' !! l = heap w !! l.
Proof.
  intros Hd Hclash Hcall.
  pose proof (lookup_lt_Some _ _ _ Hd) as Hlt.
  rewrite (convert_unfold self data kwargs w d Hd), Hclash, Hcall. cbv zeta.
  eexists _, (add_kwargs ∪ d). split; [reflexivity|]. cbn [heap].
  split; [|split; [|split; [|split; [|split]]]].
  - rewrite list_lookup_alter_eq, lookup_app_l, Hd by exact Hlt. reflexivity.
  - intros k v Hk. apply lookup_union_Some_l. exact Hk.
  - intros k Hk. apply lookup_union_r. exact Hk.
  - rewrite length_alter, length_app. simpl. lia.
  - rewrite list_lookup_alter_ne by lia.
    rewrite lookup_app_r, Nat.sub_diag by lia. reflexivity.
  - intros l Hne Hl. rewrite list_lookup_alter_ne by congruence.
    apply lookup_app_l. exact Hl.
Qed.

Lemma convert_updates_witness :
  ∃ w' d',
    convert writes_k None 0 (mkWorld [{["k" := VNum 0; "j" := VNum 2]}] [])
      = (w', Ok (None, 0))
    ∧ heap w' !! 0 = Some d'
    ∧ d' !! "k" = Some (VNum 1)
    ∧ d' !! "j" = Some (VNum 2)
    ∧ heap w' !! 1 = Some {["k" := VNum 0; "j" := VNum 2]}.
Proof.
  destruct (convert_updates writes_k None 0
              (mkWorld [{["k" := VNum 0; "j" := VNum 2]}] [])
              {["k" := VNum 0; "j" := VNum 2]} None {["k" := VNum 1]})
    as (w' & d' & Hcall & Hd' & Hnew & Hold & _ & Hcopy & _).
  - reflexivity.
  - reflexivity.
  - reflexivity.
  - exists w', d'. split; [exact Hcall|]. split; [exact Hd'|].
    split; [apply Hnew; reflexivity|].
    split; [rewrite Hold; reflexivity|exact Hcopy].
Defined.

(** X2. [convert] has no handler: when [call] raises, [convert] raises
    the same exception, and every dictionary that existed, the one
    given to [convert] included, holds what it held. *)
Theorem convert_raises {A B} (self : Editor A B) (data : A) (kwargs : nat)
    (w : world) (d : dict) (e : exn) :
  heap w !! kwargs = Some d →
  clashes ["self"; param self] d = false →
  call self data d = Raise e →
  ∃ w',
    convert self data kwargs w = (w', Raise e)
    ∧ ∀ l, l < length (heap w) → heap w' !! l = heap w !! l.
Proof.
  intros Hd Hclash Hcall.
  rewrite (convert_unfold self data kwargs w d Hd), Hclash, Hcall. cbv zeta.
  eexists. split; [reflexivity|]. cbn [heap].
  intros l Hl. apply lookup_app_l. exact Hl.
Qed.

Lemma convert_raises_witness :
  ∃ w',
    convert (UnpaddingEditor (1, 1)%Z) (image 7) 0 (mkWorld [{["k" := VNum 1]}] [])
      = (w', Raise TypeError)
    ∧ heap w' !! 0 = Some {["k" := VNum 1]}.
Proof.
  destruct (convert_raises (UnpaddingEditor (1, 1)%Z) (image 7) 0
              (mkWorld [{["k" := VNum 1]}] []) {["k" := VNum 1]} TypeError)
    as (w' & Hcall & Hkeep).
  - reflexivity.
  - reflexivity.
  - reflexivity.
  - exists w'. split; [exact Hcall|]. apply (Hkeep 0). simpl. lia.
Defined.

(** X3. A key of the metadata that names a parameter of [call] -- the
    key "self" or the name of the data parameter -- makes [convert]
    raise [TypeError] before [call] runs: no call is made and no
    dictionary changes. *)
Theorem convert_rejects_parameter_key {A B} (self : Editor A B) (data : A)
    (kwargs : nat) (w : world) (d : dict) (k : string) :
  heap w !! kwargs = Some d →
  k = "self" ∨ k = param self →
  is_Some (d !! k) →
  convert self data kwargs w = (w, Raise TypeError).
Proof.
  intros Hd Hk Hsome.
  rewrite (convert_unfold self data kwargs w d Hd).
  rewrite (clashes_true _ d k); [reflexivity| |exact Hsome].
  destruct Hk as [->| ->]; [left|right; left].
Qed.

Lemma convert_rejects_parameter_key_witness :
  convert (NanEditor NanEditor_default_nan) (image 7) 0
    (mkWorld [{["data" := VNum 1]}] [])
  = (mkWorld [{["data" := VNum 1]}] [], Raise TypeError).
Proof.
  apply (convert_rejects_parameter_key (NanEditor NanEditor_default_nan)
           (image 7) 0 (mkWorld [{["data" := VNum 1]}] [])
           {["data" := VNum 1]} "data").
  - reflexivity.
  - right. reflexivity.
  - eexists. reflexivity.
Defined.

(** ** [DistributeEditor.convertData] *)

(** X4. A unit that returns an update under the key "data" or "self"
    ends the run: the call [editor.convert(data, **kwargs)] for the
    next unit raises [TypeError], and the unit that wrote the key is
    the last one called. *)
Theorem convertData_parameter_key {A B C} (editor : Editor A B)
    (rest : Pipeline B C) (data : A) (kwargs : nat) (w : world) (m : dict)
    (data' : B) (add_kwargs : dict) (k : string) :
  heap w !! kwargs = Some m →
  clashes ["self"; "data"] m = false →
  clashes ["self"; param editor] m = false →
  call editor data m = Ok (DataAnd data' add_kwargs) →
  k = "self" ∨ k = "data" →
  is_Some (add_kwargs !! k) →
  0 < n_units rest →
  ∃ w' ev,
    convertData (Then editor rest) data kwargs w = (w', Raise TypeError)
    ∧ calls w' = calls w ++ [ev]
    ∧ ev_seen ev = m
    ∧ ev_wrote ev = add_kwargs.
Proof.
  intros Hm Hself Hparam Hcall Hk Hsome Hrest.
  destruct (convertData_run (Then editor rest) data kwargs w m Hm)
    as (new & evs & Hrun & _ & Hviews).
  cbn [run] in Hrun, Hviews. rewrite Hself, Hparam, Hcall in Hrun, Hviews.
  cbn [orb fst snd] in Hrun, Hviews.
  assert (run rest data' (add_kwargs ∪ m) = ([], Raise TypeError)) as Hnext.
  { destruct rest as [|B' C' D' next rest']; [simpl in Hrest; lia|].
    cbn [run].
    rewrite (clashes_true ["self"; "data"] (add_kwargs ∪ m) k); [reflexivity| |].
    - destruct Hk as [->| ->]; [left|right; left].
    - destruct Hsome as [v Hv]. exists v. apply lookup_union_Some_l. exact Hv. }
  rewrite Hnext in Hrun, Hviews. cbn [fst snd] in Hrun, Hviews.
  destruct evs as [|ev [|ev' evs]]; try discriminate Hviews.
  injection Hviews as Hseen Hwrote.
  eexists _, ev. split; [exact Hrun|]. cbn [calls]. auto.
Qed.

Lemma convertData_parameter_key_witness :
  ∃ w' ev,
    convertData (Then writes_data (Then (NanEditor NanEditor_default_nan) Done))
      (image 7) 0 empty_world
    = (w', Raise TypeError)
    ∧ calls w' = [ev]
    ∧ ev_wrote ev = {["data" := VNum 1]}.
Proof.
  destruct (convertData_parameter_key writes_data
              (Then (NanEditor NanEditor_default_nan) Done)
              (image 7) 0 empty_world ∅ (image 7) {["data" := VNum 1]} "data")
    as (w' & ev & Hrun & Hcalls & _ & Hwrote).
  - reflexivity.
  - reflexivity.
  - reflexivity.
  - reflexivity.
  - right. reflexivity.
  - eexists. reflexivity.
  - simpl. lia.
  - exists w', ev. split; [exact Hrun|]. split; [exact Hcalls|exact Hwrote].
Defined.

(** ** The metadata along a run *)

Lemma updated_app (m : dict) (ws1 ws2 : list dict) :
  updated m (ws1 ++ ws2) = updated (updated m ws1) ws2.
Proof. unfold updated. apply foldl_app. Qed.

Lemma updated_keeps (ws : list dict) :
  ∀ (m : dict) k, is_Some (m !! k) → is_Some (updated m ws !! k).
Proof.
  induction ws as [|w ws IH]; intros m k Hk; [exact Hk|].
  rewrite updated_cons. apply IH. destruct Hk as [v Hv].
  destruct (w !! k) as [v'|] eqn:Hw.
  - exists v'. apply lookup_union_Some_l. exact Hw.
  - exists v. rewrite lookup_union_r by exact Hw. exact Hv.
Qed.

Lemma updated_frame (ws : list dict) :
  ∀ (m : dict) k, Forall (λ w, w !! k = None) ws → updated m ws !! k = m !! k.
Proof.
  induction ws as [|w ws IH]; intros m k Hws; [reflexivity|].
  apply Forall_cons in Hws as [Hw Hws].
  rewrite updated_cons, (IH _ _ Hws). apply lookup_union_r. exact Hw.
Qed.

(** X5. No unit takes a key out of the metadata of a run: a key that
    the call at position [i] sees is seen by every later call, and with
    the same value as long as no call from [i] on returned an update
    under this key. *)
Theorem convertData_keeps_keys {A C} (editors : Pipeline A C) (data : A)
    (kwargs : nat) (w : world) (m : dict) :
  heap w !! kwargs = Some m →
  ∃ w' r evs,
    convertData editors data kwargs w = (w', r)
    ∧ calls w' = calls w ++ evs
    ∧ ∀ i j ei ej k,
        i ≤ j → evs !! i = Some ei → evs !! j = Some ej →
        (is_Some (ev_seen ei !! k) → is_Some (ev_seen ej !! k))
        ∧ ((∀ l e, i ≤ l < j → evs !! l = Some e → ev_wrote e !! k = None) →
           ev_seen ej !! k = ev_seen ei !! k).
Proof.
  intros Hm.
  destruct (convertData_run editors data kwargs w m Hm)
    as (new & evs & Hrun & _ & Hviews).
  eexists _, _, evs. split; [exact Hrun|]. split; [reflexivity|].
  intros i j ei ej k Hij Hi Hj.
  assert (∀ n e, evs !! n = Some e →
                 ev_seen e = updated m (ev_wrote <$> take n evs)) as Hseen.
  { intros n e He.
    assert ((run editors data m).1 !! n = Some (ev_seen e, ev_wrote e)) as Hn.
    { rewrite <- Hviews. unfold views. rewrite list_lookup_fmap, He. reflexivity. }
    apply run_seen in Hn. rewrite Hn, <- Hviews. unfold views.
    rewrite <- fmap_take, <- list_fmap_compose. reflexivity. }
  assert (ev_seen ej
          = updated (ev_seen ei) (ev_wrote <$> drop i (take j evs))) as Hstep.
  { rewrite (Hseen j ej Hj), (Hseen i ei Hi), <- updated_app, <- fmap_app.
    do 2 f_equal. rewrite <- (take_drop i (take j evs)) at 1.
    f_equal. rewrite take_take. f_equal. lia. }
  rewrite Hstep. split; [apply updated_keeps|].
  intros Hnone. apply updated_frame. apply Forall_fmap, Forall_lookup.
  intros l e Hl. rewrite lookup_drop in Hl.
  apply lookup_take_Some in Hl as [Hl Hlt]. simpl.
  apply (Hnone (i + l) e); [lia|exact Hl].
Qed.

Lemma convertData_keeps_keys_witness :
  ∃ w' r evs,
    convertData (Then writes_k (Then reads_k (Then reads_k Done))) None 0
      empty_world = (w', r)
    ∧ calls w' = evs
    ∧ ∀ e1 e2,
        evs !! 1 = Some e1 → evs !! 2 = Some e2 →
        is_Some (ev_seen e1 !! "k") → is_Some (ev_seen e2 !! "k").
Proof.
  destruct (convertData_keeps_keys
              (Then writes_k (Then reads_k (Then reads_k Done))) None 0
              empty_world ∅ eq_refl)
    as (w' & r & evs & Hrun & Hcalls & Hkeys).
  exists w', r, evs. split; [exact Hrun|]. split; [exact Hcalls|].
  intros e1 e2 H1 H2. apply (Hkeys 1 2 e1 e2 "k"); [lia|exact H1|exact H2].
Defined.

(** ** [MapToDataEditor] *)

(** X6. In a pipeline [MapToDataEditor] hands the pixels of the map to
    the units after it and leaves the header of the map under the key
    "header" of the metadata, in place of any value the key had; the
    other keys keep their values. The metadata must hold none of the
    keys "self", "data" and "s_map". *)
Theorem MapToDataEditor_then {C} (rest : Pipeline ndarray C) (s_map : Map)
    (kwargs : nat) (w : world) (m : dict) :
  heap w !! kwargs = Some m →
  m !! "self" = None → m !! "data" = None → m !! "s_map" = None →
  ∃ w' ev evs,
    convertData (Then MapToDataEditor rest) s_map kwargs w
      = (w', (run rest (map_data s_map)
                (<["header" := VHeader (map_meta s_map)]> m)).2)
    ∧ calls w' = calls w ++ ev :: evs
    ∧ ev_seen ev = m
    ∧ ev_wrote ev = {["header" := VHeader (map_meta s_map)]}
    ∧ views evs = (run rest (map_data s_map)
                     (<["header" := VHeader (map_meta s_map)]> m)).1.
Proof.
  intros Hm Hself Hdata Hsmap.
  destruct (convertData_run (Then MapToDataEditor rest) s_map kwargs w m Hm)
    as (new & evs & Hrun & _ & Hviews).
  cbn [run] in Hrun, Hviews.
  assert (clashes ["self"; "data"] m = false) as Hc1
    by (apply clashes_false; repeat constructor; assumption).
  assert (clashes ["self"; param MapToDataEditor] m = false) as Hc2
    by (apply clashes_false; repeat constructor; assumption).
  rewrite Hc1, Hc2 in Hrun, Hviews.
  cbn [orb call MapToDataEditor MapToDataEditor_call fst snd] in Hrun, Hviews.
  rewrite <- insert_union_singleton_l in Hrun, Hviews.
  destruct evs as [|ev evs]; [discriminate Hviews|].
  injection Hviews as Hseen Hwrote Hrest.
  eexists _, ev, evs. split; [exact Hrun|]. cbn [calls]. auto.
Qed.

Lemma MapToDataEditor_then_witness :
  ∃ w',
    convertData (Then MapToDataEditor Done)
      (mkMap (image 7) {[ "TIMEOFFS" := HNum 0 ]}) 0
      (mkWorld [{["header" := VNum 1; "path" := VStr "a.fits"]}] [])
    = (w', Ok (image 7)).
Proof.
  destruct (MapToDataEditor_then Done (mkMap (image 7) {[ "TIMEOFFS" := HNum 0 ]})
              0 (mkWorld [{["header" := VNum 1; "path" := VStr "a.fits"]}] [])
              {["header" := VNum 1; "path" := VStr "a.fits"]})
    as (w' & ev & evs & Hrun & _).
  - reflexivity.
  - reflexivity.
  - reflexivity.
  - reflexivity.
  - exists w'. exact Hrun.
Defined.

(** X7. [DistributeEditor] over [MapToDataEditor] alone stacks the
    pixels of the maps, in the order of the maps; the headers it leaves
    under "header" stay in the dictionaries of the runs, and the
    caller's metadata holds what it held. *)
Theorem DistributeEditor_call_maps (maps : list Map) (kwargs : nat) (w : world)
    (m : dict) :
  heap w !! kwargs = Some m →
  m !! "self" = None → m !! "data" = None → m !! "s_map" = None →
  ∃ w',
    DistributeEditor_call (Then MapToDataEditor Done) maps kwargs w
      = (w', np_concatenate (map_data <$> maps))
    ∧ heap w' !! kwargs = Some m.
Proof.
  intros Hm Hself Hdata Hsmap.
  assert (clashes ["self"; "data"] m = false) as Hc1
    by (apply clashes_false; repeat constructor; assumption).
  assert (clashes ["self"; param MapToDataEditor] m = false) as Hc2
    by (apply clashes_false; repeat constructor; assumption).
  destruct (DistributeEditor_call_runs (Then MapToDataEditor Done) maps kwargs
              w m Hm) as (new & evs & Hrun & _ & _).
  destruct (runs_Ok (Then MapToDataEditor Done) maps m (map_data <$> maps) Hc1)
    as [Hruns _].
  { apply Forall2_fmap_r, Forall_Forall2_diag, Forall_forall.
    intros s_map _. cbn [run]. rewrite Hc1, Hc2. reflexivity. }
  rewrite Hruns in Hrun. eexists. split; [exact Hrun|].
  cbn [heap]. apply lookup_app_l_Some. exact Hm.
Qed.

Lemma DistributeEditor_call_maps_witness :
  ∃ w',
    DistributeEditor_call (Then MapToDataEditor Done)
      [mkMap (image 7) ∅; mkMap (image 8) ∅] 0 empty_world
    = (w', Ok (Array2 2 1 [[7]; [8]]%float))
    ∧ heap w' !! 0 = Some ∅.
Proof.
  destruct (DistributeEditor_call_maps [mkMap (image 7) ∅; mkMap (image 8) ∅]
              0 empty_world ∅)
    as (w' & Hcall & Hkeep).
  - reflexivity.
  - reflexivity.
  - reflexivity.
  - reflexivity.
  - exists w'. split; [exact Hcall|exact Hkeep].
Defined.

(** ** [DistributeEditor.call] when it raises *)

Lemma concatenate_from_raises (rest : list ndarray) :
  ∀ acc e, concatenate_from acc rest = Raise e → e = ValueError.
Proof.
  induction rest as [|b rest IH]; intros acc e; simpl; [discriminate|].
  destruct (concatenate2 acc b) as [acc'|e'] eqn:Hab; simpl.
  - apply IH.
  - intros [= <-].
    destruct acc as [h1 w1 r1|n1 h1 w1 f1], b as [h2 w2 r2|n2 h2 w2 f2];
      simpl in Hab; try (injection Hab as <-; reflexivity).
    + destruct (decide _); [discriminate|]. injection Hab as <-. reflexivity.
    + destruct (decide _); [discriminate|]. injection Hab as <-. reflexivity.
Qed.

(** [np.concatenate(arrays, 0)] raises nothing but [ValueError]. *)
Lemma np_concatenate_raises (arrays : list ndarray) (e : exn) :
  np_concatenate arrays = Raise e → e = ValueError.
Proof.
  destruct arrays as [|a rest]; simpl; [intros [= <-]; reflexivity|].
  apply concatenate_from_raises.
Qed.

(** X8. When the run on every input returns an array,
    [DistributeEditor.call] raises [ValueError] where there is no input
    at all and where two of the arrays differ in rank or in a size
    other than the leading one. *)
Theorem DistributeEditor_call_rejects_shapes {A} (editors : Pipeline A ndarray)
    (data : list A) (kwargs : nat) (w : world) (m : dict) (outs : list ndarray) :
  heap w !! kwargs = Some m →
  clashes ["self"; "data"] m = false →
  Forall2 (λ d out, (run editors d m).2 = Ok out) data outs →
  data = [] ∨ (∃ a b, a ∈ outs ∧ b ∈ outs ∧ trailing a ≠ trailing b) →
  ∃ w', DistributeEditor_call editors data kwargs w = (w', Raise ValueError).
Proof.
  intros Hm Hclash Houts Hbad.
  destruct (DistributeEditor_call_runs editors data kwargs w m Hm)
    as (new & evs & Hrun & _ & _).
  destruct (runs_Ok editors data m outs Hclash Houts) as [Hruns _].
  rewrite Hruns in Hrun. cbn [mbind result_bind] in Hrun.
  eexists. rewrite Hrun. f_equal.
  destruct (np_concatenate outs) as [out|e] eqn:Hcat.
  - exfalso. destruct Hbad as [->|(a & b & Ha & Hb & Hne)].
    + apply Forall2_nil_inv_l in Houts as ->. discriminate Hcat.
    + apply np_concatenate_spec in Hcat as (_ & Htrail & _).
      rewrite Forall_forall in Htrail.
      apply Hne. rewrite (Htrail a Ha), (Htrail b Hb). reflexivity.
  - f_equal. eapply np_concatenate_raises. exact Hcat.
Qed.

Lemma DistributeEditor_call_rejects_shapes_witness :
  ∃ w',
    DistributeEditor_call (Then (NanEditor NanEditor_default_nan) Done)
      [image 1; Array2 1 2 [[1; 2]]%float] 0 empty_world
    = (w', Raise ValueError).
Proof.
  apply (DistributeEditor_call_rejects_shapes
           (Then (NanEditor NanEditor_default_nan) Done)
           [image 1; Array2 1 2 [[1; 2]]%float] 0 empty_world ∅
           [image 1; Array2 1 2 [[1; 2]]%float]).
  - reflexivity.
  - reflexivity.
  - repeat constructor.
  - right. exists (image 1), (Array2 1 2 [[1; 2]]%float).
    split; [left|]. split; [right; left|]. discriminate.
Defined.

Lemma runs_first_failure {A C} (editors : Pipeline A C) (m : dict) (e : exn) :
  clashes ["self"; "data"] m = false →
  ∀ (data : list A) (k : nat) (d : A),
    data !! k = Some d →
    (run editors d m).2 = Raise e →
    (∀ j d', j < k → data !! j = Some d' → is_Ok (run editors d' m).2) →
    (runs editors data m).2 = Raise e
    ∧ (runs editors data m).1
      = concat ((λ d, (run editors d m).1) <$> take (S k) data).
Proof.
  intros Hclash. induction data as [|x data IH]; intros k d Hk Hd Hbefore;
    [discriminate|].
  cbn [runs]. rewrite Hclash. destruct k as [|k].
  - injection Hk as ->. destruct (run editors d m) as [t r] eqn:Hrun.
    simpl in Hd. subst r. cbn [fst snd take]. rewrite take_0. csimpl.
    rewrite Hrun, app_nil_r. split; reflexivity.
  - destruct (Hbefore 0 x ltac:(lia) eq_refl) as [y Hy].
    destruct (run editors x m) as [t r] eqn:Hx. simpl in Hy. subst r.
    destruct (IH k d Hk Hd) as [Hr Ht].
    { intros j d' Hj Hd'. apply (Hbefore (S j) d'); [lia|exact Hd']. }
    cbn [fst snd]. rewrite Hr, Ht. cbn [take]. csimpl. rewrite Hx.
    split; reflexivity.
Qed.

(** X9. The first input on which the sub-pipeline raises ends
    [DistributeEditor.call] with the exception of this run: the units
    were called for the inputs up to this one, as they are when each is
    run alone from the caller's metadata, and for no input after it. *)
Theorem DistributeEditor_call_first_failure {A} (editors : Pipeline A ndarray)
    (data : list A) (kwargs : nat) (w : world) (m : dict) (k : nat) (d : A)
    (e : exn) :
  heap w !! kwargs = Some m →
  clashes ["self"; "data"] m = false →
  data !! k = Some d →
  (run editors d m).2 = Raise e →
  (∀ j d', j < k → data !! j = Some d' → is_Ok (run editors d' m).2) →
  ∃ w' evs,
    DistributeEditor_call editors data kwargs w = (w', Raise e)
    ∧ calls w' = calls w ++ evs
    ∧ views evs = concat ((λ d, (run editors d m).1) <$> take (S k) data).
Proof.
  intros Hm Hclash Hk Hd Hbefore.
  destruct (DistributeEditor_call_runs editors data kwargs w m Hm)
    as (new & evs & Hrun & _ & Hviews).
  destruct (runs_first_failure editors m e Hclash data k d Hk Hd Hbefore)
    as [Hr Ht].
  rewrite Hr in Hrun. rewrite Ht in Hviews.
  eexists _, evs. split; [exact Hrun|]. split; [reflexivity|exact Hviews].
Qed.

Lemma DistributeEditor_call_first_failure_witness :
  ∃ w' evs,
    DistributeEditor_call (Then (UnpaddingEditor (1, 1)%Z) Done)
      [image 1; image 2] 0 empty_world
    = (w', Raise TypeError)
    ∧ calls w' = evs
    ∧ length evs = 1.
Proof.
  destruct (DistributeEditor_call_first_failure
              (Then (UnpaddingEditor (1, 1)%Z) Done)
              [image 1; image 2] 0 empty_world ∅ 0 (image 1) TypeError)
    as (w' & evs & Hcall & Hcalls & Hviews).
  - reflexivity.
  - reflexivity.
  - reflexivity.
  - reflexivity.
  - intros j d' Hj. lia.
  - exists w', evs. split; [exact Hcall|]. split; [exact Hcalls|].
    apply (f_equal length) in Hviews. unfold views in Hviews.
    rewrite length_fmap in Hviews. exact Hviews.
Defined.

(** ** [PaddingEditor] under [DistributeEditor] *)

Lemma PaddingEditor_call_stack (H W : Z) (n h w : nat) (frames : list plane)
    (kwargs : dict) :
  (Z.of_nat h <= H)%Z → (Z.of_nat w <= W)%Z →
  ∃ out,
    PaddingEditor_call (H, W) (Array3 n h w frames) kwargs = Ok (Data out)
    ∧ leading out = n
    ∧ trailing out = [Z.to_nat H; Z.to_nat W].
Proof.
  intros Hh Hw.
  pose proof (halves_sum (H - Z.of_nat h)) as [Hsx _].
  pose proof (halves_sum (W - Z.of_nat w)) as [Hsy _].
  destruct (halves_nonneg (H - Z.of_nat h) ltac:(lia)) as [Hfx Hcx].
  destruct (halves_nonneg (W - Z.of_nat w) ltac:(lia)) as [Hfy Hcy].
  pose proof (pad_width_ok_halves (H - Z.of_nat h) ltac:(lia)) as Hokx.
  pose proof (pad_width_ok_halves (W - Z.of_nat w) ltac:(lia)) as Hoky.
  unfold PaddingEditor_call. simpl shape. rewrite PaddingEditor_pad_3.
  cbn [mbind result_bind fst snd].
  rewrite np_pad_Array3 by (assumption || reflexivity). cbv zeta.
  cbn [mbind result_bind]. eexists. split; [reflexivity|].
  cbn [leading trailing fst snd]. change (Z.to_nat 0) with 0.
  split; [lia|]. f_equal; [lia|]. f_equal. lia.
Qed.

(** X10. [DistributeEditor] over [PaddingEditor] stacks arrays of rank
    three whose two trailing sizes differ, as long as none exceeds the
    target: the result has the frames of all inputs and the target as
    its trailing sizes. *)
Theorem DistributeEditor_call_pads (H W : Z) (data : list ndarray)
    (kwargs : nat) (w : world) (m : dict) :
  heap w !! kwargs = Some m →
  m !! "self" = None → m !! "data" = None →
  data ≠ [] →
  Forall (λ a, ∃ n h w frames,
            a = Array3 n h w frames
            ∧ (Z.of_nat h <= H)%Z ∧ (Z.of_nat w <= W)%Z) data →
  ∃ w' out,
    DistributeEditor_call (Then (PaddingEditor (H, W)) Done) data kwargs w
      = (w', Ok out)
    ∧ shape out = [sum_list (leading <$> data); Z.to_nat H; Z.to_nat W].
Proof.
  intros Hm Hself Hdata Hne Hfit.
  assert (clashes ["self"; "data"] m = false) as Hclash
    by (apply clashes_false; repeat constructor; assumption).
  set (padded := λ a : ndarray,
         match PaddingEditor_call (H, W) a m with
         | Ok (Data out) => out
         | _ => a
         end).
  assert (Forall (λ a, (run (Then (PaddingEditor (H, W)) Done) a m).2
                       = Ok (padded a)
                       ∧ leading (padded a) = leading a
                       ∧ trailing (padded a) = [Z.to_nat H; Z.to_nat W]) data)
    as Hruns.
  { eapply Forall_impl; [exact Hfit|].
    intros a (n & h & w0 & frames & -> & Hh & Hw).
    destruct (PaddingEditor_call_stack H W n h w0 frames m Hh Hw)
      as (out & Hcall & Hlead & Htrail).
    cbn [run]. rewrite Hclash. cbn [orb param call PaddingEditor].
    rewrite Hclash. subst padded. cbv beta. rewrite Hcall. auto. }
  destruct (DistributeEditor_call_runs (Then (PaddingEditor (H, W)) Done) data
              kwargs w m Hm) as (new & evs & Hrun & _ & _).
  destruct (runs_Ok (Then (PaddingEditor (H, W)) Done) data m (padded <$> data)
              Hclash) as [Hok _].
  { apply Forall2_fmap_r, Forall_Forall2_diag.
    eapply Forall_impl; [exact Hruns|]. intros a [Ha _]. exact Ha. }
  rewrite Hok in Hrun. cbn [mbind result_bind] in Hrun.
  destruct (np_concatenate_Ok (padded <$> data)) as [out Hout].
  { destruct data; [congruence|discriminate]. }
  { rewrite Forall_forall in Hruns.
    intros a b (a' & -> & Ha)%list_elem_of_fmap (b' & -> & Hb)%list_elem_of_fmap.
    destruct (Hruns a' Ha) as (_ & _ & ->).
    destruct (Hruns b' Hb) as (_ & _ & ->). reflexivity. }
  rewrite Hout in Hrun. eexists _, out. split; [exact Hrun|].
  apply np_concatenate_spec in Hout as (Hlead & Htrail & _).
  rewrite shape_leading_trailing, Hlead. f_equal.
  - f_equal. rewrite <- list_fmap_compose. apply Forall_fmap_ext_1.
    eapply Forall_impl; [exact Hruns|]. intros a (_ & Ha & _). exact Ha.
  - destruct data as [|a data]; [congruence|].
    apply Forall_cons in Hruns as [(_ & _ & Ha) _].
    apply Forall_cons in Htrail as [<- _]. exact Ha.
Qed.

Lemma DistributeEditor_call_pads_witness :
  ∃ w' out,
    DistributeEditor_call (Then (PaddingEditor (2, 2)%Z) Done)
      [Array3 1 1 2 [[[1; 2]]]%float; Array3 2 2 1 [[[3]; [4]]; [[5]; [6]]]%float]
      0 empty_world
    = (w', Ok out)
    ∧ shape out = [3; 2; 2].
Proof.
  apply (DistributeEditor_call_pads 2 2
           [Array3 1 1 2 [[[1; 2]]]%float;
            Array3 2 2 1 [[[3]; [4]]; [[5]; [6]]]%float]
           0 empty_world ∅).
  - reflexivity.
  - reflexivity.
  - reflexivity.
  - discriminate.
  - repeat constructor.
    + exists 1, 1, 2, [[[1; 2]]]%float. split; [reflexivity|]. simpl. lia.
    + exists 2, 2, 1, [[[3]; [4]]; [[5]; [6]]]%float.
      split; [reflexivity|]. simpl. lia.
Defined.

(** ** The loaders *)

Lemma sort_keyed_perm {A} (l s : list (hval * A)) :
  sort_keyed l = Ok s → s ≡ₚ l.
Proof.
  revert s. induction l as [|x l IH]; simpl; intros s Hs.
  - injection Hs as <-. reflexivity.
  - destruct (sort_keyed l) as [s'|e]; simpl in Hs; [|discriminate].
    rewrite (insert_keyed_perm _ _ _ Hs), (IH s' eq_refl). reflexivity.
Qed.

(** Whenever [sorted] returns, it returns a permutation. *)
Lemma sorted_perm {A} (key : A → result hval) (l s : list A) :
  sorted key l = Ok s → s ≡ₚ l.
Proof.
  unfold sorted. fold (keyed key l).
  destruct (keyed key l) as [kl|e] eqn:Hkl; simpl; [|discriminate].
  destruct (sort_keyed kl) as [ks|e] eqn:Hks; simpl; [|discriminate].
  intros [= <-]. apply keyed_Ok in Hkl as [<- _].
  apply sort_keyed_perm in Hks. rewrite Hks. reflexivity.
Qed.

Lemma every_second_length {A} (l : list A) :
  length (every_second l) = (length l + 1) / 2.
Proof.
  assert (∀ l : list A,
            length (every_second l) = (length l + 1) / 2
            ∧ ∀ x, length (every_second (x :: l)) = (length l + 2) / 2) as Hboth.
  { clear l. induction l as [|y l [IH1 IH2]]; [split; reflexivity|]. split.
    - rewrite IH2. cbn [length]. f_equal. lia.
    - intros x. cbn [every_second length]. rewrite IH1.
      replace (S (length l) + 2) with (length l + 1 + 1 * 2) by lia.
      rewrite Nat.div_add by lia. lia. }
  apply Hboth.
Qed.

Lemma slice_from_step2_length {A} (index : nat) (l : list A) :
  length (slice_from_step2 index l) = (length l - index + 1) / 2.
Proof.
  unfold slice_from_step2. rewrite every_second_length, length_drop. reflexivity.
Qed.

Lemma channel_index_bound file target (hdul : list HDU) index :
  channel_index file target hdul = Ok index → index < 2.
Proof.
  unfold channel_index.
  destruct (getitem hdul 0) as [hdu0|e]; simpl; [|discriminate].
  destruct (negb _); [discriminate|].
  destruct (header_getitem _ _) as [w0|e]; simpl; [|discriminate].
  destruct (hval_eqb w0 target); [intros [= <-]; lia|].
  destruct (getitem hdul 1) as [hdu1|e]; simpl; [|discriminate].
  destruct (header_getitem _ _) as [w1|e]; simpl; [|discriminate].
  destruct (hval_eqb w1 target); [intros [= <-]; lia|discriminate].
Qed.

(** The loader, when it returns, read the file, found the channel and
    sorted it. *)
Lemma load_gregor_inv (v : loader) (fs : filesystem) file maps add_kwargs :
  load_gregor v fs file = Ok (DataAnd maps add_kwargs) →
  ∃ hdul hdu0 index ordered,
    fs !! file = Some hdul
    ∧ hdul !! 0 = Some hdu0
    ∧ channel_index file (wavelength v) hdul = Ok index
    ∧ sorted time_offset
        (slice_from_step2 index
           (<[0 := mkHDU (patch v (hdu_header hdu0)) (hdu_data hdu0)]> hdul))
      = Ok ordered
    ∧ maps = (λ hdu, mkMap (hdu_data hdu) (patch v (hdu_header hdu0))) <$> ordered
    ∧ add_kwargs = {["path" := VStr file]}.
Proof.
  unfold load_gregor, fits_open.
  destruct (fs !! file) as [hdul|] eqn:Hfile; [|discriminate].
  cbn [mbind result_bind].
  destruct (channel_index _ _ _) as [index|e] eqn:Hindex; [|discriminate].
  cbn [mbind result_bind]. rewrite getitem_lookup_0.
  destruct (hdul !! 0) as [hdu0|] eqn:H0; [|discriminate].
  cbn [mbind result_bind].
  destruct (sorted _ _) as [s|e] eqn:Hs; [|discriminate]. cbn [mbind result_bind].
  destruct (comprehension _ s) as [built|e] eqn:Hbuilt; [|discriminate].
  cbn [mbind result_bind]. apply maps_built_inv in Hbuilt as ->.
  intros [= <- <-]. exists hdul, hdu0, index, s. auto 10.
Qed.

(** X11. What a loader returns: the one update [{'path': file}]; one
    frame for each record of the channel, that is for every second
    record from [index] on, with the pixels of the records rearranged;
    and in every frame the same header, the patched header of the first
    record of the container, so that the time offset a frame shows is
    the one of the first record, not its own. *)
Theorem loader_call_frames (v : loader) (fs : filesystem) (file : string)
    (kwargs : dict) (maps : list Map) (add_kwargs : dict) :
  loader_call v fs file kwargs = Ok (DataAnd maps add_kwargs) →
  ∃ hdul hdu0 index,
    fs !! file = Some hdul
    ∧ hdul !! 0 = Some hdu0
    ∧ index < 2
    ∧ add_kwargs = {["path" := VStr file]}
    ∧ length maps = (length hdul - index + 1) / 2
    ∧ map_data <$> maps ≡ₚ hdu_data <$> slice_from_step2 index hdul
    ∧ Forall (λ frame,
                map_meta frame = patch v (hdu_header hdu0)
                ∧ header_getitem (map_meta frame) "TIMEOFFS" = time_offset hdu0)
             maps.
Proof.
  rewrite loader_call_eq.
  intros (hdul & hdu0 & index & ordered & Hfile & H0 & Hindex & Hsorted & -> & ->)
    %load_gregor_inv.
  exists hdul, hdu0, index. split; [exact Hfile|]. split; [exact H0|].
  split; [eapply channel_index_bound; exact Hindex|]. split; [reflexivity|].
  apply sorted_perm in Hsorted.
  pose proof (channel_same_frame v hdul hdu0 index H0) as Hsame.
  assert (hdu_data <$> ordered ≡ₚ hdu_data <$> slice_from_step2 index hdul)
    as Hdata.
  { rewrite Hsorted. clear Hsorted.
    induction Hsame as [|a b l' l [_ Hd] _ IH]; [reflexivity|].
    csimpl. rewrite Hd, IH. reflexivity. }
  split; [|split].
  - apply Permutation_length in Hdata.
    rewrite !length_fmap in *. rewrite Hdata. apply slice_from_step2_length.
  - rewrite <- list_fmap_compose. exact Hdata.
  - apply Forall_fmap, Forall_true. intros hdu. cbn [map_meta compose].
    split; [reflexivity|].
    destruct hdu0 as [h d]. exact (patch_time_offset v h d).
Qed.

Lemma loader_call_frames_witness :
  ∃ hdu0,
    synthetic !! 0 = Some hdu0
    ∧ Forall (λ frame,
                header_getitem (map_meta frame) "TIMEOFFS" = time_offset hdu0)
        [mkMap (image 12) (gband_patch (hdu_header (record (4307 # 10) 3 10)));
         mkMap (image 10) (gband_patch (hdu_header (record (4307 # 10) 3 10)))].
Proof.
  destruct (loader_call_frames GBand files "gband.fits" ∅
              [mkMap (image 12) (gband_patch (hdu_header (record (4307 # 10) 3 10)));
               mkMap (image 10) (gband_patch (hdu_header (record (4307 # 10) 3 10)))]
              {["path" := VStr "gband.fits"]})
    as (hdul & hdu0 & index & Hfile & H0 & _ & _ & _ & _ & Hframes).
  - vm_compute. reflexivity.
  - exists hdu0. assert (hdul = synthetic) as -> by (symmetry; injection Hfile; auto).
    split; [exact H0|].
    eapply Forall_impl; [exact Hframes|]. intros frame [_ Hoffset]. exact Hoffset.
Defined.

(** X12. Every frame the g-band loader returns carries the header of
    the first record of the container with the four cards CUNIT1,
    CUNIT2, CDELT1 and CDELT2 set to arcseconds and to the two plate
    scales; a lookup under any other keyword gives what it gives on the
    first record as it was read. *)
Theorem LoadGregorGBandEditor_call_header (fs : filesystem) (file : string)
    (kwargs : dict) (maps : list Map) (add_kwargs : dict) :
  LoadGregorGBandEditor_call fs file kwargs = Ok (DataAnd maps add_kwargs) →
  ∃ hdul hdu0,
    fs !! file = Some hdul
    ∧ hdul !! 0 = Some hdu0
    ∧ ∀ frame,
        frame ∈ maps →
        header_getitem (map_meta frame) "cunit1" = Ok arcsec
        ∧ header_getitem (map_meta frame) "cunit2" = Ok arcsec
        ∧ header_getitem (map_meta frame) "cdelt1" = Ok cdelt1
        ∧ header_getitem (map_meta frame) "cdelt2" = Ok cdelt2
        ∧ ∀ key,
            upper key ∉ ["CUNIT1"; "CUNIT2"; "CDELT1"; "CDELT2"] →
            header_getitem (map_meta frame) key
              = header_getitem (hdu_header hdu0) key.
Proof.
  intros (hdul & hdu0 & Hfile & H0 & _ & Hmeta)%load_gregor_meta.
  exists hdul, hdu0. split; [exact Hfile|]. split; [exact H0|].
  intros frame Hframe. rewrite Forall_forall in Hmeta.
  rewrite (Hmeta frame Hframe). cbn [patch].
  destruct (gband_patch_sets (hdu_header hdu0)) as (H1 & H2 & H3 & H4).
  split; [exact H1|]. split; [exact H2|]. split; [exact H3|]. split; [exact H4|].
  intros key Hkey. unfold gband_patch.
  rewrite !header_getitem_setitem_ne; [reflexivity|..];
    intros Heq; apply Hkey; rewrite <- Heq; cbn [upper upper_ascii];
    repeat first [left; reflexivity | right].
Qed.

Lemma LoadGregorGBandEditor_call_header_witness :
  ∃ hdu0,
    synthetic !! 0 = Some hdu0
    ∧ ∀ frame,
        frame ∈ [mkMap (image 12) (gband_patch (hdu_header (record (4307 # 10) 3 10)));
                 mkMap (image 10) (gband_patch (hdu_header (record (4307 # 10) 3 10)))] →
        header_getitem (map_meta frame) "cunit1" = Ok arcsec
        ∧ header_getitem (map_meta frame) "wavelnth"
          = header_getitem (hdu_header hdu0) "wavelnth".
Proof.
  destruct (LoadGregorGBandEditor_call_header files "gband.fits" ∅
              [mkMap (image 12) (gband_patch (hdu_header (record (4307 # 10) 3 10)));
               mkMap (image 10) (gband_patch (hdu_header (record (4307 # 10) 3 10)))]
              {["path" := VStr "gband.fits"]})
    as (hdul & hdu0 & Hfile & H0 & Hframes).
  - vm_compute. reflexivity.
  - exists hdu0. assert (hdul = synthetic) as -> by (symmetry; injection Hfile; auto).
    split; [exact H0|]. intros frame Hframe.
    destruct (Hframes frame Hframe) as (Hcunit1 & _ & _ & _ & Hother).
    split; [exact Hcunit1|]. apply Hother.
    change (upper "wavelnth") with "WAVELNTH". intros Hin.
    repeat (apply elem_of_cons in Hin as [Hin|Hin]; [discriminate Hin|]).
    inversion Hin.
Defined.

Lemma comprehension_raises {A B} (f : A → result B) (l : list A) (e : exn) :
  Forall (λ x, is_Ok (f x) ∨ f x = Raise e) l →
  Exists (λ x, f x = Raise e) l →
  comprehension f l = Raise e.
Proof.
  induction 1 as [|x l Hx _ IH]; intros Hex; [inversion Hex|]. simpl.
  destruct Hx as [[y Hy]|Hx]; [|rewrite Hx; reflexivity].
  rewrite Hy. simpl. apply Exists_cons in Hex as [Hex|Hex]; [congruence|].
  rewrite (IH Hex). reflexivity.
Qed.

Lemma time_offset_cases (hdu : HDU) :
  is_Ok (time_offset hdu) ∨ time_offset hdu = Raise (KeyError "TIMEOFFS").
Proof.
  unfold time_offset, header_getitem.
  destruct (hdu_header hdu !! upper "TIMEOFFS"); [left; eexists|right]; reflexivity.
Qed.

(** X13. When a record of the channel has no card TIMEOFFS, the loader
    raises [KeyError] for this keyword: the keys of the sort are
    computed for every record before any two are compared, and no frame
    is returned. *)
Theorem loader_call_missing_offset (v : loader) (fs : filesystem)
    (file : string) (kwargs : dict) (hdul : list HDU) (index k : nat)
    (hdu : HDU) :
  fs !! file = Some hdul →
  channel_index file (wavelength v) hdul = Ok index →
  hdul !! (index + 2 * k) = Some hdu →
  header_contains "TIMEOFFS" (hdu_header hdu) = false →
  loader_call v fs file kwargs = Raise (KeyError "TIMEOFFS").
Proof.
  intros Hfile Hindex Hk Hno. rewrite loader_call_eq.
  unfold load_gregor, fits_open. rewrite Hfile. cbn [mbind result_bind].
  rewrite Hindex. cbn [mbind result_bind]. rewrite getitem_lookup_0.
  destruct (hdul !! 0) as [hdu0|] eqn:H0.
  2:{ apply lookup_ge_None in H0. apply lookup_lt_Some in Hk. lia. }
  cbn [mbind result_bind].
  set (channel := slice_from_step2 index _).
  assert (sorted time_offset channel = Raise (KeyError "TIMEOFFS")) as ->;
    [|reflexivity].
  unfold sorted.
  rewrite (comprehension_raises _ channel (KeyError "TIMEOFFS")); [reflexivity| |].
  - apply Forall_forall. intros x _.
    destruct (time_offset_cases x) as [[q Hq]|Hx].
    + left. rewrite Hq. eexists. reflexivity.
    + right. rewrite Hx. reflexivity.
  - pose proof (channel_same_frame v hdul hdu0 index H0) as Hsame.
    fold channel in Hsame.
    assert (slice_from_step2 index hdul !! k = Some hdu) as Hk'
      by (rewrite slice_from_step2_lookup; exact Hk).
    destruct (Forall2_lookup_r _ _ _ _ _ Hsame Hk') as (hdu' & Hhdu' & [Hoff _]).
    apply Exists_exists. exists hdu'.
    split; [eapply list_elem_of_lookup_2; exact Hhdu'|].
    rewrite Hoff. unfold time_offset, header_getitem.
    unfold header_contains in Hno. apply bool_decide_eq_false in Hno.
    apply eq_None_not_Some in Hno. rewrite Hno. reflexivity.
Qed.

Lemma loader_call_missing_offset_witness :
  LoadGregorGBandEditor_call no_offset "a.fits" ∅ = Raise (KeyError "TIMEOFFS").
Proof.
  apply (loader_call_missing_offset GBand no_offset "a.fits" ∅
           [record (4307 # 10) 0 10; record 999 0 11;
            mkHDU {[ "WAVELNTH" := HNum (4307 # 10) ]} (image 12)]
           0 1 (mkHDU {[ "WAVELNTH" := HNum (4307 # 10) ]} (image 12))).
  - reflexivity.
  - reflexivity.
  - reflexivity.
  - reflexivity.
Defined.

(** ** The loaders on a container of two channels *)

Lemma patch_wavelength (v : loader) (h : header) :
  header_getitem (patch v h) "WAVELNTH" = header_getitem h "WAVELNTH".
Proof.
  destruct v; simpl; unfold gband_patch, continuum_patch;
    rewrite !header_getitem_setitem_ne by (simpl; discriminate); reflexivity.
Qed.

(** X14. When the target wavelength is the tag of the second record
    and not of the first, every frame the loader returns still carries
    the wavelength tag of the first record: the frames are labelled
    with a wavelength that is not theirs. *)
Theorem loader_call_second_channel_tag (v : loader) (fs : filesystem)
    (file : string) (kwargs : dict) (hdul : list HDU) (hdu0 : HDU) (w0 : hval)
    (maps : list Map) (add_kwargs : dict) :
  fs !! file = Some hdul →
  hdul !! 0 = Some hdu0 →
  header_getitem (hdu_header hdu0) "WAVELNTH" = Ok w0 →
  hval_eqb w0 (wavelength v) = false →
  loader_call v fs file kwargs = Ok (DataAnd maps add_kwargs) →
  Forall (λ frame, header_getitem (map_meta frame) "WAVELNTH" = Ok w0) maps
  ∧ map_data <$> maps ≡ₚ hdu_data <$> slice_from_step2 1 hdul.
Proof.
  intros Hfile H0 Hw0 Hne. rewrite loader_call_eq.
  intros (hdul' & hdu0' & index & ordered & Hfile' & H0' & Hindex & Hsorted
          & -> & _)%load_gregor_inv.
  rewrite Hfile in Hfile'. injection Hfile' as <-.
  rewrite H0 in H0'. injection H0' as <-.
  assert (index = 1) as ->.
  { unfold channel_index in Hindex. rewrite getitem_lookup_0, H0 in Hindex.
    cbn [mbind result_bind] in Hindex.
    rewrite (header_contains_getitem _ _ _ Hw0), Hw0 in Hindex.
    cbn [negb mbind result_bind] in Hindex. rewrite Hne in Hindex.
    destruct (getitem hdul 1) as [hdu1|e]; [|discriminate].
    cbn [mbind result_bind] in Hindex.
    destruct (header_getitem (hdu_header hdu1) "WAVELNTH") as [w1|e];
      [|discriminate].
    cbn [mbind result_bind] in Hindex.
    destruct (hval_eqb w1 _); [|discriminate]. injection Hindex as <-.
    reflexivity. }
  split.
  - apply Forall_fmap, Forall_true. intros hdu. cbn [compose map_meta].
    rewrite patch_wavelength. exact Hw0.
  - apply sorted_perm in Hsorted. rewrite <- list_fmap_compose.
    change (map_data ∘ _) with hdu_data. rewrite Hsorted.
    pose proof (channel_same_frame v hdul hdu0 1 H0) as Hsame. clear Hsorted.
    induction Hsame as [|a b l' l [_ Hd] _ IH]; [reflexivity|].
    csimpl. rewrite Hd, IH. reflexivity.
Qed.

Lemma loader_call_second_channel_tag_witness :
  Forall (λ frame, header_getitem (map_meta frame) "WAVELNTH" = Ok (HNum 999))
    [mkMap (image 11)
       (gband_patch (hdu_header (record 999 0 10)))].
Proof.
  apply (loader_call_second_channel_tag GBand second_channel "b.fits" ∅
           [record 999 0 10; record (4307 # 10) 1 11] (record 999 0 10)
           (HNum 999) _ {["path" := VStr "b.fits"]}).
  - reflexivity.
  - reflexivity.
  - reflexivity.
  - reflexivity.
  - vm_compute. reflexivity.
Defined.

Lemma every_second_cons {A} (x : A) (l : list A) :
  every_second (x :: l) = x :: every_second (drop 1 l).
Proof. destruct l; reflexivity. Qed.

(** The records at the even and at the odd positions make up the
    container. *)
Lemma slice_from_step2_split {A} (l : list A) :
  slice_from_step2 0 l ++ slice_from_step2 1 l ≡ₚ l.
Proof.
  unfold slice_from_step2. rewrite drop_0.
  induction l as [|x l IH]; [reflexivity|].
  rewrite every_second_cons. cbn [drop app]. rewrite drop_0.
  constructor. rewrite Permutation_app_comm. exact IH.
Qed.

Lemma slice_from_step2_elem_of {A} (index : nat) (l : list A) (x : A) :
  x ∈ slice_from_step2 index l → x ∈ l.
Proof.
  intros [k Hk]%list_elem_of_lookup_1. rewrite slice_from_step2_lookup in Hk.
  eapply list_elem_of_lookup_2. exact Hk.
Qed.

Lemma hval_eqb_other (w a b : hval) :
  hval_eqb w a = true → hval_eqb a b = false → hval_eqb w b = false.
Proof.
  destruct w as [p|s], a as [q|t], b as [r|u]; simpl; try discriminate;
    try reflexivity.
  - intros Hpq%Qeq_bool_iff Hqr. destruct (Qeq_bool p r) eqn:Hpr; [|reflexivity].
    apply Qeq_bool_iff in Hpr. rewrite <- Hqr. symmetry. apply Qeq_bool_iff.
    rewrite <- Hpq. exact Hpr.
  - intros ->%bool_decide_eq_true Htu. exact Htu.
Qed.

(** X15. On a container whose first record is tagged with the g-band
    wavelength and names an angular unit under CUNIT1, whose second
    record is tagged with the continuum wavelength and whose records
    all carry a numeric time offset, both loaders return, and between
    them they return the pixels of every record once: the g-band loader
    those at the even positions, the continuum loader those at the odd
    positions. *)
Theorem loaders_split (fs : filesystem) (file : string) (kwargs kwargs' : dict)
    (hdul : list HDU) (hdu0 hdu1 : HDU) (w0 w1 : hval) (u : string) :
  fs !! file = Some hdul →
  hdul !! 0 = Some hdu0 →
  hdul !! 1 = Some hdu1 →
  header_getitem (hdu_header hdu0) "WAVELNTH" = Ok w0 →
  header_getitem (hdu_header hdu1) "WAVELNTH" = Ok w1 →
  hval_eqb w0 gband_wavelength = true →
  hval_eqb w1 continuum_wavelength = true →
  header_getitem (hdu_header hdu0) "CUNIT1" = Ok (HStr u) →
  u ∈ angular_units →
  Forall (λ hdu, ∃ q, time_offset hdu = Ok (HNum q)) hdul →
  ∃ g_band continuum,
    LoadGregorGBandEditor_call fs file kwargs
      = Ok (DataAnd g_band {["path" := VStr file]})
    ∧ LoadGregorContinuumEditor_call fs file kwargs'
      = Ok (DataAnd continuum {["path" := VStr file]})
    ∧ map_data <$> g_band ≡ₚ hdu_data <$> slice_from_step2 0 hdul
    ∧ map_data <$> continuum ≡ₚ hdu_data <$> slice_from_step2 1 hdul
    ∧ map_data <$> (g_band ++ continuum) ≡ₚ hdu_data <$> hdul.
Proof.
  intros Hfile H0 H1 Hw0 Hw1 Hg Hc Hu Hangular Hnum.
  assert (∀ index, Forall (λ hdu, ∃ q, time_offset hdu = Ok (HNum q))
                     (slice_from_step2 index hdul)) as Hchannel.
  { intros index. rewrite Forall_forall in Hnum. apply Forall_forall.
    intros hdu Hhdu%slice_from_step2_elem_of. apply Hnum. exact Hhdu. }
  destruct (sorted_spec time_offset _ (Hchannel 0)) as (s0 & Hs0 & Hp0 & _).
  destruct (sorted_spec time_offset _ (Hchannel 1)) as (s1 & Hs1 & Hp1 & _).
  assert (hval_eqb w0 continuum_wavelength = false) as Hne
    by (eapply hval_eqb_other; [exact Hg|reflexivity]).
  eexists _, _. split; [|split; [|split; [|split]]].
  - apply (load_gregor_channel GBand fs file hdul hdu0 0 s0 Hfile H0);
      [|exact Hs0|apply validate_gband_patch].
    eapply channel_index_first; eassumption.
  - apply (load_gregor_channel Continuum fs file hdul hdu0 1 s1 Hfile H0);
      [|exact Hs1|exact (validate_patch Continuum _ u Hu Hangular)].
    rewrite (channel_index_second _ _ _ _ _ _ _ H0 Hw0 Hne H1 Hw1).
    cbn [wavelength]. rewrite Hc. reflexivity.
  - rewrite <- list_fmap_compose. change (map_data ∘ _) with hdu_data.
    rewrite Hp0. reflexivity.
  - rewrite <- list_fmap_compose. change (map_data ∘ _) with hdu_data.
    rewrite Hp1. reflexivity.
  - rewrite fmap_app, <- !list_fmap_compose. change (map_data ∘ _) with hdu_data.
    rewrite <- fmap_app, Hp0, Hp1, slice_from_step2_split. reflexivity.
Qed.

Lemma loaders_split_witness :
  ∃ g_band continuum,
    LoadGregorGBandEditor_call two_channels "c.fits" ∅
      = Ok (DataAnd g_band {["path" := VStr "c.fits"]})
    ∧ LoadGregorContinuumEditor_call two_channels "c.fits" ∅
      = Ok (DataAnd continuum {["path" := VStr "c.fits"]})
    ∧ map_data <$> (g_band ++ continuum) ≡ₚ [image 10; image 11; image 12].
Proof.
  destruct (loaders_split two_channels "c.fits" ∅ ∅
              [first_of_two; record (45055 # 100) 0 11; record (4307 # 10) 0 12]
              first_of_two (record (45055 # 100) 0 11)
              (HNum (4307 # 10)) (HNum (45055 # 100)) "arcsec")
    as (g & c & Hg & Hc & _ & _ & Hall).
  - reflexivity.
  - reflexivity.
  - reflexivity.
  - reflexivity.
  - reflexivity.
  - reflexivity.
  - reflexivity.
  - reflexivity.
  - left.
  - repeat constructor; eexists; reflexivity.
  - exists g, c. split; [exact Hg|]. split; [exact Hc|exact Hall].
Defined.

Lemma channel_index_lookup file target (hdul : list HDU) index :
  channel_index file target hdul = Ok index → is_Some (hdul !! index).
Proof.
  unfold channel_index. rewrite getitem_lookup_0, getitem_lookup_1.
  destruct (hdul !! 0) as [hdu0|] eqn:H0; [|discriminate].
  cbn [mbind result_bind]. destruct (negb _); [discriminate|].
  destruct (header_getitem (hdu_header hdu0) "WAVELNTH") as [w0|e];
    [|discriminate].
  cbn [mbind result_bind].
  destruct (hval_eqb w0 target); [intros [= <-]; eauto|].
  destruct (hdul !! 1) as [hdu1|] eqn:H1; [|discriminate].
  cbn [mbind result_bind].
  destruct (header_getitem (hdu_header hdu1) "WAVELNTH") as [w1|e];
    [|discriminate].
  cbn [mbind result_bind].
  destruct (hval_eqb w1 target); [intros [= <-]; eauto|discriminate].
Qed.

(** X24. The continuum loader builds its maps from a header whose
    CUNIT1 is what the file gave: on a container it would otherwise
    load -- the channel found, every record of it with a numeric time
    offset -- whose first record has no CUNIT1 card, [Map] refuses the
    header and the loader raises [MapMetaValidationError]. *)
Theorem LoadGregorContinuumEditor_call_unit_missing (fs : filesystem)
    (file : string) (kwargs : dict) (hdul : list HDU) (hdu0 : HDU)
    (index : nat) :
  fs !! file = Some hdul →
  hdul !! 0 = Some hdu0 →
  channel_index file continuum_wavelength hdul = Ok index →
  Forall (λ hdu, ∃ q, time_offset hdu = Ok (HNum q))
    (slice_from_step2 index hdul) →
  header_contains "CUNIT1" (hdu_header hdu0) = false →
  LoadGregorContinuumEditor_call fs file kwargs = Raise MapMetaValidationError.
Proof.
  intros Hfile H0 Hindex Hnum Hno.
  unfold LoadGregorContinuumEditor_call, load_gregor, fits_open.
  rewrite Hfile. cbn [mbind result_bind wavelength]. rewrite Hindex.
  cbn [mbind result_bind]. rewrite getitem_lookup_0, H0.
  cbn [mbind result_bind].
  destruct (sorted_spec time_offset _ Hnum) as (s & Hs & Hperm & _).
  destruct (sorted_same_frame _ _ _
              (channel_same_frame Continuum hdul hdu0 index H0) Hs)
    as (s' & -> & Hdata).
  cbn [mbind result_bind patch].
  assert (validate_meta (continuum_patch (hdu_header hdu0)) = false) as Hmeta.
  { rewrite validate_continuum_patch. unfold header_contains in Hno.
    apply bool_decide_eq_false in Hno. apply eq_None_not_Some in Hno.
    change (upper "CUNIT1") with (upper "cunit1") in Hno. rewrite Hno.
    reflexivity. }
  destruct s' as [|hdu s'].
  - exfalso. apply (f_equal length) in Hdata. rewrite !length_fmap in Hdata.
    apply Permutation_length in Hperm. rewrite <- Hdata in Hperm.
    destruct (channel_index_lookup _ _ _ _ Hindex) as [hdu Hhdu].
    assert (slice_from_step2 index hdul !! 0 = Some hdu) as Hfirst
      by (rewrite slice_from_step2_lookup, Nat.add_0_r; exact Hhdu).
    apply lookup_lt_Some in Hfirst. simpl in Hperm. lia.
  - rewrite (maps_refused _ hdu s' Hmeta). reflexivity.
Qed.

Lemma LoadGregorContinuumEditor_call_unit_missing_witness :
  LoadGregorContinuumEditor_call no_unit "d.fits" ∅
    = Raise MapMetaValidationError.
Proof.
  apply (LoadGregorContinuumEditor_call_unit_missing no_unit "d.fits" ∅
           [record (45055 # 100) 0 10; record 999 1 11;
            record (45055 # 100) 2 12]
           (record (45055 # 100) 0 10) 0).
  - reflexivity.
  - reflexivity.
  - reflexivity.
  - repeat constructor; eexists; reflexivity.
  - reflexivity.
Defined.

(** ** [NanEditor] and [NormalizeEditor] outside the finite values *)

Lemma SFcompare_refl (s : bool) (m : positive) (e : Z) :
  SFcompare (S754_finite s m e) (S754_finite s m e) = Some Eq.
Proof.
  cbn [SFcompare]. rewrite Z.compare_refl.
  change (Pos.compare_cont Eq m m) with (Pos.compare m m).
  rewrite Pos.compare_refl. destruct s; reflexivity.
Qed.

(** A float is NaN, an infinity, or finite. *)
Lemma float_cases (x : float) :
  (is_nan x = true ∧ x = nan)
  ∨ x = infinity
  ∨ x = neg_infinity
  ∨ is_finite x = true.
Proof.
  pose proof (SF2Prim_Prim2SF x) as Hx.
  unfold is_finite, is_infinity, is_nan.
  rewrite !FloatAxioms.eqb_spec, abs_spec.
  change (Prim2SF infinity) with (S754_infinity false).
  destruct (Prim2SF x) as [s|s| |s m e].
  - right. right. right. destruct s; reflexivity.
  - right. destruct s; [right; left|left]; rewrite <- Hx; reflexivity.
  - left. split; [reflexivity|]. rewrite <- Hx. reflexivity.
  - right. right. right. unfold SFeqb. rewrite SFcompare_refl.
    destruct s; reflexivity.
Qed.

Lemma nan_to_num1_finite (nan x : sample) :
  is_finite nan = true → is_finite (nan_to_num1 nan x) = true.
Proof.
  intros Hnan. unfold nan_to_num1.
  destruct (float_cases x) as [[-> _]|[->|[->|Hx]]]; try reflexivity.
  - exact Hnan.
  - destruct (is_finite_not_infinity x Hx) as (-> & -> & ->). exact Hx.
Qed.

(** X16. With a finite replacement value, the default 0 among them,
    the array [NanEditor.call] returns holds finite values only:
    no NaN and no infinity is left. *)
Theorem NanEditor_call_finite (nan : sample) (data : ndarray) (kwargs : dict) :
  is_finite nan = true →
  ∃ out,
    NanEditor_call nan data kwargs = Ok (Data out)
    ∧ ndarray_Forall (λ x, is_finite x = true) out.
Proof.
  intros Hnan. eexists. split; [reflexivity|].
  unfold ndarray_Forall, np_nan_to_num. rewrite flat_ndarray_map.
  apply Forall_fmap, Forall_true. intros x. apply nan_to_num1_finite. exact Hnan.
Qed.

Lemma NanEditor_call_finite_witness :
  ∃ out,
    NanEditor_call 0 (Array2 1 3 [[nan; infinity; 1]]%float) ∅ = Ok (Data out)
    ∧ ndarray_Forall (λ x, is_finite x = true) out.
Proof.
  apply (NanEditor_call_finite 0 (Array2 1 3 [[nan; infinity; 1]]%float) ∅).
  reflexivity.
Defined.

Lemma fmap_fixed {X} (f : X → X) (l : list X) :
  Forall (λ x, f x = x) l → f <$> l = l.
Proof.
  intros Hl. rewrite <- (list_fmap_id l) at 2. apply Forall_fmap_ext_1. exact Hl.
Qed.

(** An elementwise operation that fixes every value of an array fixes
    the array. *)
Lemma ndarray_map_id (f : sample → sample) (a : ndarray) :
  Forall (λ x, f x = x) (flat a) → ndarray_map f a = a.
Proof.
  assert (∀ rows : plane,
            Forall (λ x, f x = x) (concat rows) → plane_map f rows = rows)
    as Hplane.
  { intros rows Hrows%Forall_concat. apply fmap_fixed.
    eapply Forall_impl; [exact Hrows|]. intros row. apply fmap_fixed. }
  destruct a as [h w rows|n h w frames]; simpl; intros Hall.
  - rewrite (Hplane rows Hall). reflexivity.
  - f_equal. apply fmap_fixed. rewrite 2!Forall_concat in Hall.
    eapply Forall_impl; [exact Hall|]. intros rows Hrows. apply Hplane.
    apply Forall_concat. exact Hrows.
Qed.

(** X17. With a finite replacement value [NanEditor.call] changes
    nothing in an array it returned: a second pass is the identity. *)
Theorem NanEditor_call_idempotent (nan : sample) (data : ndarray)
    (kwargs kwargs' : dict) (out : ndarray) :
  is_finite nan = true →
  NanEditor_call nan data kwargs = Ok (Data out) →
  NanEditor_call nan out kwargs' = Ok (Data out).
Proof.
  intros Hnan [= <-]. unfold NanEditor_call. do 2 f_equal.
  apply ndarray_map_id. unfold np_nan_to_num. rewrite flat_ndarray_map.
  apply Forall_fmap, Forall_true. intros x. cbn [compose].
  pose proof (nan_to_num1_finite nan x Hnan) as Hfin.
  unfold nan_to_num1 at 1.
  destruct (is_finite_not_infinity _ Hfin) as (-> & -> & ->). reflexivity.
Qed.

Lemma NanEditor_call_idempotent_witness :
  NanEditor_call 0 (Array2 1 3 [[0; 0x1.fffffffffffffp+1023; 1]]%float) ∅
    = Ok (Data (Array2 1 3 [[0; 0x1.fffffffffffffp+1023; 1]]%float)).
Proof.
  apply (NanEditor_call_idempotent 0 (Array2 1 3 [[nan; infinity; 1]]%float) ∅ ∅).
  - reflexivity.
  - reflexivity.
Defined.

(** X18. [NormalizeEditor.call] returns a value that is not finite as
    it is: where the normalised array holds NaN or an infinity, so does
    the result, which therefore does not lie in [-1, 1]. *)
Theorem NormalizeEditor_call_not_finite (norm : ndarray → ndarray)
    (data : ndarray) (kwargs : dict) (idx : list nat) (x : sample) :
  item (norm data) idx = Some x →
  is_finite x = false →
  ∃ out,
    NormalizeEditor_call norm data kwargs = Ok (Data out)
    ∧ item out idx = Some x
    ∧ ¬ ndarray_Forall (sample_between (-1) 1) out.
Proof.
  intros Hitem Hx. eexists. split; [reflexivity|].
  assert ((x * 2 - 1)%float = x ∧ ¬ sample_between (-1) 1 x) as [Hkeep Hout].
  { unfold sample_between.
    destruct (float_cases x) as [[_ ->]|[->|[->|Hfin]]]; [| | |congruence];
      (split; [reflexivity|]); vm_compute; intros [? ?]; discriminate. }
  assert (item (ndarray_map (λ x, x * 2 - 1)%float (norm data)) idx = Some x)
    as Hcell by (rewrite item_ndarray_map, Hitem; simpl; rewrite Hkeep; reflexivity).
  split; [exact Hcell|].
  intros Hall. apply Hout. unfold ndarray_Forall in Hall.
  rewrite Forall_forall in Hall. apply Hall.
  eapply item_elem_of_flat. exact Hcell.
Qed.

Lemma NormalizeEditor_call_not_finite_witness :
  ∃ out,
    NormalizeEditor_call id (Array2 1 2 [[0.5; nan]]%float) ∅ = Ok (Data out)
    ∧ item out [0; 1] = Some nan.
Proof.
  destruct (NormalizeEditor_call_not_finite id (Array2 1 2 [[0.5; nan]]%float)
              ∅ [0; 1] nan) as (out & Hcall & Hcell & _).
  - reflexivity.
  - reflexivity.
  - exists out. split; [exact Hcall|exact Hcell].
Defined.

(** ** [PaddingEditor] at and below the size of the data *)

Lemma pad_width_bad (d : Z) :
  (d < 0)%Z → pad_width_ok (Qfloor (half d), Qceiling (half d)) = false.
Proof.
  intros Hd. pose proof (floor_half_neg d Hd) as Hneg. apply Z.ltb_lt in Hneg.
  unfold pad_width_ok. cbn [fst snd].
  rewrite (Z.leb_antisym _ 0), Hneg. reflexivity.
Qed.

(** X19. A target below the size of the data on one of the two
    trailing axes makes [PaddingEditor.call] raise [ValueError]:
    [np.pad] refuses the negative width. The unit never crops. *)
Theorem PaddingEditor_call_rejects (H W : Z) (data : ndarray) (kwargs : dict)
    (lead : list nat) (h w : nat) :
  shape data = lead ++ [h; w] →
  (H < Z.of_nat h)%Z ∨ (W < Z.of_nat w)%Z →
  PaddingEditor_call (H, W) data kwargs = Raise ValueError.
Proof.
  intros Hshape Hlt.
  assert (pad_width_ok (Qfloor (half (H - Z.of_nat h)),
                        Qceiling (half (H - Z.of_nat h)))
          && pad_width_ok (Qfloor (half (W - Z.of_nat w)),
                           Qceiling (half (W - Z.of_nat w))) = false) as Hbad.
  { apply andb_false_iff.
    destruct Hlt as [Hlt|Hlt]; [left|right]; apply pad_width_bad; lia. }
  destruct data as [h0 w0 rows|n h0 w0 frames]; simpl in Hshape.
  - apply shape_split2 in Hshape as (-> & -> & ->).
    unfold PaddingEditor_call. simpl shape. rewrite PaddingEditor_pad_2.
    cbn [mbind result_bind fst snd]. unfold np_pad.
    cbn [forallb]. rewrite andb_true_r, Hbad. reflexivity.
  - apply shape_split3 in Hshape as (-> & -> & ->).
    unfold PaddingEditor_call. simpl shape. rewrite PaddingEditor_pad_3.
    cbn [mbind result_bind fst snd]. unfold np_pad.
    cbn [forallb]. rewrite andb_true_r, Hbad, andb_false_r. reflexivity.
Qed.

Lemma PaddingEditor_call_rejects_witness :
  PaddingEditor_call (4, 1)%Z (Array2 1 2 [[1; 2]]%float) ∅ = Raise ValueError.
Proof.
  apply (PaddingEditor_call_rejects 4 1 (Array2 1 2 [[1; 2]]%float) ∅ [] 1 2).
  - reflexivity.
  - right. reflexivity.
Defined.

Lemma pad_plane_zero (w : nat) (fill : sample) (rows : plane) :
  pad_plane w (0, 0) (0, 0) fill rows = rows.
Proof.
  unfold pad_plane, pad_row. cbn [fst snd replicate app]. rewrite app_nil_r.
  apply fmap_fixed, Forall_true. intros row. apply app_nil_r.
Qed.

(** X20. On data that already has the target size on its two trailing
    axes [PaddingEditor.call] returns the data as it is. *)
Theorem PaddingEditor_call_same_size (data : ndarray) (kwargs : dict)
    (lead : list nat) (h w : nat) :
  shape data = lead ++ [h; w] →
  PaddingEditor_call (Z.of_nat h, Z.of_nat w) data kwargs = Ok (Data data).
Proof.
  intros Hshape.
  assert (∀ n : nat, half (Z.of_nat n - Z.of_nat n) = half 0) as Hhalf
    by (intros n; rewrite Z.sub_diag; reflexivity).
  destruct data as [h0 w0 rows|n h0 w0 frames]; simpl in Hshape.
  - apply shape_split2 in Hshape as (-> & -> & ->).
    unfold PaddingEditor_call. simpl shape. rewrite PaddingEditor_pad_2.
    cbn [mbind result_bind fst snd]. rewrite !Hhalf.
    change (Qfloor (half 0)) with 0%Z. change (Qceiling (half 0)) with 0%Z.
    rewrite np_pad_Array2 by reflexivity. cbn [fst snd mbind result_bind].
    change (Z.to_nat 0) with 0. change (to_nat2 (0, 0)%Z) with (0, 0).
    rewrite pad_plane_zero, !Nat.add_0_r. reflexivity.
  - apply shape_split3 in Hshape as (-> & -> & ->).
    unfold PaddingEditor_call. simpl shape. rewrite PaddingEditor_pad_3.
    cbn [mbind result_bind fst snd]. rewrite !Hhalf.
    change (Qfloor (half 0)) with 0%Z. change (Qceiling (half 0)) with 0%Z.
    rewrite np_pad_Array3 by reflexivity. cbv zeta. cbn [fst snd mbind result_bind].
    change (Z.to_nat 0) with 0. change (to_nat2 (0, 0)%Z) with (0, 0).
    cbn [replicate app]. rewrite app_nil_r, !Nat.add_0_r.
    rewrite (fmap_fixed (pad_plane w (0, 0) (0, 0) nan) frames)
      by (apply Forall_true; intros rows; apply pad_plane_zero).
    reflexivity.
Qed.

Lemma PaddingEditor_call_same_size_witness :
  PaddingEditor_call (1, 2)%Z (Array3 1 1 2 [[[1; nan]]]%float) ∅
    = Ok (Data (Array3 1 1 2 [[[1; nan]]]%float)).
Proof.
  apply (PaddingEditor_call_same_size (Array3 1 1 2 [[[1; nan]]]%float) ∅ [1] 1 2).
  reflexivity.
Defined.

(** An elementwise operation goes through [np.pad]: on the data and on
    the fill value. *)
Lemma pad_plane_map (f : sample → sample) (w : nat) (x y : nat * nat)
    (fill : sample) (rows : plane) :
  plane_map f (pad_plane w x y fill rows)
    = pad_plane w x y (f fill) (plane_map f rows).
Proof.
  unfold plane_map, pad_plane, pad_row.
  rewrite !fmap_app, !fmap_replicate, <- !list_fmap_compose. do 2 f_equal.
  apply list_fmap_ext. intros i row _. cbn [compose].
  rewrite !fmap_app, !fmap_replicate. reflexivity.
Qed.

Lemma np_pad_map (f : sample → sample) (data : ndarray) (pad_width : list (Z * Z))
    (fill : sample) :
  np_pad (ndarray_map f data) pad_width (f fill)
    = ndarray_map f <$> np_pad data pad_width fill.
Proof.
  unfold np_pad. destruct (negb _); [reflexivity|].
  destruct data as [h w rows|n h w frames]; cbn [ndarray_map].
  - destruct (to_nat2 <$> pad_width) as [|x [|y [|? ?]]]; try reflexivity.
    cbn [fmap result_fmap ndarray_map]. rewrite pad_plane_map. reflexivity.
  - destruct (to_nat2 <$> pad_width) as [|z [|x [|y [|? ?]]]]; try reflexivity.
    cbv zeta. cbn [fmap result_fmap ndarray_map]. do 2 f_equal.
    rewrite !fmap_app, !fmap_replicate, <- !list_fmap_compose.
    f_equal; [|f_equal].
    + unfold plane_map. rewrite !fmap_replicate. reflexivity.
    + apply list_fmap_ext. intros i rows _. cbn [compose].
      symmetry. apply pad_plane_map.
    + unfold plane_map. rewrite !fmap_replicate. reflexivity.
Qed.

(** X21. [NanEditor] after [PaddingEditor] gives the data with its
    NaN replaced, padded with the replacement value: the border that
    [PaddingEditor] marked with NaN can no longer be told from the
    pixels of the data that were NaN. *)
Theorem NanEditor_after_PaddingEditor (target_shape : Z * Z) (nan : sample)
    (data padded : ndarray) (kwargs kwargs' : dict) :
  PaddingEditor_call target_shape data kwargs = Ok (Data padded) →
  ∃ pad out,
    PaddingEditor_pad target_shape (shape data) = Ok pad
    ∧ np_pad (np_nan_to_num nan data) pad nan = Ok out
    ∧ NanEditor_call nan padded kwargs' = Ok (Data out).
Proof.
  unfold PaddingEditor_call. cbv zeta.
  destruct (PaddingEditor_pad target_shape (shape data)) as [pad|e];
    [|discriminate].
  cbn [mbind result_bind]. intros Hpad.
  destruct (np_pad data pad PrimFloat.nan) as [out|e] eqn:Hout; [|discriminate].
  injection Hpad as <-.
  exists pad, (np_nan_to_num nan out). split; [reflexivity|].
  split; [|reflexivity].
  change nan with (nan_to_num1 nan PrimFloat.nan) at 2.
  unfold np_nan_to_num. rewrite np_pad_map, Hout. reflexivity.
Qed.

Lemma NanEditor_after_PaddingEditor_witness :
  ∃ out,
    np_pad (Array2 1 2 [[1; 0]]%float) [(0, 1)%Z; (1, 2)%Z] 0 = Ok out
    ∧ NanEditor_call 0
        (Array2 2 5 [[nan; 1; nan; nan; nan]; [nan; nan; nan; nan; nan]]%float) ∅
      = Ok (Data out).
Proof.
  destruct (NanEditor_after_PaddingEditor (2, 5)%Z 0
              (Array2 1 2 [[1; nan]]%float)
              (Array2 2 5 [[nan; 1; nan; nan; nan]; [nan; nan; nan; nan; nan]]%float)
              ∅ ∅) as (pad & out & Hpad & Hout & Hcall).
  - reflexivity.
  - exists out. injection Hpad as <-. split; [exact Hout|exact Hcall].
Defined.

(** ** [ExpandDimsEditor] *)

Lemma shape_size_app (s t : list nat) : shape_size (s ++ t) = shape_size s * shape_size t.
Proof.
  unfold shape_size. induction s as [|n s IH]; simpl; [lia|]. rewrite IH. lia.
Qed.

Lemma shape_size_insert_one (k : nat) (s : list nat) :
  shape_size (take k s ++ 1 :: drop k s) = shape_size s.
Proof.
  rewrite <- (take_drop k s) at 3. rewrite !shape_size_app.
  change (1 :: drop k s) with ([1] ++ drop k s). rewrite shape_size_app.
  simpl. lia.
Qed.

Lemma concat_length_uniform {X} (n w : nat) (ls : list (list X)) :
  length ls = n → Forall (λ l, length l = w) ls → length (concat ls) = n * w.
Proof.
  intros <- Hall. induction Hall as [|l ls Hl _ IH]; [reflexivity|].
  simpl. rewrite length_app, Hl, IH. reflexivity.
Qed.

(** The buffer of a well-formed array has one cell for each index. *)
Lemma flat_length (a : ndarray) :
  ndarray_wf a → length (flat a) = shape_size (shape a).
Proof.
  destruct a as [h w rows|n h w frames]; simpl.
  - intros [Hh Hw]. rewrite (concat_length_uniform h w) by assumption. lia.
  - intros [Hn Hframes].
    rewrite (concat_length_uniform (n * h) w).
    + lia.
    + apply concat_length_uniform; [exact Hn|].
      eapply Forall_impl; [exact Hframes|]. intros rows [Hh _]. exact Hh.
    + apply Forall_concat. eapply Forall_impl; [exact Hframes|].
      intros rows [_ Hw]. exact Hw.
Qed.

(** The cast on a value that binary32 does not hold, on a tie, above
    the largest and below the smallest binary32 value. *)
Example float32_examples :
  float32 0x1.999999999999ap-4 = 0x1.99999ap-4%float
  ∧ float32 16777217 = 16777216%float
  ∧ float32 0x1.fffffffp+127 = infinity
  ∧ float32 0x1p-151 = 0%float.
Proof. repeat split; vm_compute; reflexivity. Qed.

Lemma float32_not_finite (x : sample) : is_finite x = false → float32 x = x.
Proof.
  intros Hx.
  destruct (float_cases x) as [[_ ->]|[->|[->|Hfin]]]; [| | |congruence];
    reflexivity.
Qed.

(** X22. For an axis between [-(r + 1)] and [r], where [r] is the rank
    of the data, [ExpandDimsEditor.call] returns an array of rank
    [r + 1] with the same cells in the same order, each cast to
    float32: its shape is the shape of the data with a 1 inserted at the
    axis, counted from the end of the new shape when negative. A cell
    that is NaN or an infinity is kept by the cast. *)
Theorem ExpandDimsEditor_call_shape (axis : Z) (data : ndarray) (kwargs : dict) :
  let r := length (shape data) in
  (- Z.of_nat (S r) <= axis <= Z.of_nat r)%Z →
  let k := Z.to_nat (if (axis <? 0)%Z then axis + Z.of_nat (S r) else axis)%Z in
  ∃ out,
    ExpandDimsEditor_call axis data kwargs = Ok (Data out)
    ∧ tensor_shape out = take k (shape data) ++ 1 :: drop k (shape data)
    ∧ tensor_shape out !! k = Some 1
    ∧ length (tensor_shape out) = S r
    ∧ shape_size (tensor_shape out) = shape_size (shape data)
    ∧ tensor_buffer out = float32 <$> flat data
    ∧ (ndarray_wf data → length (tensor_buffer out) = shape_size (tensor_shape out))
    ∧ ∀ i x,
        flat data !! i = Some x →
        tensor_buffer out !! i = Some (float32 x)
        ∧ (is_finite x = false → float32 x = x).
Proof.
  intros r Haxis k.
  assert (k ≤ r) as Hk by (subst k; destruct (axis <? 0)%Z eqn:Hneg; lia).
  assert (normalize_axis_index axis (S r) = Ok k) as Hnorm.
  { unfold normalize_axis_index. cbv zeta.
    assert ((axis <? - Z.of_nat (S r))%Z = false) as -> by (apply Z.ltb_ge; lia).
    assert ((Z.of_nat (S r) <=? axis)%Z = false) as -> by (apply Z.leb_gt; lia).
    reflexivity. }
  unfold ExpandDimsEditor_call, np_expand_dims. cbv zeta.
  cbn [as_tensor tensor_shape tensor_buffer]. fold r. rewrite Hnorm.
  cbn [mbind result_bind]. eexists. split; [reflexivity|].
  cbn [astype_float32 tensor_shape tensor_buffer].
  split; [reflexivity|]. split; [|split; [|split; [|split; [|split]]]].
  - rewrite lookup_app_r by (rewrite length_take; lia).
    rewrite length_take, Nat.min_l by exact Hk. rewrite Nat.sub_diag. reflexivity.
  - rewrite length_app, length_take. cbn [length]. rewrite length_drop. lia.
  - apply shape_size_insert_one.
  - reflexivity.
  - intros Hwf. rewrite length_fmap, shape_size_insert_one. apply flat_length. exact Hwf.
  - intros i x Hx. rewrite list_lookup_fmap, Hx.
    split; [reflexivity|apply float32_not_finite].
Qed.

Lemma ExpandDimsEditor_call_shape_witness :
  ∃ out,
    ExpandDimsEditor_call (-1) (Array2 1 2 [[1; nan]]%float) ∅ = Ok (Data out)
    ∧ tensor_shape out = [1; 2; 1]
    ∧ tensor_buffer out = [1; nan]%float.
Proof.
  destruct (ExpandDimsEditor_call_shape (-1) (Array2 1 2 [[1; nan]]%float) ∅)
    as (out & Hcall & Hshape & _ & _ & _ & Hbuffer & _).
  - simpl. lia.
  - exists out. split; [exact Hcall|]. split; [exact Hshape|exact Hbuffer].
Defined.

(** X23. An axis below [-(r + 1)] or above [r] makes
    [ExpandDimsEditor.call] raise the [ValueError] of numpy's
    [AxisError]. *)
Theorem ExpandDimsEditor_call_axis_error (axis : Z) (data : ndarray)
    (kwargs : dict) :
  let r := length (shape data) in
  (axis < - Z.of_nat (S r))%Z ∨ (Z.of_nat r < axis)%Z →
  ExpandDimsEditor_call axis data kwargs = Raise ValueError.
Proof.
  intros r Haxis.
  unfold ExpandDimsEditor_call, np_expand_dims, normalize_axis_index. cbv zeta.
  cbn [as_tensor tensor_shape]. fold r.
  assert ((axis <? - Z.of_nat (S r))%Z || (Z.of_nat (S r) <=? axis)%Z = true)
    as ->; [|reflexivity].
  apply orb_true_iff.
  destruct Haxis as [Hlo|Hhi]; [left; apply Z.ltb_lt|right; apply Z.leb_le]; lia.
Qed.

Lemma ExpandDimsEditor_call_axis_error_witness :
  ExpandDimsEditor_call 3 (Array2 1 2 [[1; nan]]%float) ∅ = Raise ValueError.
Proof.
  apply (ExpandDimsEditor_call_axis_error 3 (Array2 1 2 [[1; nan]]%float) ∅).
  right. simpl. lia.
Defined.
